(** * flight-routes: Kosaraju-based "minimum additional routes" analysis

    A shallow embedding of [algorithm.py] (class [Graph]) and of the
    sample data of [test.py], followed by the verification of the
    properties stated for it.

    Modelling conventions.
    - Airport codes are [string]s; vertex ids are list indices, hence
      [nat] (negative Python indices are outside the model).
    - [self.airports] is a Python [dict]: a [gmap string nat].
    - [self.graph] is a [defaultdict(list)]: an association list kept in
      key-insertion order, because [_transpose_graph] and
      [build_compressed_graph_from_sccs] iterate over its keys.  Reading
      [self.graph[k]] for an absent key inserts [k] with an empty list;
      this side effect is modelled ([getitem]).
    - Python exceptions are values of [exn]; a computation yields an
      [outcome].  Mutations of [self.graph] survive an exception, so the
      functions that touch it return the new adjacency next to the
      outcome.
    - The recursive searches take a recursion budget [fuel]; the callers
      pass [self.vertices], which is shown to be always sufficient
      ([find_strongly_connected_components_error]).  The interpreter's
      own recursion limit, which no line of the source sets, is the
      parameter [depth] of [find_strongly_connected_components_within]
      and [find_minimum_additional_routes_within]; statements about which
      runs return, and about what the others raise, are made there. *)

From Stdlib Require Import Lia.
From stdpp Require Import gmap strings list fin_maps.

(** ** Exceptions *)

Inductive pykey : Type :=
| KStr (s : string)
| KInt (n : nat).

Inductive exn : Type :=
| IndexError
| KeyError (k : pykey)
| StopIteration
| RecursionError.

Inductive outcome (A : Type) : Type :=
| Ok (a : A)
| Raise (e : exn).
Arguments Ok {A} a.
Arguments Raise {A} e.

#[global] Instance outcome_bind : MBind outcome := fun A B f m =>
  match m with
  | Ok a => f a
  | Raise e => Raise e
  end.

(** ** The adjacency list: [defaultdict(list)] *)

Definition adjacency : Type := list (nat * list nat).

(** Keys in insertion order: what [for k in d] enumerates. *)
Definition keys (g : adjacency) : list nat := g.*1.

(** [d.get(k)]: the list stored under [k], if any. *)
Fixpoint lookup_key (g : adjacency) (k : nat) : option (list nat) :=
  match g with
  | [] => None
  | (k', l) :: g' => if decide (k' = k) then Some l else lookup_key g' k
  end.

(** The list read by [d[k]]: the stored one, or the fresh empty default. *)
Definition adj (g : adjacency) (k : nat) : list nat :=
  default [] (lookup_key g k).

(** The dictionary after [d[k]] has been evaluated. *)
Definition touch (g : adjacency) (k : nat) : adjacency :=
  match lookup_key g k with
  | Some _ => g
  | None => g ++ [(k, [])]
  end.

(** [d[k]]: value and resulting dictionary. *)
Definition getitem (g : adjacency) (k : nat) : list nat * adjacency :=
  (adj g k, touch g k).

(** [d[k].append(v)]. *)
Fixpoint append_at (g : adjacency) (k v : nat) : adjacency :=
  match g with
  | [] => [(k, [v])]
  | (k', l) :: g' =>
      if decide (k' = k) then (k', l ++ [v]) :: g'
      else (k', l) :: append_at g' k v
  end.

(** ** class Graph *)

Record Graph : Type := mkGraph {
  airports : gmap string nat;
  vertices : nat;
  graph : adjacency
}.

Definition set_graph (self : Graph) (g : adjacency) : Graph :=
  {| airports := airports self; vertices := vertices self; graph := g |}.

(** [Graph.__init__] *)
Definition Graph_init (airports : gmap string nat) : Graph :=
  {| airports := airports; vertices := size airports; graph := [] |}.

(** [Graph.add_edge] *)
Definition add_edge (self : Graph) (from_airport to_airport : nat) : Graph :=
  set_graph self (append_at (graph self) from_airport to_airport).

(** [self.airports[label]] *)
Definition airport_id (self : Graph) (label : string) : outcome nat :=
  match airports self !! label with
  | Some i => Ok i
  | None => Raise (KeyError (KStr label))
  end.

(** [Graph.add_routes]: the edges added before a failing lookup stay. *)
Fixpoint add_routes (self : Graph) (routes : list (string * string))
  : Graph * outcome unit :=
  match routes with
  | [] => (self, Ok tt)
  | (from_airport, to_airport) :: rest =>
      match airport_id self from_airport with
      | Raise e => (self, Raise e)
      | Ok u =>
          match airport_id self to_airport with
          | Raise e => (self, Raise e)
          | Ok v => add_routes (add_edge self u v) rest
          end
      end
  end.

(** ** Depth-first searches *)

(** The mutable objects a search works on: the adjacency dictionary, the
    [visited] list and the output list ([stack] or [component]). *)
Record dfs_state : Type := DfsState {
  st_graph : adjacency;
  st_visited : list bool;
  st_out : list nat
}.

Definition push_out (st : dfs_state) (v : nat) : dfs_state :=
  DfsState (st_graph st) (st_visited st) (st_out st ++ [v]).

(** The loop [for n in l: if not visited[n]: visit(n, ...)]. *)
Fixpoint visit_unvisited (visit : nat -> dfs_state -> dfs_state * outcome unit)
    (l : list nat) (st : dfs_state) : dfs_state * outcome unit :=
  match l with
  | [] => (st, Ok tt)
  | neighbor :: rest =>
      match st_visited st !! neighbor with
      | None => (st, Raise IndexError)
      | Some true => visit_unvisited visit rest st
      | Some false =>
          match visit neighbor st with
          | (st', Ok _) => visit_unvisited visit rest st'
          | (st', Raise e) => (st', Raise e)
          end
      end
  end.

(** [Graph._depth_first_search] *)
Fixpoint _depth_first_search (fuel : nat) (vertex : nat) (st : dfs_state)
  : dfs_state * outcome unit :=
  match fuel with
  | O => (st, Raise RecursionError)
  | S fuel' =>
      if decide (vertex < length (st_visited st)) then
        let visited := <[vertex := true]> (st_visited st) in
        let '(neighbors, g) := getitem (st_graph st) vertex in
        match visit_unvisited (_depth_first_search fuel') neighbors
                (DfsState g visited (st_out st)) with
        | (st', Ok _) => (push_out st' vertex, Ok tt)
        | (st', Raise e) => (st', Raise e)
        end
      else (st, Raise IndexError)
  end.

(** [Graph._depth_first_search_transposed] *)
Fixpoint _depth_first_search_transposed (fuel : nat) (vertex : nat)
    (st : dfs_state) : dfs_state * outcome unit :=
  match fuel with
  | O => (st, Raise RecursionError)
  | S fuel' =>
      if decide (vertex < length (st_visited st)) then
        let visited := <[vertex := true]> (st_visited st) in
        let component := st_out st ++ [vertex] in
        let '(neighbors, g) := getitem (st_graph st) vertex in
        visit_unvisited (_depth_first_search_transposed fuel') neighbors
          (DfsState g visited component)
      else (st, Raise IndexError)
  end.

(** [Graph._transpose_graph]: the keys are enumerated in insertion order
    and each is an existing key, so reading [self.graph[k]] inserts
    nothing. *)
Definition _transpose_graph (self : Graph) : Graph :=
  foldl (fun transposed_graph from_airport =>
           foldl (fun transposed_graph to_airport =>
                    add_edge transposed_graph to_airport from_airport)
                 transposed_graph (adj (graph self) from_airport))
        (Graph_init (airports self)) (keys (graph self)).

(** The [while stack:] loop of the second pass; [order] lists the stack
    in popping order. *)
Fixpoint extract_components (fuel : nat) (order : list nat)
    (transposed : adjacency) (visited : list bool) (sccs : list (list nat))
  : outcome (list (list nat)) :=
  match order with
  | [] => Ok sccs
  | vertex :: rest =>
      match visited !! vertex with
      | None => Raise IndexError
      | Some true => extract_components fuel rest transposed visited sccs
      | Some false =>
          match _depth_first_search_transposed fuel vertex
                  (DfsState transposed visited []) with
          | (st', Ok _) =>
              extract_components fuel rest (st_graph st') (st_visited st')
                (sccs ++ [st_out st'])
          | (_, Raise e) => Raise e
          end
      end
  end.

(** [Graph.find_strongly_connected_components]; the adjacency returned
    is [self.graph] after the call. *)
Definition find_strongly_connected_components (self : Graph)
  : adjacency * outcome (list (list nat)) :=
  let n := vertices self in
  match visit_unvisited (_depth_first_search n) (seq 0 n)
          (DfsState (graph self) (replicate n false) []) with
  | (st, Raise e) => (st_graph st, Raise e)
  | (st, Ok _) =>
      let transposed_graph := _transpose_graph (set_graph self (st_graph st)) in
      (st_graph st,
       extract_components n (reverse (st_out st)) (graph transposed_graph)
         (replicate n false) [])
  end.

(** ** Condensation *)

(** [scc_map]: vertex to component index. *)
Definition build_scc_map (sccs : list (list nat)) : gmap nat nat :=
  foldl (fun scc_map '(idx, scc) =>
           foldl (fun scc_map airport => <[airport := idx]> scc_map) scc_map scc)
        ∅ (zip (seq 0 (length sccs)) sccs).

Definition scc_of (scc_map : gmap nat nat) (airport : nat) : outcome nat :=
  match scc_map !! airport with
  | Some idx => Ok idx
  | None => Raise (KeyError (KInt airport))
  end.

(** [compressed_graph[a].add(b)] on a [defaultdict(set)]; a set is a
    duplicate-free list (the only traversal of these sets, in
    [calculate_routes_needed], is insensitive to their order). *)
Fixpoint set_add_at (cg : adjacency) (a b : nat) : adjacency :=
  match cg with
  | [] => [(a, [b])]
  | (k, s) :: cg' =>
      if decide (k = a) then (k, if decide (b ∈ s) then s else s ++ [b]) :: cg'
      else (k, s) :: set_add_at cg' a b
  end.

Fixpoint compress_edges (scc_map : gmap nat nat) (from_airport : nat)
    (tos : list nat) (cg : adjacency) : outcome adjacency :=
  match tos with
  | [] => Ok cg
  | to_airport :: rest =>
      a ← scc_of scc_map from_airport;
      b ← scc_of scc_map to_airport;
      compress_edges scc_map from_airport rest
        (if decide (a ≠ b) then set_add_at cg a b else cg)
  end.

Fixpoint compress_keys (scc_map : gmap nat nat) (g : adjacency)
    (ks : list nat) (cg : adjacency) : outcome adjacency :=
  match ks with
  | [] => Ok cg
  | from_airport :: rest =>
      cg' ← compress_edges scc_map from_airport (adj g from_airport) cg;
      compress_keys scc_map g rest cg'
  end.

(** [Graph.build_compressed_graph_from_sccs] *)
Definition build_compressed_graph_from_sccs (self : Graph)
    (sccs : list (list nat)) : outcome adjacency :=
  compress_keys (build_scc_map sccs) (graph self) (keys (graph self)) [].

(** ** In-degree count *)

(** [in_degree], a [defaultdict(int)]. *)
Definition in_degree_of (compressed_graph : adjacency) : gmap nat nat :=
  foldl (fun in_degree u =>
           foldl (fun in_degree v =>
                    <[v := S (default 0 (in_degree !! v))]> in_degree)
                 in_degree (adj compressed_graph u))
        ∅ (keys compressed_graph).

(** [Graph.calculate_routes_needed]; [len(compressed_graph)] is the number
    of keys of the dictionary. *)
Definition calculate_routes_needed (compressed_graph : adjacency)
    (start_scc : nat) : nat :=
  let in_degree := in_degree_of compressed_graph in
  foldl (fun zero_in_degree_count node =>
           if decide (node ≠ start_scc ∧ default 0 (in_degree !! node) = 0)
           then S zero_in_degree_count else zero_in_degree_count)
        0 (seq 0 (length (keys compressed_graph))).

(** [next(i for i, scc in enumerate(sccs) if self.airports[start] in scc)];
    the label is looked up once per component tried. *)
Fixpoint find_start_scc (self : Graph) (start_airport : string) (i : nat)
    (sccs : list (list nat)) : outcome nat :=
  match sccs with
  | [] => Raise StopIteration
  | scc :: rest =>
      v ← airport_id self start_airport;
      if decide (v ∈ scc) then Ok i
      else find_start_scc self start_airport (S i) rest
  end.

(** [Graph.find_minimum_additional_routes]; the graph returned is the
    object after the call. *)
Definition find_minimum_additional_routes (self : Graph)
    (start_airport : string) : Graph * outcome nat :=
  let '(g, r) := find_strongly_connected_components self in
  let self' := set_graph self g in
  (self',
   sccs ← r;
   compressed_graph ← build_compressed_graph_from_sccs self' sccs;
   start_scc ← find_start_scc self' start_airport 0 sccs;
   Ok (calculate_routes_needed compressed_graph start_scc)).

(** ** The recursion limit of the interpreter

    The searches recurse once per vertex of a search path and the source
    sets no recursion limit, so the interpreter's own applies.  [depth] is
    the number of nested calls of a search that the interpreter still
    allows when [find_strongly_connected_components] starts one; the call
    after these raises [RecursionError].  Nothing else differs from the
    definitions above, which are the case [depth = self.vertices]. *)
Definition find_strongly_connected_components_within (depth : nat)
    (self : Graph) : adjacency * outcome (list (list nat)) :=
  let n := vertices self in
  match visit_unvisited (_depth_first_search depth) (seq 0 n)
          (DfsState (graph self) (replicate n false) []) with
  | (st, Raise e) => (st_graph st, Raise e)
  | (st, Ok _) =>
      let transposed_graph := _transpose_graph (set_graph self (st_graph st)) in
      (st_graph st,
       extract_components depth (reverse (st_out st)) (graph transposed_graph)
         (replicate n false) [])
  end.

Definition find_minimum_additional_routes_within (depth : nat) (self : Graph)
    (start_airport : string) : Graph * outcome nat :=
  let '(g, r) := find_strongly_connected_components_within depth self in
  let self' := set_graph self g in
  (self',
   sccs ← r;
   compressed_graph ← build_compressed_graph_from_sccs self' sccs;
   start_scc ← find_start_scc self' start_airport 0 sccs;
   Ok (calculate_routes_needed compressed_graph start_scc)).

(** ** The sample of [test.py] *)

Definition sample_airports : gmap string nat :=
  list_to_map
    [("DSM", 0); ("ORD", 1); ("BGI", 2); ("LGA", 3); ("TLV", 4); ("DEL", 5);
     ("DOH", 6); ("CDG", 7); ("SIN", 8); ("BUD", 9); ("JFK", 10); ("HND", 11);
     ("ICN", 12); ("SFO", 13); ("SAN", 14); ("EYW", 15); ("LHR", 16);
     ("EWR", 17)].

Definition sample_routes : list (string * string) :=
  [("DSM", "ORD"); ("ORD", "BGI"); ("BGI", "LGA"); ("LGA", "ORD");
   ("TLV", "DEL"); ("DEL", "CDG"); ("CDG", "BUD"); ("CDG", "DEL");
   ("CDG", "SIN"); ("SIN", "CDG"); ("DEL", "DOH"); ("JFK", "HND");
   ("HND", "ICN"); ("ICN", "JFK"); ("SFO", "SAN"); ("SAN", "EYW");
   ("EYW", "SFO"); ("SFO", "LHR"); ("LHR", "SFO"); ("EWR", "HND")].

Definition sample_graph : Graph :=
  (add_routes (Graph_init sample_airports) sample_routes).1.

(** ** Specification vocabulary *)

(** Both searches are instances of one traversal that records a vertex
    either on entry ([preorder = true], the component of the second pass)
    or on exit ([preorder = false], the finish-order stack); the lemmas
    [dfs_gen_postorder] and [dfs_gen_preorder] identify them. *)
Fixpoint dfs_gen (preorder : bool) (fuel : nat) (vertex : nat) (st : dfs_state)
  : dfs_state * outcome unit :=
  match fuel with
  | O => (st, Raise RecursionError)
  | S fuel' =>
      if decide (vertex < length (st_visited st)) then
        let visited := <[vertex := true]> (st_visited st) in
        let out := if preorder then st_out st ++ [vertex] else st_out st in
        match visit_unvisited (dfs_gen preorder fuel')
                (adj (st_graph st) vertex)
                (DfsState (touch (st_graph st) vertex) visited out) with
        | (st', Ok _) => (if preorder then st' else push_out st' vertex, Ok tt)
        | (st', Raise e) => (st', Raise e)
        end
      else (st, Raise IndexError)
  end.

(** [visited[x]] holds. *)
Definition marked (visited : list bool) (x : nat) : Prop :=
  visited !! x = Some true.

(** Number of entries of [visited] still false. *)
Definition unvisited (visited : list bool) : nat :=
  length (filter (fun b => b = false) visited).

(** A directed path from [x] to [y], along the edges given by the
    neighbour function [a], none of whose vertices satisfies [P]. *)
Inductive wpath (a : nat -> list nat) (P : nat -> Prop) : nat -> nat -> Prop :=
| wpath_refl x : ¬ P x -> wpath a P x x
| wpath_step x y z : ¬ P x -> y ∈ a x -> wpath a P y z -> wpath a P x z.

(** Plain reachability. *)
Definition reaches (a : nat -> list nat) (x y : nat) : Prop :=
  wpath a (fun _ => False) x y.

(** The ordering property of a finish-order segment [D]: whatever a vertex
    of [D] reaches finishes no later than some vertex of its own strongly
    connected class. *)
Definition finish_ordered (a : nat -> list nat) (P : nat -> Prop)
    (D : list nat) : Prop :=
  ∀ u w, u ∈ D -> wpath a P u w ->
    ∃ z l1 l2, D = l1 ++ z :: l2 ∧ wpath a P z u ∧ wpath a P u z ∧
               (w = z ∨ w ∈ l1).

(** What a search started from the sources [srcs] in state [st] has
    achieved in state [st']. *)
Definition dfs_post (preorder : bool) (a : nat -> list nat) (srcs : list nat)
    (st st' : dfs_state) : Prop :=
  ∃ D, st_out st' = st_out st ++ D ∧
       (∀ k, adj (st_graph st') k = a k) ∧
       length (st_visited st') = length (st_visited st) ∧
       NoDup D ∧
       (∀ y, y ∈ D ↔ ∃ n, n ∈ srcs ∧ wpath a (marked (st_visited st)) n y) ∧
       (∀ y, marked (st_visited st') y ↔ marked (st_visited st) y ∨ y ∈ D) ∧
       (preorder = false -> finish_ordered a (marked (st_visited st)) D).

(** Each listed component is a whole class of mutually reachable
    vertices. *)
Definition classes_ok (a : nat -> list nat) (sccs : list (list nat)) : Prop :=
  ∀ c u v, c ∈ sccs -> u ∈ c -> v ∈ c ↔ reaches a u v ∧ reaches a v u.

(** An edge of the condensed graph joins two different components and
    comes from an edge of the graph. *)
Definition from_cross_edge (scc_map : gmap nat nat) (g : adjacency)
    (x y : nat) : Prop :=
  x ≠ y ∧ ∃ u v, v ∈ adj g u ∧ scc_map !! u = Some x ∧ scc_map !! v = Some y.

(** Edges of the condensed graph. *)
Definition cg_edge (compressed_graph : adjacency) (x y : nat) : Prop :=
  y ∈ adj compressed_graph x.

(** What every search step preserves, whether it returns or raises:
    marks are only added, the neighbour lists are unchanged, keys are
    only added. *)
Definition dfs_frame (st st' : dfs_state) : Prop :=
  length (st_visited st') = length (st_visited st) ∧
  (∀ y, marked (st_visited st) y -> marked (st_visited st') y) ∧
  (∀ k, adj (st_graph st') k = adj (st_graph st) k) ∧
  keys (st_graph st) ⊆ keys (st_graph st').

(** The count described for the analyzer: the component indices [c] of
    the full range [0 .. num_components - 1] with [c ≠ start_scc] and
    in-degree zero. *)
Definition orphan_components (num_components : nat)
    (compressed_graph : adjacency) (start_scc : nat) : nat :=
  length (filter (fun c => c ≠ start_scc ∧
                           default 0 (in_degree_of compressed_graph !! c) = 0)
                 (seq 0 num_components)).

(** Two airports, no route. *)
Definition two_airports : Graph :=
  Graph_init (list_to_map [("A", 0); ("B", 1)]).

(** The same search state over another dictionary. *)
Definition with_graph (st : dfs_state) (h : adjacency) : dfs_state :=
  DfsState h (st_visited st) (st_out st).

(** Re-running a search over a dictionary that already holds every key
    the first run inserted reproduces the run and inserts nothing. *)
Definition replays (visit : nat -> dfs_state -> dfs_state * outcome unit) : Prop :=
  ∀ x st st' r, visit x st = (st', r) ->
    ∀ h, (∀ k, adj h k = adj (st_graph st) k) ->
         keys (st_graph st') ⊆ keys h ->
         visit x (with_graph st h) = (with_graph st' h, r).

(** A list without its repetitions: each element is kept where it first
    occurs. *)
Fixpoint dedup (l : list nat) : list nat :=
  match l with
  | [] => []
  | x :: l' => x :: filter (fun y => y ≠ x) (dedup l')
  end.

(** Two dictionaries with the same keys, in the same order, whose lists
    agree up to repeated neighbours. *)
Definition same_edges (g h : adjacency) : Prop :=
  keys g = keys h ∧ ∀ k, dedup (adj g k) = dedup (adj h k).

(** A search step that behaves in the same way over dictionaries that
    differ by repeated neighbours only. *)
Definition simulates (visit : nat -> dfs_state -> dfs_state * outcome unit)
  : Prop :=
  ∀ x st st' r, visit x st = (st', r) ->
    ∀ h, same_edges (st_graph st) h ->
      ∃ h', visit x (with_graph st h) = (with_graph st' h', r) ∧
            same_edges (st_graph st') h'.

(** The edges of a dictionary in the order in which the nested loops
    [for k in d: for t in d[k]] enumerate them. *)
Definition edge_list (g : adjacency) : list (nat * nat) :=
  keys g ≫= fun k => (fun t => (k, t)) <$> adj g k.

(** The dictionary obtained from [acc] by appending, for each listed edge
    [(k, t)], the source [k] to the list of [t]. *)
Definition reversed_into (acc : adjacency) (edges : list (nat * nat))
  : adjacency :=
  foldl (fun acc e => append_at acc e.2 e.1) acc edges.

(** Number of occurrences. *)
Definition count_of (x : nat) (l : list nat) : nat :=
  length (filter (fun y => y = x) l).


(** The scenarios of the test plan: a chain, a chain with an isolated
    airport, and a two-airport cycle. *)
Definition chain_graph : Graph :=
  (add_routes (Graph_init (list_to_map [("A", 0); ("B", 1); ("C", 2)]))
              [("A", "B"); ("B", "C")]).1.

Definition chain_isolated_graph : Graph :=
  (add_routes
     (Graph_init (list_to_map [("A", 0); ("B", 1); ("C", 2); ("D", 3)]))
     [("A", "B"); ("B", "C")]).1.

Definition cycle_graph : Graph :=
  (add_routes (Graph_init (list_to_map [("A", 0); ("B", 1)]))
              [("A", "B"); ("B", "A")]).1.

(** Both endpoints of every stored edge are vertex ids. *)
Definition edges_in_range (n : nat) (g : adjacency) : Prop :=
  ∀ u v, v ∈ adj g u -> u < n ∧ v < n.

(** Every route names registered airports. *)
Definition routes_known (airports : gmap string nat)
    (routes : list (string * string)) : Prop :=
  Forall (fun r => is_Some (airports !! r.1) ∧ is_Some (airports !! r.2)) routes.


(** A set of vertices that contains every predecessor of its members. *)
Definition pred_closed (a : nat -> list nat) (S : list nat) : Prop :=
  ∀ u v, v ∈ a u -> v ∈ S -> u ∈ S.

(** A [defaultdict(set)]: the keys are distinct, and each stored set is
    duplicate-free and non-empty. *)
Definition sets_ok (cg : adjacency) : Prop :=
  NoDup (keys cg) ∧ Forall (fun e => NoDup e.2 ∧ e.2 ≠ []) cg.

(** Every stored key and every stored neighbour is a vertex id. *)
Definition in_range (n : nat) (g : adjacency) : Prop :=
  Forall (fun e => e.1 < n ∧ Forall (fun v => v < n) e.2) g.

Definition wf_graph (self : Graph) : Prop :=
  in_range (vertices self) (graph self).

#[global] Instance in_range_dec n g : Decision (in_range n g).
Proof. unfold in_range. apply _. Defined.

#[global] Instance wf_graph_dec self : Decision (wf_graph self).
Proof. unfold wf_graph. apply _. Defined.

(** ** The same transposition over a store of objects

    To speak about mutation and aliasing, [_transpose_graph] is modelled
    a second time over an explicit store.  An address is an index into
    the store; allocation appends.  A [defaultdict(list)] object holds, in
    insertion order, its keys with the addresses of their list objects.
    The two [for] loops read the dictionary and the list they iterate
    over from the current store at every step, as Python iterators do;
    [fuel] bounds the number of steps of each loop, and [None] stands
    for a run that does not return normally.  The label map, which the
    two graph objects share and neither method writes to, is kept as a
    value. *)

Module Heap.

Abbreviation addr := nat (only parsing).

Inductive obj : Type :=
| OList (items : list nat)
| ODict (entries : list (nat * addr)).

Abbreviation store := (list obj) (only parsing).

Record Graph : Type := mkGraph {
  airports : gmap string nat;
  vertices : nat;
  graph : addr
}.

Definition alloc (s : store) (o : obj) : addr * store :=
  (length s, s ++ [o]).

(** The address bound to key [k], first binding first. *)
Fixpoint dict_find (entries : list (nat * addr)) (k : nat) : option addr :=
  match entries with
  | [] => None
  | (k', a) :: rest => if decide (k' = k) then Some a else dict_find rest k
  end.

(** [d[k]] on a [defaultdict(list)]: an absent key is bound to a newly
    allocated empty list. *)
Definition getitem (s : store) (d : addr) (k : nat) : option (addr * store) :=
  match s !! d with
  | Some (ODict entries) =>
      match dict_find entries k with
      | Some a => Some (a, s)
      | None =>
          let '(a, s1) := alloc s (OList []) in
          Some (a, <[d := ODict (entries ++ [(k, a)])]> s1)
      end
  | _ => None
  end.

(** [lst.append(v)], in place. *)
Definition append (s : store) (a : addr) (v : nat) : option store :=
  match s !! a with
  | Some (OList items) => Some (<[a := OList (items ++ [v])]> s)
  | _ => None
  end.

(** [Graph.__init__]: the adjacency dictionary is a new object. *)
Definition Graph_init (s : store) (airports : gmap string nat) : Graph * store :=
  let '(d, s1) := alloc s (ODict []) in
  ({| airports := airports; vertices := size airports; graph := d |}, s1).

(** [Graph.add_edge] *)
Definition add_edge (s : store) (self : Graph) (from_airport to_airport : nat)
  : option store :=
  '(a, s1) ← getitem s (graph self) from_airport;
  append s1 a to_airport.

(** [for x in lst: body(x)], where [lst] is the list object at [a]. *)
Fixpoint for_list (fuel : nat) (body : nat -> store -> option store)
    (a : addr) (i : nat) (s : store) : option store :=
  match fuel with
  | O => None
  | S fuel' =>
      match s !! a with
      | Some (OList items) =>
          match items !! i with
          | None => Some s
          | Some x => s' ← body x s; for_list fuel' body a (S i) s'
          end
      | _ => None
      end
  end.

(** [for k in d: body(k)], where [d] is the dictionary object at [d] and
    had [n0] keys when the loop started; a change of size during the
    iteration is an error. *)
Fixpoint for_keys (fuel : nat) (body : nat -> store -> option store)
    (d : addr) (n0 : nat) (i : nat) (s : store) : option store :=
  match fuel with
  | O => None
  | S fuel' =>
      match s !! d with
      | Some (ODict entries) =>
          if decide (length entries = n0) then
            match entries !! i with
            | None => Some s
            | Some (k, _) => s' ← body k s; for_keys fuel' body d n0 (S i) s'
            end
          else None
      | _ => None
      end
  end.

Definition dict_size (s : store) (d : addr) : nat :=
  match s !! d with
  | Some (ODict entries) => length entries
  | _ => 0
  end.

(** [Graph._transpose_graph] *)
Definition _transpose_graph (fuel : nat) (s : store) (self : Graph)
  : option (Graph * store) :=
  let '(transposed_graph, s0) := Graph_init s (airports self) in
  s' ← for_keys fuel
         (fun from_airport s =>
            '(a, s1) ← getitem s (graph self) from_airport;
            for_list fuel
              (fun to_airport s =>
                 add_edge s transposed_graph to_airport from_airport)
              a 0 s1)
         (graph self) (dict_size s0 (graph self)) 0 s0;
  Some (transposed_graph, s').

(** The list stored at [a]. *)
Definition items_at (s : store) (a : addr) : list nat :=
  match s !! a with
  | Some (OList items) => items
  | _ => []
  end.

Definition entries_at (s : store) (d : addr) : list (nat * addr) :=
  match s !! d with
  | Some (ODict entries) => entries
  | _ => []
  end.

(** The adjacency dictionary denoted by the object at [d]. *)
Definition contents (s : store) (d : addr) : adjacency :=
  (fun e => (e.1, items_at s e.2)) <$> entries_at s d.

(** [self.graph] is a dictionary whose values are list objects. *)
Definition valid (s : store) (self : Graph) : Prop :=
  ∃ entries, s !! graph self = Some (ODict entries) ∧
    NoDup (entries.*1) ∧
    Forall (fun e => ∃ items, s !! e.2 = Some (OList items)) entries.

(** The dictionary at [d] and its lists were all allocated at or after
    address [base], and no two keys share a list. *)
Definition owned (base : nat) (s : store) (d : addr) : Prop :=
  base ≤ d ∧
  ∃ entries, s !! d = Some (ODict entries) ∧ NoDup (entries.*2) ∧
    Forall (fun e => base ≤ e.2 ∧ ∃ items, s !! e.2 = Some (OList items))
           entries.

(** Every object that existed below [base] is unchanged. *)
Definition preserved (base : nat) (s s' : store) : Prop :=
  ∀ a, a < base -> s' !! a = s !! a.

(** Enough steps for both loops: more than the number of keys and than
    the length of every list. *)
Definition enough (fuel : nat) (s : store) (self : Graph) : Prop :=
  length (entries_at s (graph self)) < fuel ∧
  Forall (fun e => length (items_at s e.2) < fuel) (entries_at s (graph self)).

End Heap.

(** * Verification *)

(** ** The adjacency dictionary *)

Lemma lookup_key_touch g k k' : adj (touch g k) k' = adj g k'.
Proof.
  unfold adj, touch. destruct (lookup_key g k) eqn:E; [done|].
  induction g as [|[k0 l0] g IH]; simpl in *.
  - destruct (decide (k = k')); subst; simpl; [|done]. reflexivity.
  - destruct (decide (k0 = k)); [done|].
    destruct (decide (k0 = k')); [done|]. by apply IH.
Qed.

Lemma adj_append_at g k v k' :
  adj (append_at g k v) k' = if decide (k = k') then adj g k ++ [v] else adj g k'.
Proof.
  unfold adj. induction g as [|[k0 l0] g IH]; simpl.
  - repeat case_decide; subst; simpl; done.
  - repeat (case_decide; subst; simpl in * ); try done.
    all: rewrite IH; by repeat (case_decide; subst; simpl in * ).
Qed.

Lemma keys_touch_subseteq g k : keys g ⊆ keys (touch g k).
Proof.
  unfold touch, keys. destruct (lookup_key g k); [done|].
  rewrite fmap_app. set_solver.
Qed.

Lemma lookup_key_None g k : lookup_key g k = None ↔ k ∉ keys g.
Proof.
  unfold keys. induction g as [|[k0 l0] g IH]; simpl.
  - split; [intros _; apply not_elem_of_nil|done].
  - case_decide; subst.
    + split; [done|]. intros []. by left.
    + rewrite IH. rewrite not_elem_of_cons. naive_solver.
Qed.

Lemma touch_key g k : k ∈ keys g -> touch g k = g.
Proof.
  intros Hk. unfold touch. destruct (lookup_key g k) eqn:E; [done|].
  by apply lookup_key_None in E.
Qed.

Lemma elem_of_keys_touch g k : k ∈ keys (touch g k).
Proof.
  unfold touch. destruct (lookup_key g k) eqn:E.
  - destruct (decide (k ∈ keys g)) as [|Hn]; [done|].
    apply lookup_key_None in Hn. congruence.
  - unfold keys. rewrite fmap_app. set_solver.
Qed.

Lemma adj_in_range n g u v : in_range n g -> v ∈ adj g u -> u < n ∧ v < n.
Proof.
  unfold in_range, adj. induction 1 as [|[k l] g [Hk Hl] _ IH]; simpl.
  - intros H. by apply elem_of_nil in H.
  - case_decide; subst; simpl in *; [|done].
    intros Hv. split; [done|]. rewrite Forall_forall in Hl. by apply Hl.
Qed.

(** ** Paths that avoid a set of vertices *)

Section paths.
Context (a : nat -> list nat).
Implicit Types (P Q : nat -> Prop) (x y z : nat).

Lemma wpath_start P x y : wpath a P x y -> ¬ P x.
Proof. by destruct 1. Qed.

Lemma wpath_end P x y : wpath a P x y -> ¬ P y.
Proof. by induction 1. Qed.

Lemma wpath_trans P x y z : wpath a P x y -> wpath a P y z -> wpath a P x z.
Proof. induction 1; [done|]. intros. eapply wpath_step; eauto. Qed.

Lemma wpath_mono P Q x y :
  (∀ v, Q v -> P v) -> wpath a P x y -> wpath a Q x y.
Proof.
  intros HQP. induction 1.
  - apply wpath_refl. naive_solver.
  - eapply wpath_step; eauto.
Qed.

Lemma wpath_edge P x y : ¬ P x -> ¬ P y -> y ∈ a x -> wpath a P x y.
Proof. intros. eapply wpath_step; eauto. by apply wpath_refl. Qed.

(** A path either avoids [x] as well, or passes through [x]. *)
Lemma wpath_through P x u w :
  wpath a P u w -> wpath a (fun v => P v ∨ v = x) u w ∨ wpath a P u x.
Proof.
  induction 1 as [u Hu|u m w Hu Hm _ IH].
  - destruct (decide (u = x)) as [->|Hne].
    + right. by apply wpath_refl.
    + left. apply wpath_refl. naive_solver.
  - destruct (decide (u = x)) as [->|Hne].
    + right. by apply wpath_refl.
    + destruct IH as [IH|IH].
      * left. eapply wpath_step; eauto. naive_solver.
      * right. eapply wpath_step; eauto.
Qed.

(** The vertices reached from [x] are [x] and those reached from its
    neighbours without passing through [x] again. *)
Lemma wpath_unfold_source P x y :
  wpath a P x y ↔
  ¬ P x ∧ (y = x ∨ ∃ n, n ∈ a x ∧ wpath a (fun v => P v ∨ v = x) n y).
Proof.
  split.
  - intros Hp. split; [by eapply wpath_start|].
    assert (∀ u w, wpath a P u w ->
              wpath a (fun v => P v ∨ v = x) u w ∨
              (w = x ∨ ∃ n, n ∈ a x ∧ wpath a (fun v => P v ∨ v = x) n w))
      as Hsplit.
    { induction 1 as [u Hu|u m w Hu Hm _ IH].
      - destruct (decide (u = x)) as [->|Hne]; [right; by left|].
        left. apply wpath_refl. naive_solver.
      - destruct IH as [IH|IH]; [|by right].
        destruct (decide (u = x)) as [->|Hne]; [right; right; eauto|].
        left. eapply wpath_step; eauto. naive_solver. }
    destruct (Hsplit _ _ Hp) as [Hx|Hx]; [|done].
    apply wpath_start in Hx. naive_solver.
  - intros [HP [->|(n & Hn & Hp)]]; [by apply wpath_refl|].
    eapply wpath_step; eauto. eapply wpath_mono; [|done]. naive_solver.
Qed.

(** Once the class [D] of everything reached from some sources is
    marked, a path either avoids [D] or ends in [D]. *)
Lemma wpath_split_closed P (D : list nat) x y :
  (∀ u w, u ∈ D -> wpath a P u w -> w ∈ D) ->
  wpath a P x y -> wpath a (fun v => P v ∨ v ∈ D) x y ∨ y ∈ D.
Proof.
  intros Hclosed. induction 1 as [u Hu|u m w Hu Hm Hp IH].
  - destruct (decide (u ∈ D)); [by right|].
    left. apply wpath_refl. naive_solver.
  - destruct IH as [IH|IH]; [|by right].
    destruct (decide (u ∈ D)) as [HD|HD].
    + right. eapply Hclosed; [done|]. eapply wpath_step; eauto.
    + left. eapply wpath_step; eauto. naive_solver.
Qed.

Lemma reaches_refl x : reaches a x x.
Proof. apply wpath_refl. tauto. Qed.

Lemma reaches_trans x y z : reaches a x y -> reaches a y z -> reaches a x z.
Proof. apply wpath_trans. Qed.

Lemma wpath_reaches P x y : wpath a P x y -> reaches a x y.
Proof. apply wpath_mono. tauto. Qed.
End paths.

(** ** Counting the unvisited vertices *)

Lemma unvisited_mark (V : list bool) x :
  V !! x = Some false -> S (unvisited (<[x := true]> V)) = unvisited V.
Proof.
  unfold unvisited. revert x. induction V as [|b V IH]; intros [|x] Hx;
    simpl in *; simplify_eq.
  - rewrite !filter_cons. by repeat case_decide.
  - specialize (IH _ Hx). rewrite !filter_cons. case_decide; simpl; lia.
Qed.

Lemma unvisited_mono (V V' : list bool) :
  length V' = length V -> (∀ y, marked V y -> marked V' y) ->
  unvisited V' ≤ unvisited V.
Proof.
  unfold unvisited, marked. revert V'.
  induction V as [|b V IH]; intros [|b' V'] Hlen Hm; simpl in *; try done.
  assert (length (filter (fun b => b = false) V') ≤
          length (filter (fun b => b = false) V)) as Hle.
  { apply IH; [lia|]. intros y Hy. by apply (Hm (S y)). }
  rewrite !filter_cons. repeat case_decide; subst; simpl; try lia.
  specialize (Hm 0). simpl in Hm. destruct b; [|done]. by specialize (Hm eq_refl).
Qed.

Lemma unvisited_pos (V : list bool) x : V !! x = Some false -> 0 < unvisited V.
Proof. intros Hx. rewrite <- (unvisited_mark V x Hx). lia. Qed.

Lemma marked_insert (V : list bool) x y :
  x < length V -> marked (<[x := true]> V) y ↔ marked V y ∨ y = x.
Proof.
  intros Hx. unfold marked. destruct (decide (x = y)) as [->|Hne].
  - rewrite list_lookup_insert_eq by done. naive_solver.
  - rewrite list_lookup_insert_ne by done. naive_solver.
Qed.

Lemma wpath_proper a (P Q : nat -> Prop) x y :
  (∀ v, P v ↔ Q v) -> wpath a P x y ↔ wpath a Q x y.
Proof. intros HPQ. split; apply wpath_mono; naive_solver. Qed.

(** ** What a depth-first search computes *)

Lemma finish_ordered_nil a P : finish_ordered a P [].
Proof. intros u w Hu. by apply elem_of_nil in Hu. Qed.

(** Two consecutive segments, the second produced with the first one
    marked. *)
Lemma finish_ordered_app a (P : nat -> Prop) (D1 D2 : list nat) :
  (∀ u w, u ∈ D1 -> wpath a P u w -> w ∈ D1) ->
  (∀ u, u ∈ D2 -> ¬ P u) ->
  finish_ordered a P D1 ->
  finish_ordered a (fun v => P v ∨ v ∈ D1) D2 ->
  finish_ordered a P (D1 ++ D2).
Proof.
  intros Hclosed HD2 H1 H2 u w Hu Hp.
  apply elem_of_app in Hu as [Hu|Hu].
  - destruct (H1 u w Hu Hp) as (z & l1 & l2 & -> & Hzu & Huz & Hw).
    exists z, l1, (l2 ++ D2). by rewrite <- app_assoc.
  - destruct (wpath_split_closed a P D1 u w Hclosed Hp) as [Hp'|Hw].
    + destruct (H2 u w Hu Hp') as (z & l1 & l2 & -> & Hzu & Huz & Hw).
      exists z, (D1 ++ l1), l2. rewrite <- app_assoc. split; [done|].
      split; [eapply wpath_mono; [|exact Hzu]; naive_solver|].
      split; [eapply wpath_mono; [|exact Huz]; naive_solver|].
      destruct Hw as [->|Hw]; [by left|]. right. apply elem_of_app. by right.
    + apply list_elem_of_split in Hu as (l1 & l2 & ->).
      exists u, (D1 ++ l1), l2. rewrite <- app_assoc. split; [done|].
      assert (wpath a P u u) as Huu.
      { apply wpath_refl, HD2. apply elem_of_app. right. by left. }
      do 2 (split; [done|]). right. apply elem_of_app. by left.
Qed.

(** The segment of a vertex [x]: that of its neighbours, then [x]. *)
Lemma finish_ordered_snoc a (P : nat -> Prop) (D' : list nat) x :
  ¬ P x ->
  (∀ y, y = x ∨ y ∈ D' ↔ wpath a P x y) ->
  finish_ordered a (fun v => P v ∨ v = x) D' ->
  finish_ordered a P (D' ++ [x]).
Proof.
  intros Hx Hset H' u w Hu Hp.
  assert (w = x ∨ w ∈ D') as Hw.
  { apply Hset. eapply wpath_trans; [|exact Hp]. apply Hset.
    apply elem_of_app in Hu as [Hu|Hu]; [by right|].
    apply list_elem_of_singleton in Hu. by left. }
  assert (wpath a P u x -> ∃ z l1 l2, D' ++ [x] = l1 ++ z :: l2 ∧
            wpath a P z u ∧ wpath a P u z ∧ (w = z ∨ w ∈ l1)) as Hvia.
  { intros Hux. exists x, D', []. split; [done|]. split; [|done].
    apply Hset. apply elem_of_app in Hu as [Hu|Hu]; [by right|].
    apply list_elem_of_singleton in Hu. by left. }
  apply elem_of_app in Hu as [Hu|Hu].
  - destruct (wpath_through a P x u w Hp) as [Hp'|Hux]; [|by apply Hvia].
    destruct (H' u w Hu Hp') as (z & l1 & l2 & -> & Hzu & Huz & Hwz).
    exists z, l1, (l2 ++ [x]). rewrite <- app_assoc. split; [done|].
    split; [eapply wpath_mono; [|exact Hzu]; naive_solver|].
    split; [eapply wpath_mono; [|exact Huz]; naive_solver|done].
  - apply list_elem_of_singleton in Hu as ->. apply Hvia. by apply wpath_refl.
Qed.

Section dfs_spec.
Context (a : nat -> list nat) (N : nat) (preorder : bool).

Lemma dfs_post_nil st : (∀ k, adj (st_graph st) k = a k) ->
  dfs_post preorder a [] st st.
Proof.
  intros Hadj. exists []. rewrite app_nil_r. repeat split; try done.
  - apply NoDup_nil_2.
  - intros Hy. by apply elem_of_nil in Hy.
  - intros (n & Hn & _). by apply elem_of_nil in Hn.
  - naive_solver.
  - intros [|Hy]; [done|]. by apply elem_of_nil in Hy.
  - intros _. apply finish_ordered_nil.
Qed.

(** Skipping a source that is already marked. *)
Lemma dfs_post_skip n l st st' :
  marked (st_visited st) n ->
  dfs_post preorder a l st st' -> dfs_post preorder a (n :: l) st st'.
Proof.
  intros Hn (D & Hout & Hadj & Hlen & Hnd & Hset & Hmark & Hfin).
  exists D. repeat split; try done.
  - intros Hy. apply Hset in Hy as (m & Hm & Hp). exists m. split; [|done].
    by right.
  - intros (m & Hm & Hp). apply Hset. exists m. split; [|done].
    apply elem_of_cons in Hm as [->|Hm]; [|done].
    by apply wpath_start in Hp.
  - by apply Hmark.
  - by apply Hmark.
Qed.

(** Searching from [n], then from the sources [l]. *)
Lemma dfs_post_cons n l st st1 st2 :
  dfs_post preorder a [n] st st1 -> dfs_post preorder a l st1 st2 ->
  dfs_post preorder a (n :: l) st st2.
Proof.
  intros (D1 & Hout1 & Hadj1 & Hlen1 & Hnd1 & Hset1 & Hmark1 & Hfin1)
         (D2 & Hout2 & Hadj2 & Hlen2 & Hnd2 & Hset2 & Hmark2 & Hfin2).
  assert (∀ y, y ∈ D1 ↔ wpath a (marked (st_visited st)) n y) as Hset1'.
  { intros y. rewrite Hset1. split; [|by exists n; split; [left|]].
    intros (m & Hm & Hp). by apply list_elem_of_singleton in Hm as ->. }
  assert (∀ u w, u ∈ D1 -> wpath a (marked (st_visited st)) u w -> w ∈ D1)
    as Hclosed.
  { intros u w Hu Hp. apply Hset1'. eapply wpath_trans; [|done].
    by apply Hset1'. }
  assert (∀ x y, wpath a (marked (st_visited st1)) x y ↔
                 wpath a (fun v => marked (st_visited st) v ∨ v ∈ D1) x y)
    as Hconv.
  { intros x y. apply wpath_proper. intros v. apply Hmark1. }
  exists (D1 ++ D2). split; [by rewrite Hout2, Hout1, app_assoc|].
  split; [done|]. split; [congruence|]. split.
  { apply NoDup_app. split; [done|]. split; [|done].
    intros y Hy1 Hy2. apply Hset2 in Hy2 as (m & _ & Hp).
    apply wpath_end in Hp. apply Hp, Hmark1. by right. }
  split.
  { intros y. rewrite elem_of_app, Hset1', Hset2. split.
    - intros [Hp|(m & Hm & Hp)].
      + exists n. split; [by left|done].
      + exists m. split; [by right|]. apply Hconv in Hp.
        eapply wpath_mono; [|exact Hp]. naive_solver.
    - intros (m & Hm & Hp). apply elem_of_cons in Hm as [->|Hm]; [by left|].
      destruct (wpath_split_closed a _ D1 m y Hclosed Hp) as [Hp'|Hy].
      + right. exists m. split; [done|]. by apply Hconv.
      + left. by apply Hset1'. }
  split.
  { intros y. rewrite Hmark2, Hmark1, elem_of_app. tauto. }
  intros Hpost. apply finish_ordered_app; auto.
  - intros u Hu. apply Hset2 in Hu as (m & _ & Hp). apply wpath_end in Hp.
    intros Hm. apply Hp, Hmark1. by left.
  - intros u w Hu Hp. apply Hconv in Hp.
    destruct (Hfin2 Hpost u w Hu Hp) as (z & l1 & l2 & -> & Hzu & Huz & Hw).
    exists z, l1, l2. split; [done|]. by rewrite <- !Hconv.
Qed.

Lemma visit_unvisited_spec visit fuel :
  (∀ x st, (∀ k, adj (st_graph st) k = a k) -> length (st_visited st) = N ->
     st_visited st !! x = Some false -> unvisited (st_visited st) ≤ fuel ->
     ∃ st', visit x st = (st', Ok tt) ∧ dfs_post preorder a [x] st st') ->
  ∀ l st, (∀ k, adj (st_graph st) k = a k) -> length (st_visited st) = N ->
    Forall (fun v => v < N) l -> unvisited (st_visited st) ≤ fuel ->
    ∃ st', visit_unvisited visit l st = (st', Ok tt) ∧
           dfs_post preorder a l st st'.
Proof.
  intros Hvisit l. induction l as [|n l IH]; intros st Hadj Hlen Hl Hfuel.
  - exists st. split; [done|]. by apply dfs_post_nil.
  - apply Forall_cons in Hl as [Hn Hl]. simpl.
    destruct (lookup_lt_is_Some_2 (st_visited st) n) as [b Hb]; [lia|].
    rewrite Hb. destruct b.
    + destruct (IH st) as (st' & Hrun & Hpost); auto.
      exists st'. split; [done|]. by apply dfs_post_skip.
    + destruct (Hvisit n st) as (st1 & Hrun1 & Hpost1); auto.
      rewrite Hrun1.
      pose proof Hpost1 as (D1 & _ & Hadj1 & Hlen1 & _ & _ & Hmark1 & _).
      destruct (IH st1) as (st2 & Hrun2 & Hpost2); auto; [congruence| |].
      { etrans; [|exact Hfuel]. apply unvisited_mono; [done|].
        intros y Hy. apply Hmark1. by left. }
      exists st2. split; [done|]. by eapply dfs_post_cons.
Qed.
End dfs_spec.

Section dfs_gen_spec.
Context (a : nat -> list nat) (N : nat) (preorder : bool).
Hypothesis a_range : ∀ u v, v ∈ a u -> v < N.

(** The search from an unvisited vertex [x] succeeds within a budget
    of as many calls as there are unvisited vertices, and records
    exactly the vertices reached from [x] through unvisited ones. *)
Lemma dfs_gen_spec fuel : ∀ x st,
  (∀ k, adj (st_graph st) k = a k) -> length (st_visited st) = N ->
  st_visited st !! x = Some false -> unvisited (st_visited st) ≤ fuel ->
  ∃ st', dfs_gen preorder fuel x st = (st', Ok tt) ∧
         dfs_post preorder a [x] st st'.
Proof.
  induction fuel as [|fuel IH]; intros x [g V O] Hadj Hlen Hx Hfuel;
    simpl in *.
  { apply unvisited_pos in Hx. lia. }
  assert (x < length V) as Hxlt by (by eapply lookup_lt_Some).
  rewrite decide_True by done.
  set (O0 := if preorder then O ++ [x] else O).
  set (st0 := DfsState (touch g x) (<[x:=true]> V) O0).
  destruct (visit_unvisited_spec a N preorder
              (dfs_gen preorder fuel) fuel IH (adj g x) st0)
    as ([g1 V1 O1] & Hrun & D' & Hout & Hadj1 & Hlen1 & Hnd & Hset & Hmark & Hfin).
  { intros k. simpl. by rewrite lookup_key_touch. }
  { simpl. by rewrite length_insert. }
  { rewrite Hadj. apply Forall_forall. intros v. apply a_range. }
  { simpl. pose proof (unvisited_mark V x Hx). lia. }
  rewrite Hrun. simpl in *.
  assert (¬ marked V x) as Hnx by (unfold marked; congruence).
  assert (∀ u w, wpath a (marked (<[x:=true]> V)) u w ↔
                 wpath a (fun v => marked V v ∨ v = x) u w) as Hconv.
  { intros u w. apply wpath_proper. intros v. by apply marked_insert. }
  assert (x ∉ D') as HxD.
  { intros HxD. apply Hset in HxD as (n & _ & Hp). apply wpath_end in Hp.
    apply Hp, marked_insert; auto. }
  assert (∀ y, y = x ∨ y ∈ D' ↔ wpath a (marked V) x y) as Hreach.
  { intros y. rewrite wpath_unfold_source, Hset. rewrite Hadj.
    setoid_rewrite Hconv. tauto. }
  set (D := if preorder then x :: D' else D' ++ [x]).
  assert (∀ y, y ∈ D ↔ y = x ∨ y ∈ D') as HD.
  { intros y. unfold D. destruct preorder.
    - by rewrite elem_of_cons.
    - rewrite elem_of_app, list_elem_of_singleton. tauto. }
  exists (if preorder then DfsState g1 V1 O1
          else push_out (DfsState g1 V1 O1) x).
  split; [by destruct preorder|].
  exists D. split.
  { unfold D, O0 in *. destruct preorder; simpl; rewrite Hout.
    - by rewrite <- app_assoc.
    - by rewrite <- app_assoc. }
  split; [by destruct preorder|].
  split; [destruct preorder; simpl; by rewrite Hlen1, length_insert|].
  split.
  { unfold D. destruct preorder.
    - by apply NoDup_cons.
    - apply NoDup_app. split; [done|]. split; [|apply NoDup_singleton].
      intros y Hy Hyx. apply list_elem_of_singleton in Hyx. by subst. }
  split.
  { intros y. rewrite HD, Hreach. split.
    - intros Hp. exists x. split; [by left|done].
    - intros (n & Hn & Hp). by apply list_elem_of_singleton in Hn as ->. }
  split.
  { intros y. rewrite HD.
    assert (marked V1 y ↔ marked (<[x:=true]> V) y ∨ y ∈ D') as HV1
      by apply Hmark.
    rewrite marked_insert in HV1 by done. destruct preorder; simpl; tauto. }
  intros ->. unfold D. apply finish_ordered_snoc; auto.
  intros u w Hu Hp. apply Hconv in Hp.
  destruct (Hfin eq_refl u w Hu Hp) as (z & l1 & l2 & -> & ? & ? & ?).
  exists z, l1, l2. by rewrite <- !Hconv.
Qed.
End dfs_gen_spec.

(** The two searches of the source are the two instances. *)
Lemma visit_unvisited_ext visit1 visit2 l st :
  (∀ x st, visit1 x st = visit2 x st) ->
  visit_unvisited visit1 l st = visit_unvisited visit2 l st.
Proof.
  intros Hext. revert st. induction l as [|n l IH]; intros st; simpl; [done|].
  destruct (st_visited st !! n) as [[]|]; [done| |done].
  rewrite Hext. destruct (visit2 n st) as [st' []]; [|done]. apply IH.
Qed.

Lemma dfs_gen_postorder fuel x st :
  _depth_first_search fuel x st = dfs_gen false fuel x st.
Proof.
  revert x st. induction fuel as [|fuel IH]; intros x st; simpl; [done|].
  case_decide; [|done].
  by rewrite (visit_unvisited_ext _ (dfs_gen false fuel)).
Qed.

Lemma dfs_gen_preorder fuel x st :
  _depth_first_search_transposed fuel x st = dfs_gen true fuel x st.
Proof.
  revert x st. induction fuel as [|fuel IH]; intros x st; simpl; [done|].
  case_decide; [|done].
  rewrite (visit_unvisited_ext _ (dfs_gen true fuel)) by done.
  by destruct (visit_unvisited _ _ _) as [st' [[]|]].
Qed.

(** ** Frame properties and the recursion budget *)

Lemma dfs_frame_refl st : dfs_frame st st.
Proof. by repeat split. Qed.

Lemma dfs_frame_trans st1 st2 st3 :
  dfs_frame st1 st2 -> dfs_frame st2 st3 -> dfs_frame st1 st3.
Proof.
  intros (Hl1 & Hm1 & Ha1 & Hk1) (Hl2 & Hm2 & Ha2 & Hk2).
  split; [congruence|]. split; [auto|]. split; [intros k; congruence|].
  by etrans.
Qed.

Lemma visit_unvisited_frame visit l :
  (∀ x st st' r, visit x st = (st', r) -> dfs_frame st st') ->
  ∀ st st' r, visit_unvisited visit l st = (st', r) -> dfs_frame st st'.
Proof.
  intros Hvisit. induction l as [|n l IH]; intros st st' r Hrun; simpl in *.
  - simplify_eq. apply dfs_frame_refl.
  - destruct (st_visited st !! n) as [[]|]; simplify_eq.
    + by eapply IH.
    + destruct (visit n st) as [st1 [u|e]] eqn:Hn; simplify_eq.
      * eapply dfs_frame_trans; [by eapply Hvisit|by eapply IH].
      * by eapply Hvisit.
    + apply dfs_frame_refl.
Qed.

Lemma dfs_frame_enter g (V : list bool) O O0 x :
  dfs_frame (DfsState g V O) (DfsState (touch g x) (<[x:=true]> V) O0).
Proof.
  split; [apply length_insert|]. split; [|split]; simpl.
  - unfold marked. intros y Hy. destruct (decide (x = y)) as [->|Hne].
    + rewrite list_lookup_insert_eq; [done|]. by eapply lookup_lt_Some.
    + by rewrite list_lookup_insert_ne.
  - intros k. apply lookup_key_touch.
  - apply keys_touch_subseteq.
Qed.

Lemma dfs_gen_frame preorder fuel : ∀ x st st' r,
  dfs_gen preorder fuel x st = (st', r) -> dfs_frame st st'.
Proof.
  induction fuel as [|fuel IH]; intros x [g V O] st' r Hrun; simpl in *.
  - simplify_eq. apply dfs_frame_refl.
  - case_decide; [|simplify_eq; apply dfs_frame_refl].
    destruct (visit_unvisited _ _ _) as [st1 [u|e]] eqn:Hloop; simplify_eq.
    + eapply dfs_frame_trans; [apply dfs_frame_enter|].
      eapply dfs_frame_trans;
        [by eapply (visit_unvisited_frame _ _ (IH))|].
      destruct preorder; by repeat split.
    + eapply dfs_frame_trans; [apply dfs_frame_enter|].
      by eapply (visit_unvisited_frame _ _ (IH)).
Qed.

(** A search that returns has marked its vertex. *)
Lemma dfs_gen_marks preorder fuel x st st' u :
  dfs_gen preorder fuel x st = (st', Ok u) -> marked (st_visited st') x.
Proof.
  destruct fuel as [|fuel]; destruct st as [g V O]; simpl; [done|].
  case_decide as Hx; [|done].
  destruct (visit_unvisited _ _ _) as [st1 [u'|e]] eqn:Hloop; [|done].
  intros Hrun.
  apply (visit_unvisited_frame _ _ (dfs_gen_frame preorder fuel))
    in Hloop as (_ & Hm & _).
  assert (marked (st_visited st1) x) as Hx1.
  { apply Hm. simpl. unfold marked. by rewrite list_lookup_insert_eq. }
  destruct preorder; by simplify_eq.
Qed.

Lemma visit_unvisited_marks visit l :
  (∀ x st st' r, visit x st = (st', r) -> dfs_frame st st') ->
  (∀ x st st' u, visit x st = (st', Ok u) -> marked (st_visited st') x) ->
  ∀ st st' u, visit_unvisited visit l st = (st', Ok u) ->
    ∀ n, n ∈ l -> marked (st_visited st') n.
Proof.
  intros Hframe Hmarks.
  induction l as [|m l IH]; intros st st' u Hrun n Hn; simpl in *.
  - by apply elem_of_nil in Hn.
  - destruct (st_visited st !! m) as [[]|] eqn:Hm; simplify_eq.
    + apply elem_of_cons in Hn as [->|Hn]; [|by eapply IH].
      by apply (visit_unvisited_frame _ _ Hframe) in Hrun as (_ & Hmono & _);
        apply Hmono.
    + destruct (visit m st) as [st1 [u1|e]] eqn:Hvis; simplify_eq.
      apply elem_of_cons in Hn as [->|Hn]; [|by eapply IH].
      apply (visit_unvisited_frame _ _ Hframe) in Hrun as (_ & Hmono & _).
      apply Hmono. by eapply Hmarks.
Qed.

(** The budget: a search started with at least as many calls left as
    there are unvisited vertices never exhausts it, on any graph. *)
Lemma visit_unvisited_budget visit fuel l :
  (∀ x st st' r, visit x st = (st', r) -> dfs_frame st st') ->
  (∀ x st st', st_visited st !! x = Some false ->
     unvisited (st_visited st) ≤ fuel ->
     visit x st ≠ (st', Raise RecursionError)) ->
  ∀ st st', unvisited (st_visited st) ≤ fuel ->
    visit_unvisited visit l st ≠ (st', Raise RecursionError).
Proof.
  intros Hframe Hvisit.
  induction l as [|n l IH]; intros st st' Hfuel Hrun; simpl in *; [done|].
  destruct (st_visited st !! n) as [[]|] eqn:Hn; simplify_eq.
  - by eapply IH.
  - destruct (visit n st) as [st1 [u|e]] eqn:Hvis; simplify_eq.
    + eapply (IH st1); [|done].
      apply Hframe in Hvis as (Hlen & Hmono & _).
      etrans; [|exact Hfuel]. by apply unvisited_mono.
    + by eapply Hvisit.
Qed.

Lemma dfs_gen_budget preorder fuel : ∀ x st st',
  st_visited st !! x = Some false -> unvisited (st_visited st) ≤ fuel ->
  dfs_gen preorder fuel x st ≠ (st', Raise RecursionError).
Proof.
  induction fuel as [|fuel IH]; intros x [g V O] st' Hx Hfuel Hrun; simpl in *.
  { apply unvisited_pos in Hx. lia. }
  case_decide; [|done].
  destruct (visit_unvisited _ _ _) as [st1 [u|e]] eqn:Hloop; simplify_eq.
  eapply (visit_unvisited_budget _ fuel); [apply dfs_gen_frame|apply IH| |done].
  simpl. pose proof (unvisited_mark V x Hx). lia.
Qed.

(** The only exception a search can raise is [IndexError], provided the
    budget is not exhausted. *)
Lemma visit_unvisited_error visit l :
  (∀ x st st' e, visit x st = (st', Raise e) ->
     e = IndexError ∨ e = RecursionError) ->
  ∀ st st' e, visit_unvisited visit l st = (st', Raise e) ->
    e = IndexError ∨ e = RecursionError.
Proof.
  intros Hvisit. induction l as [|n l IH]; intros st st' e Hrun; simpl in *;
    [done|].
  destruct (st_visited st !! n) as [[]|] eqn:Hn; simplify_eq.
  - by eapply IH.
  - destruct (visit n st) as [st1 [u|e1]] eqn:Hvis; simplify_eq.
    + by eapply IH.
    + by eapply Hvisit.
  - by left.
Qed.

Lemma dfs_gen_error preorder fuel : ∀ x st st' e,
  dfs_gen preorder fuel x st = (st', Raise e) ->
  e = IndexError ∨ e = RecursionError.
Proof.
  induction fuel as [|fuel IH]; intros x [g V O] st' e Hrun; simpl in *.
  - simplify_eq. by right.
  - case_decide; [|simplify_eq; by left].
    destruct (visit_unvisited _ _ _) as [st1 [u|e1]] eqn:Hloop; simplify_eq.
    by eapply (visit_unvisited_error _ _ (IH)).
Qed.

(** ** Transposition *)

Lemma adj_add_edges_to k l : ∀ acc u v,
  u ∈ adj (graph (foldl (fun acc t => add_edge acc t k) acc l)) v ↔
  u ∈ adj (graph acc) v ∨ (u = k ∧ v ∈ l).
Proof.
  induction l as [|t l IH]; intros acc u v; simpl.
  - rewrite elem_of_nil. tauto.
  - rewrite IH. simpl. rewrite adj_append_at, elem_of_cons.
    case_decide; subst.
    + rewrite elem_of_app, list_elem_of_singleton. tauto.
    + naive_solver.
Qed.

Lemma adj_transpose_keys g ks : ∀ acc u v,
  u ∈ adj (graph (foldl (fun acc k =>
                     foldl (fun acc t => add_edge acc t k) acc (adj g k))
                   acc ks)) v ↔
  u ∈ adj (graph acc) v ∨ (u ∈ ks ∧ v ∈ adj g u).
Proof.
  induction ks as [|k ks IH]; intros acc u v; simpl.
  - rewrite elem_of_nil. tauto.
  - rewrite IH, adj_add_edges_to, elem_of_cons. naive_solver.
Qed.

Lemma elem_of_adj_key g u v : v ∈ adj g u -> u ∈ keys g.
Proof.
  intros Hv. destruct (decide (u ∈ keys g)) as [|Hn]; [done|].
  apply lookup_key_None in Hn. unfold adj in Hv. rewrite Hn in Hv.
  by apply elem_of_nil in Hv.
Qed.

(** The transposed graph has exactly the reversed edges. *)
Lemma elem_of_adj_transpose self u v :
  u ∈ adj (graph (_transpose_graph self)) v ↔ v ∈ adj (graph self) u.
Proof.
  unfold _transpose_graph. rewrite adj_transpose_keys. simpl.
  unfold adj at 1. simpl. rewrite elem_of_nil.
  split; [tauto|]. intros Hv. right. split; [|done]. by eapply elem_of_adj_key.
Qed.

Lemma wpath_transpose a aT (P : nat -> Prop) x y :
  (∀ u v, u ∈ aT v ↔ v ∈ a u) -> wpath aT P x y -> wpath a P y x.
Proof.
  intros HT. induction 1 as [x Hx|x m y Hx Hm Hp IH].
  - by apply wpath_refl.
  - eapply wpath_trans; [exact IH|]. apply wpath_edge; [|done|by apply HT].
    by eapply wpath_start.
Qed.

(** ** Second pass: one component per root *)

Lemma unvisited_le_length (V : list bool) : unvisited V ≤ length V.
Proof. unfold unvisited. apply length_filter. Qed.

Lemma unvisited_replicate n : unvisited (replicate n false) = n.
Proof.
  unfold unvisited. induction n as [|n IH]; [done|].
  change (replicate (S n) false) with (false :: replicate n false).
  rewrite filter_cons_True by done. simpl. by rewrite IH.
Qed.

Lemma marked_replicate n y : ¬ marked (replicate n false) y.
Proof.
  unfold marked. intros Hy. apply lookup_replicate in Hy as [? _]. done.
Qed.

Lemma marked_lt (V : list bool) y : marked V y -> y < length V.
Proof. apply lookup_lt_Some. Qed.

Lemma elem_of_concat (x : nat) (ls : list (list nat)) :
  x ∈ concat ls ↔ ∃ c, x ∈ c ∧ c ∈ ls.
Proof.
  induction ls as [|c ls IH]; simpl.
  - rewrite elem_of_nil. split; [done|]. intros (c & _ & Hc).
    by apply elem_of_nil in Hc.
  - rewrite elem_of_app, IH. setoid_rewrite elem_of_cons. naive_solver.
Qed.

(** In a duplicate-free list, an element located before [r] lies in any
    prefix that ends just before [r]. *)
Lemma NoDup_before (A B p s : list nat) z r :
  NoDup (A ++ z :: B) -> A ++ z :: B = p ++ r :: s -> r ∈ B -> z ∈ p.
Proof.
  intros Hnd Heq Hr.
  apply list_elem_of_lookup in Hr as [j Hj].
  assert ((A ++ z :: B) !! (length A + S j) = Some r) as H1.
  { rewrite lookup_app_r by lia. by replace (length A + S j - length A) with (S j) by lia. }
  assert ((A ++ z :: B) !! length p = Some r) as H2.
  { rewrite Heq. by rewrite list_lookup_middle. }
  pose proof (NoDup_lookup _ _ _ _ Hnd H1 H2) as Hpos.
  assert ((p ++ r :: s) !! length A = Some z) as H3.
  { rewrite <- Heq. by rewrite list_lookup_middle. }
  rewrite lookup_app_l in H3 by lia.
  apply list_elem_of_lookup. eauto.
Qed.

Section second_pass.
Context (a aT : nat -> list nat) (N : nat) (D : list nat).
Hypothesis a_range : ∀ u v, v ∈ a u -> u < N ∧ v < N.
Hypothesis transposed : ∀ u v, u ∈ aT v ↔ v ∈ a u.
Hypothesis D_nodup : NoDup D.
Hypothesis D_all : ∀ y, y ∈ D ↔ y < N.
Hypothesis D_order : finish_ordered a (fun _ => False) D.

Lemma class_avoids (V : list bool) sccs r y :
  (∀ y, marked V y ↔ y ∈ concat sccs) -> classes_ok a sccs ->
  ¬ marked V r -> reaches a y r -> reaches a r y -> wpath a (marked V) y r.
Proof.
  intros HV Hcl Hr Hyr. revert Hr.
  induction Hyr as [r _|y m r _ Hm Hmr IH]; intros Hr Hry.
  - by apply wpath_refl.
  - assert (reaches a y r) as Hyr.
    { eapply wpath_step; eauto. }
    eapply wpath_step; [|done|].
    + intros Hy. apply HV in Hy. apply elem_of_concat in Hy as (c & Hyc & Hc).
      apply Hr, HV, elem_of_concat. exists c. split; [|done].
      by apply (Hcl c y r Hc Hyc).
    + apply IH; [done|]. eapply reaches_trans; [exact Hry|].
      apply wpath_edge; auto.
Qed.

(** The search of the transposed graph from the first unvisited vertex
    [r] of the popping order collects the class of [r]. *)
Lemma root_class (V : list bool) sccs done rest r y :
  reverse D = done ++ r :: rest ->
  length V = N ->
  (∀ x, x ∈ done -> marked V x) ->
  (∀ y, marked V y ↔ y ∈ concat sccs) -> classes_ok a sccs ->
  ¬ marked V r ->
  wpath aT (marked V) r y ↔ reaches a r y ∧ reaches a y r.
Proof.
  intros Hsplit Hlen Hdone HV Hcl Hr. split.
  - intros Hp. apply (wpath_transpose a aT) in Hp; [|done].
    assert (reaches a y r) as Hyr by (by eapply wpath_reaches).
    split; [|done].
    assert (y ∈ D) as HyD.
    { apply D_all. inversion Hp as [|? m ? _ Hm _]; subst.
      - apply D_all. rewrite <- elem_of_reverse, Hsplit.
        apply elem_of_app. right. by left.
      - by apply a_range in Hm as [? _]. }
    destruct (D_order y r HyD Hyr) as (z & l1 & l2 & HD & Hzy & Hyz & Hrz).
    destruct Hrz as [->|Hrz]; [done|]. exfalso.
    assert (z ∈ done) as Hz.
    { apply (NoDup_before (reverse l2) (reverse l1) done rest z r).
      - replace (reverse l2 ++ z :: reverse l1) with (reverse D).
        + by rewrite reverse_Permutation.
        + by rewrite HD, reverse_app, reverse_cons, <- app_assoc.
      - by rewrite <- Hsplit, HD, reverse_app, reverse_cons, <- app_assoc.
      - by apply elem_of_reverse. }
    apply Hdone, HV, elem_of_concat in Hz as (c & Hzc & Hc).
    apply wpath_start in Hp. apply Hp, HV, elem_of_concat.
    exists c. split; [|done]. by apply (Hcl c z y Hc Hzc).
  - intros [Hry Hyr].
    apply (wpath_transpose aT a); [by intros; rewrite transposed|].
    by eapply class_avoids.
Qed.

Lemma extract_components_spec : ∀ rest done gT (V : list bool) sccs,
  reverse D = done ++ rest ->
  (∀ k, adj gT k = aT k) -> length V = N ->
  (∀ x, x ∈ done -> marked V x) ->
  (∀ y, marked V y ↔ y ∈ concat sccs) ->
  NoDup (concat sccs) -> classes_ok a sccs ->
  ∃ sccs', extract_components N rest gT V sccs = Ok sccs' ∧
           NoDup (concat sccs') ∧ (∀ y, y ∈ concat sccs' ↔ y < N) ∧
           classes_ok a sccs'.
Proof.
  induction rest as [|r rest IH];
    intros done gT V sccs Hsplit Hadj Hlen Hdone HV Hnd Hcl; simpl.
  - exists sccs. split; [done|]. split; [done|]. split; [|done].
    intros y. rewrite <- HV. split.
    + intros Hy. apply marked_lt in Hy. lia.
    + intros Hy. apply Hdone. rewrite app_nil_r in Hsplit.
      rewrite <- Hsplit, elem_of_reverse. by apply D_all.
  - assert (r < N) as HrN.
    { apply D_all. rewrite <- elem_of_reverse, Hsplit.
      apply elem_of_app. right. by left. }
    destruct (lookup_lt_is_Some_2 V r) as [b Hb]; [lia|]. rewrite Hb.
    assert (reverse D = (done ++ [r]) ++ rest) as Hsplit'
      by (by rewrite <- app_assoc).
    destruct b.
    + apply (IH (done ++ [r])); auto.
      intros x Hx. apply elem_of_app in Hx as [Hx|Hx]; [by apply Hdone|].
      by apply list_elem_of_singleton in Hx as ->.
    + rewrite dfs_gen_preorder.
      destruct (dfs_gen_spec aT N true) with (fuel := N) (x := r)
        (st := DfsState gT V [])
        as ([gT' V' C] & Hrun & C' & Hout & Hadj' & Hlen' & HndC & HsetC & HV' & _);
        auto.
      { intros u v Huv. apply transposed in Huv. by apply a_range in Huv as []. }
      { simpl. rewrite <- Hlen. apply unvisited_le_length. }
      rewrite Hrun. simpl in *. subst C'.
      assert (¬ marked V r) as Hr by (unfold marked; congruence).
      assert (∀ y, y ∈ C ↔ reaches a r y ∧ reaches a y r) as HC.
      { intros y. rewrite HsetC. rewrite <- (root_class V sccs done rest r y)
          by done. split.
        - intros (n & Hn & Hp). by apply list_elem_of_singleton in Hn as ->.
        - intros Hp. exists r. split; [by left|done]. }
      apply (IH (done ++ [r])); auto.
      * congruence.
      * intros x Hx. apply HV'. apply elem_of_app in Hx as [Hx|Hx].
        -- left. by apply Hdone.
        -- apply list_elem_of_singleton in Hx as ->. right. apply HC.
           split; apply reaches_refl.
      * intros y. rewrite HV', concat_app, elem_of_app, HV. simpl.
        by rewrite app_nil_r.
      * rewrite concat_app. simpl. rewrite app_nil_r.
        apply NoDup_app. split; [done|]. split; [|done].
        intros y Hy HyC. apply HsetC in HyC as (n & _ & Hp).
        apply wpath_end in Hp. by apply Hp, HV.
      * intros c u v Hc Hu. apply elem_of_app in Hc as [Hc|Hc].
        -- by apply Hcl.
        -- apply list_elem_of_singleton in Hc as ->. rewrite HC.
           apply HC in Hu as [Hru Hur]. split.
           ++ intros [Hrv Hvr]. split; eapply reaches_trans; eauto.
           ++ intros [Huv Hvu]. split; eapply reaches_trans; eauto.
Qed.
End second_pass.

(** ** Kosaraju's algorithm *)

Lemma reaches_in_range a n x y :
  (∀ u v, v ∈ a u -> u < n ∧ v < n) -> reaches a x y -> x < n -> y < n.
Proof.
  intros Hrange. induction 1 as [|x m y _ Hm _ IH]; [done|].
  intros _. apply IH. by apply Hrange in Hm as [].
Qed.

(** On a graph whose edges stay within the vertex ids, the decomposition
    returns: the adjacency read by later stages has the same lists; the
    components are duplicate-free, cover exactly the ids below
    [vertices], and each is a whole class of mutually reachable
    vertices. *)
Lemma find_strongly_connected_components_spec_edges self :
  edges_in_range (vertices self) (graph self) ->
  ∃ g' sccs,
    find_strongly_connected_components self = (g', Ok sccs) ∧
    (∀ k, adj g' k = adj (graph self) k) ∧
    NoDup (concat sccs) ∧
    (∀ y, y ∈ concat sccs ↔ y < vertices self) ∧
    classes_ok (adj (graph self)) sccs.
Proof.
  intros Hrange. unfold find_strongly_connected_components.
  set (N := vertices self). set (a := adj (graph self)).
  rewrite (visit_unvisited_ext _ (dfs_gen false N))
    by (intros; apply dfs_gen_postorder).
  destruct (visit_unvisited_spec a N false (dfs_gen false N) N)
    with (l := seq 0 N) (st := DfsState (graph self) (replicate N false) [])
    as ([g1 V1 D] & Hrun & D' & Hout & Hadj1 & _ & Hnd & Hset & _ & Hfin); auto.
  { intros x st. apply dfs_gen_spec. intros u v Huv. by apply Hrange in Huv as []. }
  { simpl. apply length_replicate. }
  { apply Forall_forall. intros v Hv. apply elem_of_seq in Hv. lia. }
  { simpl. by rewrite unvisited_replicate. }
  rewrite Hrun. simpl in *. subst D'.
  assert (∀ x y, wpath a (marked (replicate N false)) x y ↔
                 wpath a (fun _ => False) x y) as Hconv.
  { intros x y. apply wpath_proper. intros v. split; [|done].
    apply marked_replicate. }
  assert (∀ y, y ∈ D ↔ y < N) as Hall.
  { intros y. rewrite Hset. split.
    - intros (n & Hn & Hp). apply elem_of_seq in Hn. apply Hconv in Hp.
      eapply reaches_in_range; eauto. lia.
    - intros Hy. exists y. split; [apply elem_of_seq; lia|].
      apply Hconv, reaches_refl. }
  assert (finish_ordered a (fun _ => False) D) as Hord.
  { intros u w Hu Hp. apply Hconv in Hp.
    destruct (Hfin eq_refl u w Hu Hp) as (z & l1 & l2 & ? & ? & ? & ?).
    exists z, l1, l2. by rewrite <- !Hconv. }
  set (gT := graph (_transpose_graph (set_graph self g1))).
  destruct (extract_components_spec a (adj gT) N D Hrange) with
    (rest := reverse D) (done := @nil nat) (gT := gT)
    (V := replicate N false) (sccs := @nil (list nat))
    as (sccs & Hrun2 & Hnd2 & Hall2 & Hcl); auto.
  { intros u v. unfold gT. rewrite elem_of_adj_transpose. simpl.
    by rewrite Hadj1. }
  { apply length_replicate. }
  { intros x Hx. by apply elem_of_nil in Hx. }
  { intros y. simpl. rewrite elem_of_nil. split; [|done]. apply marked_replicate. }
  { simpl. apply NoDup_nil_2. }
  { intros c u v Hc. by apply elem_of_nil in Hc. }
  exists g1, sccs. by rewrite Hrun2.
Qed.

Lemma wf_graph_edges self :
  wf_graph self -> edges_in_range (vertices self) (graph self).
Proof. intros Hwf u v. by apply adj_in_range. Qed.

Lemma find_strongly_connected_components_spec self :
  wf_graph self ->
  ∃ g' sccs,
    find_strongly_connected_components self = (g', Ok sccs) ∧
    (∀ k, adj g' k = adj (graph self) k) ∧
    NoDup (concat sccs) ∧
    (∀ y, y ∈ concat sccs ↔ y < vertices self) ∧
    classes_ok (adj (graph self)) sccs.
Proof.
  intros Hwf. by apply find_strongly_connected_components_spec_edges,
    wf_graph_edges.
Qed.

(** A vertex lies in one component only. *)
Lemma NoDup_concat_unique (ls : list (list nat)) i j c1 c2 v :
  NoDup (concat ls) -> ls !! i = Some c1 -> ls !! j = Some c2 ->
  v ∈ c1 -> v ∈ c2 -> i = j.
Proof.
  revert i j. induction ls as [|c ls IH]; intros i j Hnd Hi Hj H1 H2; [done|].
  simpl in Hnd. apply NoDup_app in Hnd as (_ & Hdisj & Hnd).
  assert (∀ k c', ls !! k = Some c' -> v ∈ c' -> v ∈ concat ls) as Hin.
  { intros k c' Hk Hv. apply elem_of_concat. exists c'. split; [done|].
    by eapply list_elem_of_lookup_2. }
  destruct i as [|i], j as [|j]; simpl in *; simplify_eq; [done| | |].
  - exfalso. eapply Hdisj; eauto.
  - exfalso. eapply Hdisj; eauto.
  - f_equal. by apply IH.
Qed.

(** ** The vertex-to-component map *)

Lemma lookup_scc_map_insert (scc : list nat) (idx : nat) : ∀ (m : gmap nat nat) v,
  foldl (fun m airport => <[airport := idx]> m) m scc !! v =
  if decide (v ∈ scc) then Some idx else m !! v.
Proof.
  induction scc as [|x scc IH]; intros m v; simpl.
  - destruct (decide (v ∈ [])) as [Hv|_]; [by apply elem_of_nil in Hv|done].
  - rewrite IH. rewrite (lookup_insert m x v idx).
    destruct (decide (v ∈ scc)) as [Hv|Hv].
    + rewrite decide_True by (by right). done.
    + destruct (decide (x = v)) as [->|Hne].
      * rewrite decide_True by (by left). done.
      * rewrite decide_False; [done|]. rewrite not_elem_of_cons. naive_solver.
Qed.

Lemma lookup_scc_map_fold (sccs : list (list nat)) : ∀ s (m : gmap nat nat) v i,
  foldl (fun scc_map '(idx, scc) =>
           foldl (fun scc_map airport => <[airport := idx]> scc_map) scc_map scc)
        m (zip (seq s (length sccs)) sccs) !! v = Some i ->
  m !! v = Some i ∨ ∃ c, sccs !! (i - s) = Some c ∧ s ≤ i ∧ v ∈ c.
Proof.
  induction sccs as [|c sccs IH]; intros s m v i; simpl; [by left|].
  intros Hi. apply IH in Hi as [Hi|(c' & Hc' & Hle & Hv)].
  - rewrite lookup_scc_map_insert in Hi. case_decide; [|by left].
    simplify_eq. right. exists c. by rewrite Nat.sub_diag.
  - right. exists c'. replace (i - s) with (S (i - S s)) by lia.
    split; [done|]. split; [lia|done].
Qed.

Lemma lookup_scc_map_is_Some (sccs : list (list nat)) : ∀ s (m : gmap nat nat) v,
  is_Some (m !! v) ∨ v ∈ concat sccs ->
  is_Some (foldl (fun scc_map '(idx, scc) =>
             foldl (fun scc_map airport => <[airport := idx]> scc_map) scc_map scc)
           m (zip (seq s (length sccs)) sccs) !! v).
Proof.
  induction sccs as [|c sccs IH]; intros s m v; simpl.
  - intros [|Hv]; [done|]. by apply elem_of_nil in Hv.
  - intros Hv. apply IH. rewrite lookup_scc_map_insert.
    case_decide; [by left|]. rewrite elem_of_app in Hv. tauto.
Qed.

Lemma build_scc_map_Some sccs v i :
  build_scc_map sccs !! v = Some i -> ∃ c, sccs !! i = Some c ∧ v ∈ c.
Proof.
  unfold build_scc_map. intros Hi.
  apply lookup_scc_map_fold in Hi as [Hi|(c & Hc & _ & Hv)]; [done|].
  exists c. by rewrite Nat.sub_0_r in Hc.
Qed.

Lemma build_scc_map_is_Some sccs v :
  v ∈ concat sccs -> is_Some (build_scc_map sccs !! v).
Proof. intros Hv. apply lookup_scc_map_is_Some. by right. Qed.

(** ** Condensation *)

Lemma adj_set_add_at cg x y k :
  adj (set_add_at cg x y) k =
  if decide (x = k) then
    (if decide (y ∈ adj cg x) then adj cg x else adj cg x ++ [y])
  else adj cg k.
Proof.
  unfold adj. induction cg as [|[k0 s0] cg IH]; simpl.
  - repeat (case_decide; subst; simpl in * ); try done.
  - repeat (case_decide; subst; simpl in * ); try done.
    all: rewrite IH; by repeat (case_decide; subst; simpl in * ).
Qed.

Lemma elem_of_adj_set_add_at cg x y k v :
  v ∈ adj (set_add_at cg x y) k ↔ v ∈ adj cg k ∨ (k = x ∧ v = y).
Proof.
  rewrite adj_set_add_at. repeat case_decide; subst.
  - naive_solver.
  - rewrite elem_of_app, list_elem_of_singleton. naive_solver.
  - naive_solver.
Qed.

Lemma compress_edges_sound scc_map g u : ∀ tos cg cg',
  (∀ t, t ∈ tos -> t ∈ adj g u) ->
  compress_edges scc_map u tos cg = Ok cg' ->
  (∀ x y, y ∈ adj cg x -> from_cross_edge scc_map g x y) ->
  ∀ x y, y ∈ adj cg' x -> from_cross_edge scc_map g x y.
Proof.
  induction tos as [|t tos IH]; intros cg cg' Htos Hrun Hcg; simpl in *.
  - by simplify_eq.
  - unfold scc_of in Hrun.
    destruct (scc_map !! u) as [cu|] eqn:Hu; [|done].
    destruct (scc_map !! t) as [ct|] eqn:Ht; [|done]. simpl in Hrun.
    eapply IH; [|exact Hrun|].
    + intros t' Ht'. apply Htos. by right.
    + intros x y. case_decide; [|by apply Hcg].
      rewrite elem_of_adj_set_add_at. intros [Hxy|[-> ->]]; [by apply Hcg|].
      split; [done|]. exists u, t. split; [|done]. apply Htos. by left.
Qed.

Lemma compress_keys_sound scc_map g : ∀ ks cg cg',
  compress_keys scc_map g ks cg = Ok cg' ->
  (∀ x y, y ∈ adj cg x -> from_cross_edge scc_map g x y) ->
  ∀ x y, y ∈ adj cg' x -> from_cross_edge scc_map g x y.
Proof.
  induction ks as [|k ks IH]; intros cg cg' Hrun Hcg; simpl in *.
  - by simplify_eq.
  - destruct (compress_edges scc_map k (adj g k) cg) as [cg1|] eqn:H1; [|done].
    simpl in Hrun. eapply IH; [exact Hrun|].
    eapply compress_edges_sound; [|exact H1|exact Hcg]. done.
Qed.

Lemma compress_edges_Ok scc_map u : ∀ tos cg,
  (tos ≠ [] -> is_Some (scc_map !! u)) ->
  (∀ t, t ∈ tos -> is_Some (scc_map !! t)) ->
  ∃ cg', compress_edges scc_map u tos cg = Ok cg'.
Proof.
  induction tos as [|t tos IH]; intros cg Hu Htos; simpl; [by eexists|].
  unfold scc_of. destruct Hu as [cu Hcu]; [done|].
  destruct (Htos t) as [ct Hct]; [by left|]. rewrite Hcu, Hct. simpl.
  apply IH; [by intros _; eexists|]. intros t' Ht'. apply Htos. by right.
Qed.

Lemma compress_keys_Ok scc_map g : ∀ ks cg,
  (∀ u v, v ∈ adj g u -> is_Some (scc_map !! u) ∧ is_Some (scc_map !! v)) ->
  ∃ cg', compress_keys scc_map g ks cg = Ok cg'.
Proof.
  induction ks as [|k ks IH]; intros cg Hg; simpl; [by eexists|].
  destruct (compress_edges_Ok scc_map k (adj g k) cg) as [cg1 Hcg1].
  - intros Hne. destruct (adj g k) as [|t l] eqn:E; [done|].
    apply (Hg k t). rewrite E. by left.
  - intros t Ht. by apply (Hg k t).
  - rewrite Hcg1. simpl. by apply IH.
Qed.

Section condensation.
Context (a : nat -> list nat) (g : adjacency) (sccs : list (list nat))
        (cg : adjacency).
Hypothesis g_adj : ∀ k, adj g k = a k.
Hypothesis sccs_nodup : NoDup (concat sccs).
Hypothesis sccs_classes : classes_ok a sccs.
Hypothesis cg_sound :
  ∀ x y, cg_edge cg x y -> from_cross_edge (build_scc_map sccs) g x y.

Lemma class_connected c u v : c ∈ sccs -> u ∈ c -> v ∈ c -> reaches a u v.
Proof. intros Hc Hu Hv. by apply (sccs_classes c u v Hc Hu). Qed.

Lemma cg_edge_reaches x y :
  cg_edge cg x y ->
  x ≠ y ∧ ∃ cx cy u v, sccs !! x = Some cx ∧ sccs !! y = Some cy ∧
                       u ∈ cx ∧ v ∈ cy ∧ reaches a u v.
Proof.
  intros Hxy. apply cg_sound in Hxy as (Hne & u & v & Huv & Hu & Hv).
  split; [done|].
  apply build_scc_map_Some in Hu as (cx & Hcx & Hu).
  apply build_scc_map_Some in Hv as (cy & Hcy & Hv).
  exists cx, cy, u, v. repeat split; try done.
  rewrite g_adj in Huv. apply wpath_edge; auto.
Qed.

Lemma cg_path_reaches x y :
  tc (cg_edge cg) x y ->
  ∃ cx cy u v, sccs !! x = Some cx ∧ sccs !! y = Some cy ∧
               u ∈ cx ∧ v ∈ cy ∧ reaches a u v.
Proof.
  induction 1 as [x y Hxy|x y z Hxy _ IH].
  - by apply cg_edge_reaches in Hxy as [_ ?].
  - apply cg_edge_reaches in Hxy as (_ & cx & cy & u & v & Hcx & Hcy & Hu & Hv & Huv).
    destruct IH as (cy' & cz & v' & w & Hcy' & Hcz & Hv' & Hw & Hvw).
    simplify_eq. exists cx, cz, u, w. repeat split; try done.
    eapply reaches_trans; [exact Huv|]. eapply reaches_trans; [|exact Hvw].
    eapply class_connected; eauto. by eapply list_elem_of_lookup_2.
Qed.

Lemma condensation_acyclic c : ¬ tc (cg_edge cg) c c.
Proof.
  intros Hc. inversion Hc as [? ? Hcc|x y ? Hxy Hyx]; subst.
  - apply cg_sound in Hcc as [Hne _]. done.
  - apply cg_edge_reaches in Hxy as (Hne & cx & cy & u & v & Hcx & Hcy & Hu & Hv & Huv).
    apply cg_path_reaches in Hyx as (cy' & cx' & v' & u' & Hcy' & Hcx' & Hv' & Hu' & Hvu).
    simplify_eq. apply Hne.
    eapply (NoDup_concat_unique sccs c y cx cy v); eauto.
    apply (sccs_classes cx u v); [by eapply list_elem_of_lookup_2|done|].
    split; [done|].
    eapply reaches_trans; [|eapply reaches_trans; [exact Hvu|]].
    + eapply class_connected; eauto. by eapply list_elem_of_lookup_2.
    + eapply class_connected; eauto. by eapply list_elem_of_lookup_2.
Qed.
End condensation.

Lemma build_compressed_graph_from_sccs_spec_edges self g' sccs :
  edges_in_range (vertices self) (graph self) ->
  (∀ k, adj g' k = adj (graph self) k) ->
  (∀ y, y ∈ concat sccs ↔ y < vertices self) ->
  ∃ cg, build_compressed_graph_from_sccs (set_graph self g') sccs = Ok cg ∧
        ∀ x y, cg_edge cg x y -> from_cross_edge (build_scc_map sccs) g' x y.
Proof.
  intros Hrange Hadj Hall. unfold build_compressed_graph_from_sccs. simpl.
  destruct (compress_keys_Ok (build_scc_map sccs) g' (keys g') []) as [cg Hcg].
  - intros u v Huv. rewrite Hadj in Huv.
    apply Hrange in Huv as [Hu Hv].
    split; apply build_scc_map_is_Some, Hall; done.
  - exists cg. split; [done|]. eapply compress_keys_sound; [exact Hcg|].
    intros x y Hxy. by apply elem_of_nil in Hxy.
Qed.

Lemma build_compressed_graph_from_sccs_spec self g' sccs :
  wf_graph self ->
  (∀ k, adj g' k = adj (graph self) k) ->
  (∀ y, y ∈ concat sccs ↔ y < vertices self) ->
  ∃ cg, build_compressed_graph_from_sccs (set_graph self g') sccs = Ok cg ∧
        ∀ x y, cg_edge cg x y -> from_cross_edge (build_scc_map sccs) g' x y.
Proof.
  intros Hwf. by apply build_compressed_graph_from_sccs_spec_edges,
    wf_graph_edges.
Qed.

(** ** Locating the start component *)

Lemma find_start_scc_spec self start v : ∀ sccs i0,
  airports self !! start = Some v -> v ∈ concat sccs ->
  ∃ i c, find_start_scc self start i0 sccs = Ok (i0 + i) ∧
         sccs !! i = Some c ∧ v ∈ c.
Proof.
  intros sccs i0 Hstart. revert i0.
  induction sccs as [|c sccs IH]; intros i0 Hv; simpl in *.
  - by apply elem_of_nil in Hv.
  - unfold airport_id. rewrite Hstart. simpl.
    destruct (decide (v ∈ c)) as [Hc|Hc].
    + exists 0, c. by rewrite Nat.add_0_r.
    + apply elem_of_app in Hv as [Hv|Hv]; [done|].
      destruct (IH (S i0) Hv) as (i & c' & Hrun & Hi & Hvc).
      exists (S i), c'. split; [|done]. rewrite Hrun. f_equal. lia.
Qed.

(** ** Graphs built through the interface are well formed *)




(** ** The scenarios *)

Example scenario_chain :
  (find_minimum_additional_routes chain_graph "A").2 = Ok 0.
Proof. by vm_compute. Qed.

Example scenario_chain_isolated :
  (find_minimum_additional_routes chain_isolated_graph "A").2 = Ok 1.
Proof. by vm_compute. Qed.

Example scenario_cycle :
  (find_strongly_connected_components cycle_graph).2 = Ok [[0; 1]] ∧
  (find_minimum_additional_routes cycle_graph "A").2 = Ok 0.
Proof. split; by vm_compute. Qed.

(** ** Exceptions of the decomposition *)

Lemma extract_components_error n : ∀ order gT (V : list bool) sccs e,
  length V = n ->
  extract_components n order gT V sccs = Raise e -> e = IndexError.
Proof.
  induction order as [|x order IH]; intros gT V sccs e Hlen Hrun;
    simpl in *; [done|].
  destruct (V !! x) as [[]|] eqn:Hx; simplify_eq; [by eapply IH| |done].
  rewrite dfs_gen_preorder in Hrun.
  destruct (dfs_gen true (length V) x (DfsState gT V [])) as [st1 [u|e1]] eqn:Hdfs.
  - eapply IH; [|exact Hrun]. by apply dfs_gen_frame in Hdfs as [? _].
  - simplify_eq. destruct (dfs_gen_error _ _ _ _ _ _ Hdfs) as [->| ->]; [done|].
    exfalso. eapply dfs_gen_budget; [| |exact Hdfs]; [done|].
    apply unvisited_le_length.
Qed.

(** The decomposition raises nothing but [IndexError]; in particular the
    recursion budget [self.vertices] is never exhausted. *)
Lemma find_strongly_connected_components_error self g' e :
  find_strongly_connected_components self = (g', Raise e) -> e = IndexError.
Proof.
  unfold find_strongly_connected_components.
  rewrite (visit_unvisited_ext _ (dfs_gen false (vertices self)))
    by (intros; apply dfs_gen_postorder).
  destruct (visit_unvisited _ _ _) as [st1 [u|e1]] eqn:Hloop; intros Hrun;
    simplify_eq.
  - eapply extract_components_error; [|done]. apply length_replicate.
  - destruct (visit_unvisited_error _ _ (dfs_gen_error false _) _ _ _ Hloop)
      as [->| ->]; [done|].
    exfalso.
    eapply (visit_unvisited_budget _ (vertices self));
      [apply dfs_gen_frame|apply dfs_gen_budget| |exact Hloop].
    simpl. by rewrite unvisited_replicate.
Qed.

Lemma compress_edges_error scc_map u : ∀ tos cg e,
  compress_edges scc_map u tos cg = Raise e -> ∃ v, e = KeyError (KInt v).
Proof.
  induction tos as [|t tos IH]; intros cg e Hrun; simpl in *; [done|].
  unfold scc_of in Hrun.
  destruct (scc_map !! u); simpl in *; [|simplify_eq; by eexists].
  destruct (scc_map !! t); simpl in *; [|simplify_eq; by eexists].
  by eapply IH.
Qed.

Lemma compress_keys_error scc_map g : ∀ ks cg e,
  compress_keys scc_map g ks cg = Raise e -> ∃ v, e = KeyError (KInt v).
Proof.
  induction ks as [|k ks IH]; intros cg e Hrun; simpl in *; [done|].
  destruct (compress_edges scc_map k (adj g k) cg) as [cg1|e1] eqn:H1;
    simpl in *.
  - by eapply IH.
  - simplify_eq. by eapply compress_edges_error.
Qed.

Lemma find_start_scc_known self start v : ∀ sccs i0 e,
  airports self !! start = Some v ->
  find_start_scc self start i0 sccs = Raise e -> e = StopIteration.
Proof.
  induction sccs as [|c sccs IH]; intros i0 e Hstart Hrun; simpl in *.
  - by simplify_eq.
  - unfold airport_id in Hrun. rewrite Hstart in Hrun. simpl in Hrun.
    case_decide; [done|]. by eapply IH.
Qed.

(** ** Unknown labels *)

Lemma airports_add_routes routes : ∀ self,
  airports (add_routes self routes).1 = airports self.
Proof.
  induction routes as [|[f t] routes IH]; intros self; simpl; [done|].
  unfold airport_id. destruct (airports self !! f); [|done].
  destruct (airports self !! t); [|done]. by rewrite IH.
Qed.


Lemma add_routes_known routes : ∀ self,
  (∀ f t, (f, t) ∈ routes ->
     is_Some (airports self !! f) ∧ is_Some (airports self !! t)) ->
  (add_routes self routes).2 = Ok tt.
Proof.
  induction routes as [|[f t] routes IH]; intros self Hknown; simpl; [done|].
  unfold airport_id.
  destruct (Hknown f t) as [[u Hu] [v Hv]]; [by left|]. rewrite Hu, Hv.
  apply IH. intros f' t' Hin. simpl. apply Hknown. by right.
Qed.

(** ** The decomposition: partition and mutual reachability *)

Lemma NoDup_concat_elem (ls : list (list nat)) c :
  NoDup (concat ls) -> c ∈ ls -> NoDup c.
Proof.
  induction ls as [|c' ls IH]; simpl; intros Hnd Hc.
  - by apply elem_of_nil in Hc.
  - apply NoDup_app in Hnd as (Hc' & _ & Hls).
    apply elem_of_cons in Hc as [->|Hc]; auto.
Qed.

Lemma NoDup_all_equal (c : list nat) v :
  NoDup c -> v ∈ c -> (∀ u, u ∈ c -> u = v) -> c = [v].
Proof.
  intros Hnd Hv Hall. destruct c as [|x [|y c]].
  - by apply elem_of_nil in Hv.
  - f_equal. apply Hall. by left.
  - exfalso. apply NoDup_cons in Hnd as [Hx _]. apply Hx.
    rewrite (Hall x) by (by left). rewrite (Hall y) by (right; by left).
    by left.
Qed.

(** C3: on every graph whose edges stay within the vertex ids [0,N),
    [find_strongly_connected_components] returns components whose
    concatenation is a rearrangement of [0; ...; N-1]: every vertex occurs
    in exactly one component, exactly once. *)
Theorem scc_partition self :
  wf_graph self ->
  ∃ sccs,
    (find_strongly_connected_components self).2 = Ok sccs ∧
    concat sccs ≡ₚ seq 0 (vertices self) ∧
    ∀ v, v < vertices self ->
      ∃ i c, sccs !! i = Some c ∧ v ∈ c ∧
             ∀ j c', sccs !! j = Some c' -> v ∈ c' -> j = i.
Proof.
  intros Hwf.
  destruct (find_strongly_connected_components_spec self Hwf)
    as (g' & sccs & Hrun & _ & Hnd & Hall & _).
  exists sccs. rewrite Hrun. split; [done|]. split.
  - apply NoDup_Permutation; [done|apply NoDup_seq|].
    intros y. rewrite Hall, elem_of_seq. lia.
  - intros v Hv. apply Hall, elem_of_concat in Hv as (c & Hvc & Hc).
    apply list_elem_of_lookup in Hc as [i Hi]. exists i, c.
    split; [done|]. split; [done|]. intros j c' Hj Hvc'.
    by eapply (NoDup_concat_unique sccs j i c' c v).
Qed.

Lemma scc_partition_witness :
  wf_graph sample_graph ∧
  ∃ sccs,
    (find_strongly_connected_components sample_graph).2 = Ok sccs ∧
    concat sccs ≡ₚ seq 0 (vertices sample_graph) ∧
    ∀ v, v < vertices sample_graph ->
      ∃ i c, sccs !! i = Some c ∧ v ∈ c ∧
             ∀ j c', sccs !! j = Some c' -> v ∈ c' -> j = i.
Proof.
  assert (wf_graph sample_graph) as Hwf
    by (apply (bool_decide_unpack _); vm_compute; exact I).
  split; [exact Hwf|]. exact (scc_partition sample_graph Hwf).
Defined.

(** C2: on every graph whose edges stay within [0,N), two vertices lie in
    one returned component if and only if each reaches the other along
    edges of the graph; hence for vertices of two different components one
    direction of reachability is missing; and a vertex without outgoing
    edges (in particular an isolated one) forms a singleton component. *)
Theorem scc_mutual_reachability self :
  wf_graph self ->
  ∃ sccs,
    (find_strongly_connected_components self).2 = Ok sccs ∧
    (∀ u v, u < vertices self -> v < vertices self ->
       (∃ c, c ∈ sccs ∧ u ∈ c ∧ v ∈ c) ↔
       reaches (adj (graph self)) u v ∧ reaches (adj (graph self)) v u) ∧
    (∀ i j c1 c2 u v,
       sccs !! i = Some c1 -> sccs !! j = Some c2 -> i ≠ j ->
       u ∈ c1 -> v ∈ c2 ->
       ¬ (reaches (adj (graph self)) u v ∧ reaches (adj (graph self)) v u)) ∧
    (∀ v, v < vertices self -> adj (graph self) v = [] -> [v] ∈ sccs).
Proof.
  intros Hwf.
  destruct (find_strongly_connected_components_spec self Hwf)
    as (g' & sccs & Hrun & _ & Hnd & Hall & Hcl).
  exists sccs. rewrite Hrun. split; [done|]. split; [|split].
  - intros u v Hu Hv. split.
    + intros (c & Hc & Huc & Hvc). by apply (Hcl c u v Hc Huc).
    + intros Huv. apply Hall, elem_of_concat in Hu as (c & Huc & Hc).
      exists c. split; [done|]. split; [done|]. by apply (Hcl c u v Hc Huc).
  - intros i j c1 c2 u v Hi Hj Hne Hu Hv Huv. apply Hne.
    eapply (NoDup_concat_unique sccs i j c1 c2 v); eauto.
    apply (Hcl c1 u v); [by eapply list_elem_of_lookup_2|done|done].
  - intros v Hv Hout. apply Hall, elem_of_concat in Hv as (c & Hvc & Hc).
    replace [v] with c; [done|].
    apply NoDup_all_equal; [by eapply NoDup_concat_elem|done|].
    intros u Hu. apply (Hcl c v u Hc Hvc) in Hu as [Hvu _].
    inversion Hvu as [|? m ? _ Hm _]; subst; [done|].
    rewrite Hout in Hm. by apply elem_of_nil in Hm.
Qed.

Lemma scc_mutual_reachability_witness :
  wf_graph sample_graph ∧
  ∃ sccs,
    (find_strongly_connected_components sample_graph).2 = Ok sccs ∧
    (∀ u v, u < vertices sample_graph -> v < vertices sample_graph ->
       (∃ c, c ∈ sccs ∧ u ∈ c ∧ v ∈ c) ↔
       reaches (adj (graph sample_graph)) u v ∧
       reaches (adj (graph sample_graph)) v u) ∧
    (∀ i j c1 c2 u v,
       sccs !! i = Some c1 -> sccs !! j = Some c2 -> i ≠ j ->
       u ∈ c1 -> v ∈ c2 ->
       ¬ (reaches (adj (graph sample_graph)) u v ∧
          reaches (adj (graph sample_graph)) v u)) ∧
    (∀ v, v < vertices sample_graph -> adj (graph sample_graph) v = [] ->
       [v] ∈ sccs).
Proof.
  assert (wf_graph sample_graph) as Hwf
    by (apply (bool_decide_unpack _); vm_compute; exact I).
  split; [exact Hwf|]. exact (scc_mutual_reachability sample_graph Hwf).
Defined.

(** ** The condensed graph *)

(** C4: on every graph whose edges stay within [0,N), the condensed graph
    built from the components of the graph has no directed cycle, and in
    particular no self-loop: an edge is recorded only between two
    different component indices. *)
Theorem condensed_graph_acyclic self :
  wf_graph self ->
  ∃ g' sccs cg,
    find_strongly_connected_components self = (g', Ok sccs) ∧
    build_compressed_graph_from_sccs (set_graph self g') sccs = Ok cg ∧
    (∀ c, ¬ tc (cg_edge cg) c c) ∧
    (∀ c, ¬ cg_edge cg c c).
Proof.
  intros Hwf.
  destruct (find_strongly_connected_components_spec self Hwf)
    as (g' & sccs & Hrun & Hadj & Hnd & Hall & Hcl).
  destruct (build_compressed_graph_from_sccs_spec self g' sccs Hwf Hadj Hall)
    as (cg & Hcg & Hsound).
  exists g', sccs, cg. split; [done|]. split; [done|].
  assert (∀ c, ¬ tc (cg_edge cg) c c) as Hacyclic.
  { intros c. eapply condensation_acyclic; eauto. }
  split; [done|]. intros c Hc. apply (Hacyclic c). by apply tc_once.
Qed.

Lemma condensed_graph_acyclic_witness :
  wf_graph sample_graph ∧
  ∃ g' sccs cg,
    find_strongly_connected_components sample_graph = (g', Ok sccs) ∧
    build_compressed_graph_from_sccs (set_graph sample_graph g') sccs = Ok cg ∧
    (∀ c, ¬ tc (cg_edge cg) c c) ∧
    (∀ c, ¬ cg_edge cg c c).
Proof.
  assert (wf_graph sample_graph) as Hwf
    by (apply (bool_decide_unpack _); vm_compute; exact I).
  split; [exact Hwf|]. exact (condensed_graph_acyclic sample_graph Hwf).
Defined.

(** ** The sample *)

(** C5: on the 18-airport, 20-route sample of [test.py],
    [find_minimum_additional_routes("DSM")] returns 3. *)
Theorem sample_minimum_additional_routes :
  (find_minimum_additional_routes sample_graph "DSM").2 = Ok 3.
Proof. vm_compute. reflexivity. Qed.

(** ** The start component is always found *)

(** C10: when the edges stay within [0,N) and the start label is
    registered with an id in [0,N), the scan for the component of the
    start vertex returns the index of a component containing it, so the
    whole query returns an integer and [StopIteration] is not raised. *)
Theorem start_component_found self start v :
  wf_graph self ->
  airports self !! start = Some v -> v < vertices self ->
  ∃ g' sccs i c,
    find_strongly_connected_components self = (g', Ok sccs) ∧
    find_start_scc (set_graph self g') start 0 sccs = Ok i ∧
    sccs !! i = Some c ∧ v ∈ c ∧
    ∃ n, (find_minimum_additional_routes self start).2 = Ok n.
Proof.
  intros Hwf Hstart Hv.
  destruct (find_strongly_connected_components_spec self Hwf)
    as (g' & sccs & Hrun & Hadj & Hnd & Hall & Hcl).
  destruct (build_compressed_graph_from_sccs_spec self g' sccs Hwf Hadj Hall)
    as (cg & Hcg & _).
  destruct (find_start_scc_spec (set_graph self g') start v sccs 0)
    as (i & c & Hi & Hc & Hvc); [done|by apply Hall|].
  exists g', sccs, i, c. repeat split; try done.
  unfold find_minimum_additional_routes. rewrite Hrun. simpl.
  rewrite Hcg. simpl. rewrite Hi. simpl. by eexists.
Qed.

Lemma start_component_found_witness :
  wf_graph sample_graph ∧
  airports sample_graph !! "DSM" = Some 0 ∧ 0 < vertices sample_graph ∧
  ∃ g' sccs i c,
    find_strongly_connected_components sample_graph = (g', Ok sccs) ∧
    find_start_scc (set_graph sample_graph g') "DSM" 0 sccs = Ok i ∧
    sccs !! i = Some c ∧ 0 ∈ c ∧
    ∃ n, (find_minimum_additional_routes sample_graph "DSM").2 = Ok n.
Proof.
  assert (wf_graph sample_graph) as Hwf
    by (apply (bool_decide_unpack _); vm_compute; exact I).
  assert (airports sample_graph !! "DSM" = Some 0) as Hstart
    by (vm_compute; reflexivity).
  assert (0 < vertices sample_graph) as Hlt by (vm_compute; lia).
  split; [exact Hwf|]. split; [exact Hstart|]. split; [exact Hlt|].
  exact (start_component_found sample_graph "DSM" 0 Hwf Hstart Hlt).
Defined.

(** ** What a search appends *)

Lemma visit_unvisited_out visit l :
  (∀ x st st' r, visit x st = (st', r) -> dfs_frame st st') ->
  (∀ x st st' r, visit x st = (st', r) ->
     ∃ D, st_out st' = st_out st ++ D ∧
          ∀ y, y ∈ D -> marked (st_visited st') y) ->
  ∀ st st' r, visit_unvisited visit l st = (st', r) ->
    ∃ D, st_out st' = st_out st ++ D ∧
         ∀ y, y ∈ D -> marked (st_visited st') y.
Proof.
  intros Hframe Hvisit.
  induction l as [|n l IH]; intros st st' r Hrun; simpl in *.
  - simplify_eq. exists []. rewrite app_nil_r. split; [done|].
    intros y Hy. by apply elem_of_nil in Hy.
  - destruct (st_visited st !! n) as [[]|] eqn:Hn; simplify_eq.
    + by eapply IH.
    + destruct (visit n st) as [st1 [u|e]] eqn:Hvis; simplify_eq.
      * destruct (Hvisit _ _ _ _ Hvis) as (D1 & Hout1 & Hm1).
        destruct (IH _ _ _ Hrun) as (D2 & Hout2 & Hm2).
        apply (visit_unvisited_frame _ _ Hframe) in Hrun as (_ & Hmono & _).
        exists (D1 ++ D2). rewrite Hout2, Hout1, app_assoc. split; [done|].
        intros y Hy. apply elem_of_app in Hy as [Hy|Hy]; auto.
      * by eapply Hvisit.
    + exists []. rewrite app_nil_r. split; [done|].
      intros y Hy. by apply elem_of_nil in Hy.
Qed.

Lemma dfs_gen_out preorder fuel : ∀ x st st' r,
  dfs_gen preorder fuel x st = (st', r) ->
  ∃ D, st_out st' = st_out st ++ D ∧
       ∀ y, y ∈ D -> marked (st_visited st') y.
Proof.
  induction fuel as [|fuel IH]; intros x [g V O] st' r Hrun; simpl in *.
  { simplify_eq. exists []. rewrite app_nil_r. split; [done|].
    intros y Hy. by apply elem_of_nil in Hy. }
  case_decide as Hx.
  2:{ simplify_eq. exists []. rewrite app_nil_r. split; [done|].
      intros y Hy. by apply elem_of_nil in Hy. }
  destruct (visit_unvisited _ _ _) as [st1 r1] eqn:Hloop.
  destruct (visit_unvisited_out _ _ (dfs_gen_frame preorder fuel) IH
              _ _ _ Hloop) as (D1 & Hout1 & Hm1).
  apply (visit_unvisited_frame _ _ (dfs_gen_frame preorder fuel))
    in Hloop as (_ & Hmono & _).
  assert (marked (st_visited st1) x) as Hx1.
  { apply Hmono. simpl. unfold marked. by rewrite list_lookup_insert_eq. }
  simpl in Hout1. destruct preorder.
  - exists (x :: D1).
    assert (st' = st1) as -> by (destruct r1; by simplify_eq).
    rewrite Hout1, <- app_assoc. split; [done|].
    intros y Hy. apply elem_of_cons in Hy as [->|Hy]; auto.
  - destruct r1 as [u|e]; simplify_eq.
    + exists (D1 ++ [x]). simpl. rewrite Hout1, <- app_assoc. split; [done|].
      intros y Hy. apply elem_of_app in Hy as [Hy|Hy]; auto.
      by apply list_elem_of_singleton in Hy as ->.
    + by exists D1.
Qed.

(** ** What a returning decomposition has read *)

Lemma extract_components_range n : ∀ order gT (V : list bool) sccs sccs',
  length V = n ->
  (∀ y, y ∈ concat sccs -> y < n) ->
  extract_components n order gT V sccs = Ok sccs' ->
  ∀ y, y ∈ concat sccs' -> y < n.
Proof.
  induction order as [|x order IH]; intros gT V sccs sccs' Hlen Hsccs Hrun;
    simpl in *; [by simplify_eq|].
  destruct (V !! x) as [[]|] eqn:Hx; simplify_eq; [by eapply IH|].
  rewrite dfs_gen_preorder in Hrun.
  destruct (dfs_gen true (length V) x (DfsState gT V [])) as [st1 [u|e]] eqn:Hdfs;
    [|done].
  destruct (dfs_gen_out _ _ _ _ _ _ Hdfs) as (D & Hout & Hm).
  pose proof (dfs_gen_frame _ _ _ _ _ _ Hdfs) as (Hlen1 & _).
  eapply IH; [exact Hlen1| |exact Hrun].
  intros y. rewrite concat_app, elem_of_app. simpl. rewrite app_nil_r.
  intros [Hy|Hy]; [by apply Hsccs|].
  simpl in *. rewrite Hout in Hy. apply Hm, marked_lt in Hy. lia.
Qed.

(** The components hold vertex ids only, on any graph. *)
Lemma find_strongly_connected_components_range self g' sccs :
  find_strongly_connected_components self = (g', Ok sccs) ->
  ∀ y, y ∈ concat sccs -> y < vertices self.
Proof.
  unfold find_strongly_connected_components.
  destruct (visit_unvisited _ _ _) as [st1 [u|e]]; [|done].
  intros Hrun. simplify_eq.
  eapply extract_components_range; [apply length_replicate| |done].
  intros y Hy. by apply elem_of_nil in Hy.
Qed.

Lemma find_strongly_connected_components_frame self g' r :
  find_strongly_connected_components self = (g', r) ->
  (∀ k, adj g' k = adj (graph self) k) ∧ keys (graph self) ⊆ keys g'.
Proof.
  unfold find_strongly_connected_components.
  rewrite (visit_unvisited_ext _ (dfs_gen false (vertices self)))
    by (intros; apply dfs_gen_postorder).
  destruct (visit_unvisited _ _ _) as [st1 r1] eqn:Hloop.
  apply (visit_unvisited_frame _ _ (dfs_gen_frame false (vertices self)))
    in Hloop as (_ & _ & Hadj & Hkeys).
  destruct r1; intros; by simplify_eq.
Qed.

Lemma compress_edges_Ok_inv scc_map u : ∀ tos cg cg',
  compress_edges scc_map u tos cg = Ok cg' ->
  ∀ t, t ∈ tos -> is_Some (scc_map !! u) ∧ is_Some (scc_map !! t).
Proof.
  induction tos as [|t0 tos IH]; intros cg cg' Hrun t Ht; simpl in *.
  - by apply elem_of_nil in Ht.
  - unfold scc_of in Hrun.
    destruct (scc_map !! u) as [cu|] eqn:Hu; [|done].
    destruct (scc_map !! t0) as [ct|] eqn:Ht0; [|done]. simpl in Hrun.
    apply elem_of_cons in Ht as [->|Ht].
    + rewrite Ht0. by split.
    + destruct (IH _ _ Hrun t Ht) as [_ ?]. by split.
Qed.

Lemma compress_keys_Ok_inv scc_map g : ∀ ks cg cg',
  compress_keys scc_map g ks cg = Ok cg' ->
  ∀ k t, k ∈ ks -> t ∈ adj g k ->
    is_Some (scc_map !! k) ∧ is_Some (scc_map !! t).
Proof.
  induction ks as [|k0 ks IH]; intros cg cg' Hrun k t Hk Ht; simpl in *.
  - by apply elem_of_nil in Hk.
  - destruct (compress_edges scc_map k0 (adj g k0) cg) as [cg1|] eqn:H1;
      [|done].
    simpl in Hrun. apply elem_of_cons in Hk as [->|Hk].
    + by eapply compress_edges_Ok_inv.
    + by eapply IH.
Qed.

(** ** The recursion limit *)

Lemma visit_unvisited_deeper visit visit' l :
  (∀ x st st' r, visit x st = (st', r) -> r ≠ Raise RecursionError ->
     visit' x st = (st', r)) ->
  ∀ st st' r, visit_unvisited visit l st = (st', r) ->
    r ≠ Raise RecursionError -> visit_unvisited visit' l st = (st', r).
Proof.
  intros Hvisit. induction l as [|n l IH]; intros st st' r Hrun Hr; simpl in *;
    [done|].
  destruct (st_visited st !! n) as [[]|] eqn:Hn; [by apply IH| |done].
  destruct (visit n st) as [st1 [u|e]] eqn:Hvis.
  - rewrite (Hvisit _ _ _ _ Hvis) by done. by apply IH.
  - simplify_eq. by rewrite (Hvisit _ _ _ _ Hvis).
Qed.

(** A search that does not run out of nested calls runs in the same way
    when more of them are allowed. *)
Lemma dfs_gen_deeper preorder fuel : ∀ fuel' x st st' r,
  fuel ≤ fuel' -> dfs_gen preorder fuel x st = (st', r) ->
  r ≠ Raise RecursionError -> dfs_gen preorder fuel' x st = (st', r).
Proof.
  induction fuel as [|fuel IH]; intros fuel' x [g V O] st' r Hle Hrun Hr.
  { simpl in Hrun. by simplify_eq. }
  destruct fuel' as [|fuel']; [lia|]. simpl in *.
  case_decide; [|done].
  destruct (visit_unvisited (dfs_gen preorder fuel) _ _) as [st1 r1] eqn:Hloop.
  assert (r1 ≠ Raise RecursionError) as Hr1.
  { destruct r1 as [u|e]; [done|]. by simplify_eq. }
  rewrite (visit_unvisited_deeper _ (dfs_gen preorder fuel') _
             (fun x st st' r => IH fuel' x st st' r ltac:(lia)) _ _ _ Hloop Hr1).
  done.
Qed.

Lemma extract_components_deeper fuel fuel' : fuel ≤ fuel' ->
  ∀ order gT (V : list bool) sccs r,
    extract_components fuel order gT V sccs = r ->
    r ≠ Raise RecursionError ->
    extract_components fuel' order gT V sccs = r.
Proof.
  intros Hle.
  induction order as [|x order IH]; intros gT V sccs r Hrun Hr; simpl in *;
    [done|].
  destruct (V !! x) as [[]|] eqn:Hx; [by apply IH| |done].
  rewrite dfs_gen_preorder in *.
  destruct (dfs_gen true fuel x _) as [st1 [u|e]] eqn:Hdfs.
  - rewrite (dfs_gen_deeper _ _ _ _ _ _ _ Hle Hdfs) by done. by apply IH.
  - subst r. rewrite (dfs_gen_deeper _ _ _ _ _ _ _ Hle Hdfs); [done|].
    intros [= ->]. done.
Qed.

Lemma find_strongly_connected_components_within_deeper depth depth' self g' r :
  depth ≤ depth' ->
  find_strongly_connected_components_within depth self = (g', r) ->
  r ≠ Raise RecursionError ->
  find_strongly_connected_components_within depth' self = (g', r).
Proof.
  intros Hle. unfold find_strongly_connected_components_within.
  rewrite (visit_unvisited_ext (_depth_first_search depth) (dfs_gen false depth)),
    (visit_unvisited_ext (_depth_first_search depth') (dfs_gen false depth'))
    by (intros; apply dfs_gen_postorder).
  destruct (visit_unvisited (dfs_gen false depth) _ _) as [st1 r1] eqn:Hloop.
  intros Hrun Hr.
  assert (r1 ≠ Raise RecursionError) as Hr1.
  { destruct r1 as [u|e]; [done|]. simplify_eq. intros [= ->]. done. }
  rewrite (visit_unvisited_deeper _ (dfs_gen false depth') _
             (fun x st st' r => dfs_gen_deeper false depth depth' x st st' r Hle)
             _ _ _ Hloop Hr1).
  destruct r1 as [u|e]; [|done].
  simplify_eq. f_equal. by eapply extract_components_deeper.
Qed.

(** With [self.vertices] nested calls allowed the limit plays no part. *)
Lemma find_strongly_connected_components_within_enough depth self :
  vertices self ≤ depth ->
  find_strongly_connected_components_within depth self =
  find_strongly_connected_components self.
Proof.
  intros Hle.
  destruct (find_strongly_connected_components self) as [g' r] eqn:Hrun.
  apply (find_strongly_connected_components_within_deeper (vertices self));
    [done|done|].
  intros ->. by apply find_strongly_connected_components_error in Hrun.
Qed.


(** Whatever the limit, a decomposition that returns returns what the
    one with [self.vertices] nested calls returns. *)
Lemma find_strongly_connected_components_within_Ok depth self g' sccs :
  find_strongly_connected_components_within depth self = (g', Ok sccs) ->
  find_strongly_connected_components self = (g', Ok sccs).
Proof.
  intros Hrun. destruct (decide (depth ≤ vertices self)) as [Hle|Hgt].
  - by apply (find_strongly_connected_components_within_deeper
                depth (vertices self)) in Hrun.
  - rewrite <- Hrun. symmetry.
    apply find_strongly_connected_components_within_enough. lia.
Qed.


Lemma extract_components_within_error depth : ∀ order gT (V : list bool) sccs e,
  extract_components depth order gT V sccs = Raise e ->
  e = IndexError ∨ e = RecursionError.
Proof.
  induction order as [|x order IH]; intros gT V sccs e Hrun; simpl in *; [done|].
  destruct (V !! x) as [[]|] eqn:Hx; simplify_eq; [by eapply IH| |by left].
  rewrite dfs_gen_preorder in Hrun.
  destruct (dfs_gen true depth x (DfsState gT V [])) as [st1 [u|e1]] eqn:Hdfs.
  - by eapply IH.
  - simplify_eq. by eapply dfs_gen_error.
Qed.

(** Under any limit the decomposition raises nothing but [IndexError] and
    [RecursionError], the latter only when fewer than [self.vertices]
    nested calls are allowed. *)
Lemma find_strongly_connected_components_within_error depth self g' e :
  find_strongly_connected_components_within depth self = (g', Raise e) ->
  (e = IndexError ∨ e = RecursionError) ∧
  (e = RecursionError -> depth < vertices self).
Proof.
  intros Hrun. split.
  - revert Hrun. unfold find_strongly_connected_components_within.
    rewrite (visit_unvisited_ext _ (dfs_gen false depth))
      by (intros; apply dfs_gen_postorder).
    destruct (visit_unvisited _ _ _) as [st1 [u|e1]] eqn:Hloop; intros Hrun;
      simplify_eq.
    + by eapply extract_components_within_error.
    + by eapply (visit_unvisited_error _ _ (dfs_gen_error false _)).
  - intros ->. destruct (decide (depth < vertices self)) as [|Hge]; [done|].
    rewrite find_strongly_connected_components_within_enough in Hrun by lia.
    by apply find_strongly_connected_components_error in Hrun.
Qed.

Lemma find_strongly_connected_components_within_no_vertices depth self :
  vertices self = 0 ->
  find_strongly_connected_components_within depth self = (graph self, Ok []).
Proof.
  intros H0. unfold find_strongly_connected_components_within. by rewrite H0.
Qed.

(** A decomposition and a condensation that both return have met vertex
    ids only. *)
Lemma condensation_Ok_edges_in_range self g' sccs cg :
  find_strongly_connected_components self = (g', Ok sccs) ->
  build_compressed_graph_from_sccs (set_graph self g') sccs = Ok cg ->
  edges_in_range (vertices self) (graph self).
Proof.
  intros Hrun Hcg.
  pose proof (find_strongly_connected_components_range _ _ _ Hrun) as Hsccs.
  pose proof (find_strongly_connected_components_frame _ _ _ Hrun)
    as [Hadj Hkeys].
  intros u w Hw.
  unfold build_compressed_graph_from_sccs in Hcg. simpl in Hcg.
  destruct (compress_keys_Ok_inv _ _ _ _ _ Hcg u w) as [[cu Hu] [cw Hcw]].
  { apply Hkeys. by eapply elem_of_adj_key. }
  { by rewrite Hadj. }
  apply build_scc_map_Some in Hu as (c1 & Hc1 & Hu).
  apply build_scc_map_Some in Hcw as (c2 & Hc2 & Hcw).
  split; apply Hsccs, elem_of_concat.
  - exists c1. split; [done|]. by eapply list_elem_of_lookup_2.
  - exists c2. split; [done|]. by eapply list_elem_of_lookup_2.
Qed.





(** ** The in-degree count *)

Lemma count_fold (P : nat -> Prop) `{∀ x, Decision (P x)} (l : list nat) : ∀ n0,
  foldl (fun n x => if decide (P x) then S n else n) n0 l =
  n0 + length (filter P l).
Proof.
  induction l as [|x l IH]; intros n0; simpl; [lia|].
  rewrite IH, filter_cons. case_decide; simpl; lia.
Qed.

(** What the code counts: the indices below the number of keys of the
    condensed dictionary, that is, below the number of components that
    have an outgoing cross edge. *)
Lemma calculate_routes_needed_keys compressed_graph start_scc :
  calculate_routes_needed compressed_graph start_scc =
  orphan_components (length (keys compressed_graph)) compressed_graph start_scc.
Proof. unfold calculate_routes_needed, orphan_components. by rewrite count_fold. Qed.

(** C1 (failing input): two airports and no route.  The components are
    [[1]; [0]], the condensed dictionary is empty, the start component
    is 1, and the query returns 0; the count over both component indices
    is 1 (component 0, airport "B", has in-degree zero and is not the
    start component). *)
Theorem two_airports_undercounted :
  (find_strongly_connected_components two_airports).2 = Ok [[1]; [0]] ∧
  build_compressed_graph_from_sccs
    (set_graph two_airports (find_strongly_connected_components two_airports).1)
    [[1]; [0]] = Ok [] ∧
  find_start_scc two_airports "A" 0 [[1]; [0]] = Ok 1 ∧
  calculate_routes_needed [] 1 = 0 ∧
  (find_minimum_additional_routes two_airports "A").2 = Ok 0 ∧
  orphan_components 2 [] 1 = 1.
Proof. repeat split; by vm_compute. Qed.

(** ** Repeated queries *)

Section stable.
Context (preorder : bool).

Lemma visit_unvisited_replays visit l :
  (∀ x st st' r, visit x st = (st', r) -> dfs_frame st st') ->
  replays visit ->
  ∀ st st' r, visit_unvisited visit l st = (st', r) ->
    ∀ h, (∀ k, adj h k = adj (st_graph st) k) ->
         keys (st_graph st') ⊆ keys h ->
         visit_unvisited visit l (with_graph st h) = (with_graph st' h, r).
Proof.
  intros Hframe Hvisit.
  induction l as [|n l IH]; intros st st' r Hrun h Hadj Hkeys; simpl in *.
  - by simplify_eq.
  - destruct (st_visited st !! n) as [[]|] eqn:Hn; simplify_eq.
    + by apply IH.
    + destruct (visit n st) as [st1 [u|e]] eqn:Hvis; simplify_eq.
      * pose proof (Hframe _ _ _ _ Hvis) as (_ & _ & Hadj1 & _).
        pose proof (visit_unvisited_frame _ _ Hframe _ _ _ Hrun)
          as (_ & _ & _ & Hkeys1).
        rewrite (Hvisit _ _ _ _ Hvis h) by (done || by etrans).
        apply (IH st1); [done| |done]. intros k. by rewrite Hadj, Hadj1.
      * by rewrite (Hvisit _ _ _ _ Hvis h).
    + done.
Qed.

Lemma dfs_gen_replays fuel : replays (dfs_gen preorder fuel).
Proof.
  induction fuel as [|fuel IH]; intros x [g V O] st' r Hrun h Hadj Hkeys;
    simpl in *.
  - by simplify_eq.
  - case_decide; [|by simplify_eq].
    destruct (visit_unvisited _ _ _) as [st1 r1] eqn:Hloop.
    pose proof (visit_unvisited_frame _ _ (dfs_gen_frame preorder fuel)
                  _ _ _ Hloop) as (_ & _ & _ & Hkeys1). simpl in Hkeys1.
    assert (keys (st_graph st1) ⊆ keys h) as Hsub.
    { destruct r1; [destruct preorder|]; by simplify_eq. }
    pose proof (visit_unvisited_replays _ _ (dfs_gen_frame preorder fuel) IH
                  _ _ _ Hloop h) as Hrep.
    unfold with_graph in Hrep. simpl in Hrep.
    rewrite (touch_key h x) by (apply Hsub, Hkeys1, elem_of_keys_touch).
    rewrite Hadj, Hrep; [|intros k; by rewrite lookup_key_touch|done].
    destruct r1; [destruct preorder|]; by simplify_eq.
Qed.
End stable.

(** After the decomposition has run once, running it again on the same
    object yields the same result and leaves the object as it is. *)
Lemma find_strongly_connected_components_again self g' r :
  find_strongly_connected_components self = (g', r) ->
  find_strongly_connected_components (set_graph self g') = (g', r).
Proof.
  intros Hrun. unfold find_strongly_connected_components in *. simpl.
  rewrite (visit_unvisited_ext _ (dfs_gen false (vertices self))) in Hrun
    by (intros; apply dfs_gen_postorder).
  rewrite (visit_unvisited_ext _ (dfs_gen false (vertices self)))
    by (intros; apply dfs_gen_postorder).
  destruct (visit_unvisited _ _ (DfsState (graph self) _ _))
    as [st1 r1] eqn:Hloop.
  assert (g' = st_graph st1) as -> by (destruct r1; by simplify_eq).
  pose proof (visit_unvisited_replays _ _
                (dfs_gen_frame false (vertices self))
                (dfs_gen_replays false (vertices self)) _ _ _ Hloop
                (st_graph st1)) as Hagain.
  pose proof (visit_unvisited_frame _ _ (dfs_gen_frame false (vertices self))
                _ _ _ Hloop) as (_ & _ & Hadj & _).
  unfold with_graph in Hagain. simpl in Hagain.
  rewrite Hagain by done. simpl. by destruct r1.
Qed.

(** C9: a query leaves the graph object in a state from which the same
    query returns the same outcome and leaves the same state; hence every
    repetition of the query returns the integer returned the first time,
    although the first search inserts empty adjacency entries. *)
Theorem repeated_queries_agree self start n :
  find_minimum_additional_routes
    (find_minimum_additional_routes self start).1 start =
  find_minimum_additional_routes self start ∧
  (find_minimum_additional_routes
     (Nat.iter n (fun s => (find_minimum_additional_routes s start).1) self)
     start).2 =
  (find_minimum_additional_routes self start).2.
Proof.
  assert (∀ s, find_minimum_additional_routes
                 (find_minimum_additional_routes s start).1 start =
               find_minimum_additional_routes s start) as Hagain.
  { intros s. unfold find_minimum_additional_routes.
    destruct (find_strongly_connected_components s) as [g' r] eqn:Hrun.
    simpl. rewrite (find_strongly_connected_components_again s g' r Hrun).
    done. }
  split; [apply Hagain|].
  induction n as [|n IH]; simpl; [done|].
  rewrite Hagain. apply IH.
Qed.

(** ** Repeated neighbours *)

Lemma filter_ext_in (P Q : nat -> Prop) `{!∀ x, Decision (P x)}
    `{!∀ x, Decision (Q x)} (l : list nat) :
  (∀ x, x ∈ l -> P x ↔ Q x) -> filter P l = filter Q l.
Proof.
  induction l as [|x l IH]; intros Hext; [done|].
  rewrite !filter_cons. rewrite IH by (intros y Hy; apply Hext; by right).
  pose proof (Hext x ltac:(by left)). repeat case_decide; naive_solver.
Qed.

Lemma filter_all (P : nat -> Prop) `{!∀ x, Decision (P x)} (l : list nat) :
  (∀ x, x ∈ l -> P x) -> filter P l = l.
Proof.
  induction l as [|x l IH]; intros Hall; [done|].
  rewrite filter_cons_True by (apply Hall; by left).
  f_equal. apply IH. intros y Hy. apply Hall. by right.
Qed.

Lemma elem_of_dedup l x : x ∈ dedup l ↔ x ∈ l.
Proof.
  induction l as [|y l IH]; simpl; [done|].
  rewrite !elem_of_cons, list_elem_of_filter, IH.
  destruct (decide (x = y)); naive_solver.
Qed.

Lemma dedup_filter (P : nat -> Prop) `{!∀ x, Decision (P x)} l :
  dedup (filter P l) = filter P (dedup l).
Proof.
  induction l as [|x l IH]; simpl; [done|].
  rewrite !filter_cons. case_decide as HP; simpl.
  - rewrite IH. f_equal. rewrite !list_filter_filter.
    apply list_filter_iff. naive_solver.
  - rewrite IH. rewrite list_filter_filter. apply filter_ext_in.
    intros y _. split; [|naive_solver]. intros Hy. split; [done|].
    by intros ->.
Qed.

Lemma dedup_app l1 l2 :
  dedup (l1 ++ l2) = dedup l1 ++ filter (fun y => y ∉ l1) (dedup l2).
Proof.
  induction l1 as [|x l1 IH]; simpl.
  - rewrite filter_all; [done|]. intros y _. apply not_elem_of_nil.
  - f_equal. rewrite IH, filter_app. f_equal.
    rewrite list_filter_filter. apply list_filter_iff.
    intros y. rewrite not_elem_of_cons. tauto.
Qed.

(** Lists with the same first occurrences have the same elements. *)
Lemma dedup_eq_elem_of l1 l2 x : dedup l1 = dedup l2 -> x ∈ l1 ↔ x ∈ l2.
Proof.
  intros Heq. by rewrite <- (elem_of_dedup l1), <- (elem_of_dedup l2), Heq.
Qed.

Lemma dedup_app_proper l1 l1' l2 l2' :
  dedup l1 = dedup l1' -> dedup l2 = dedup l2' ->
  dedup (l1 ++ l2) = dedup (l1' ++ l2').
Proof.
  intros H1 H2. rewrite !dedup_app, H1, H2. f_equal.
  apply list_filter_iff. intros y. by rewrite (dedup_eq_elem_of l1 l1').
Qed.

(** Appending a neighbour that is already listed changes nothing. *)
Lemma dedup_snoc_elem l v : v ∈ l -> dedup (l ++ [v]) = dedup l.
Proof.
  intros Hv. rewrite dedup_app. simpl. rewrite filter_cons_False by tauto.
  by rewrite app_nil_r.
Qed.

Lemma same_edges_refl g : same_edges g g.
Proof. done. Qed.

Lemma keys_append_at g k v :
  keys (append_at g k v) = if decide (k ∈ keys g) then keys g else keys g ++ [k].
Proof.
  unfold keys. induction g as [|[k0 l0] g IH].
  - rewrite decide_False by apply not_elem_of_nil. done.
  - cbn [append_at]. destruct (decide (k0 = k)) as [->|Hne].
    + rewrite decide_True by (rewrite fmap_cons; by left). done.
    + rewrite !fmap_cons, IH. cbn [fst]. destruct (decide (k ∈ g.*1)) as [Hk|Hk].
      * rewrite decide_True by (by right). done.
      * rewrite decide_False; [done|]. rewrite not_elem_of_cons. naive_solver.
Qed.

(** Adding an edge a second time. *)
Lemma same_edges_append_at g u v :
  v ∈ adj g u -> same_edges g (append_at g u v).
Proof.
  intros Hv. split.
  - rewrite keys_append_at, decide_True; [done|]. by eapply elem_of_adj_key.
  - intros k. rewrite adj_append_at. case_decide; subst; [|done].
    by rewrite dedup_snoc_elem.
Qed.

Lemma keys_touch g k :
  keys (touch g k) = if decide (k ∈ keys g) then keys g else keys g ++ [k].
Proof.
  unfold touch. destruct (lookup_key g k) eqn:E.
  - rewrite decide_True; [done|].
    destruct (decide (k ∈ keys g)) as [|Hn]; [done|].
    apply lookup_key_None in Hn. congruence.
  - apply lookup_key_None in E. rewrite decide_False by done.
    unfold keys. by rewrite fmap_app.
Qed.

Lemma same_edges_touch g h k :
  same_edges g h -> same_edges (touch g k) (touch h k).
Proof.
  intros [Hkeys Hadj]. split.
  - by rewrite !keys_touch, Hkeys.
  - intros k'. by rewrite !lookup_key_touch.
Qed.

(** ** Searches over dictionaries with repeated neighbours *)

(** Sources that are already marked can be dropped from a loop. *)
Lemma visit_unvisited_filter visit (Q : nat -> Prop) `{!∀ x, Decision (Q x)} l :
  (∀ x st st' r, visit x st = (st', r) -> dfs_frame st st') ->
  ∀ st, (∀ n, n ∈ l -> ¬ Q n -> marked (st_visited st) n) ->
    visit_unvisited visit (filter Q l) st = visit_unvisited visit l st.
Proof.
  intros Hframe. induction l as [|n l IH]; intros st HQ; [done|].
  rewrite filter_cons.
  assert (∀ st', dfs_frame st st' ->
            ∀ m, m ∈ l -> ¬ Q m -> marked (st_visited st') m) as Hnext.
  { intros st' (_ & Hmono & _) m Hm HQm. apply Hmono, HQ; [by right|done]. }
  case_decide as HQn; simpl.
  - destruct (st_visited st !! n) as [[]|] eqn:Hn; [|  |done].
    + apply IH, Hnext, dfs_frame_refl.
    + destruct (visit n st) as [st1 [u|e]] eqn:Hvis; [|done].
      apply IH, Hnext. by eapply Hframe.
  - rewrite (HQ n) by (by left || done). apply IH, Hnext, dfs_frame_refl.
Qed.

(** Repeated sources can be dropped from a loop. *)
Lemma visit_unvisited_dedup visit l :
  (∀ x st st' r, visit x st = (st', r) -> dfs_frame st st') ->
  (∀ x st st' u, visit x st = (st', Ok u) -> marked (st_visited st') x) ->
  ∀ st, visit_unvisited visit (dedup l) st = visit_unvisited visit l st.
Proof.
  intros Hframe Hmarks. induction l as [|n l IH]; intros st; simpl; [done|].
  destruct (st_visited st !! n) as [[]|] eqn:Hn; [| |done].
  - rewrite visit_unvisited_filter; [apply IH|done|].
    intros m _ Hm. by apply dec_stable in Hm as ->.
  - destruct (visit n st) as [st1 [u|e]] eqn:Hvis; [|done].
    rewrite visit_unvisited_filter; [apply IH|done|].
    intros m _ Hm. apply dec_stable in Hm as ->. by eapply Hmarks.
Qed.

Lemma visit_unvisited_simulates visit l :
  simulates visit ->
  ∀ st st' r, visit_unvisited visit l st = (st', r) ->
    ∀ h, same_edges (st_graph st) h ->
      ∃ h', visit_unvisited visit l (with_graph st h) = (with_graph st' h', r) ∧
            same_edges (st_graph st') h'.
Proof.
  intros Hvisit. induction l as [|n l IH]; intros st st' r Hrun h Hh;
    simpl in *.
  - simplify_eq. by exists h.
  - destruct (st_visited st !! n) as [[]|] eqn:Hn; simplify_eq.
    + by apply IH.
    + destruct (visit n st) as [st1 [u|e]] eqn:Hvis; simplify_eq.
      * destruct (Hvisit _ _ _ _ Hvis h Hh) as (h1 & Hvis1 & Hh1).
        rewrite Hvis1. by apply (IH st1).
      * destruct (Hvisit _ _ _ _ Hvis h Hh) as (h1 & Hvis1 & Hh1).
        rewrite Hvis1. by exists h1.
    + by exists h.
Qed.

Lemma dfs_gen_simulates preorder fuel : simulates (dfs_gen preorder fuel).
Proof.
  induction fuel as [|fuel IH]; intros x [g V O] st' r Hrun h Hh; simpl in *.
  - simplify_eq. by exists h.
  - case_decide; [|simplify_eq; by exists h].
    rewrite <- (visit_unvisited_dedup _ (adj g x)) in Hrun
      by (apply dfs_gen_frame || apply dfs_gen_marks).
    rewrite <- (visit_unvisited_dedup _ (adj h x))
      by (apply dfs_gen_frame || apply dfs_gen_marks).
    destruct Hh as [Hkeys Hadj]. rewrite <- Hadj.
    destruct (visit_unvisited _ _ _) as [st1 r1] eqn:Hloop.
    destruct (visit_unvisited_simulates _ _ IH _ _ _ Hloop (touch h x))
      as (h1 & Hloop1 & Hh1); [by apply same_edges_touch|].
    unfold with_graph in Hloop1. simpl in Hloop1. rewrite Hloop1.
    destruct r1 as [u|e]; [destruct preorder|]; simplify_eq; by exists h1.
Qed.

(** ** Transposition up to repeated neighbours *)

Lemma graph_add_edges_to k l : ∀ acc,
  graph (foldl (fun acc t => add_edge acc t k) acc l) =
  reversed_into (graph acc) ((fun t => (k, t)) <$> l).
Proof.
  unfold reversed_into. induction l as [|t l IH]; intros acc; simpl; [done|].
  by rewrite IH.
Qed.

Lemma reversed_into_app acc e1 e2 :
  reversed_into acc (e1 ++ e2) = reversed_into (reversed_into acc e1) e2.
Proof. apply foldl_app. Qed.

Lemma graph_transpose_keys g ks : ∀ acc,
  graph (foldl (fun acc k =>
                  foldl (fun acc t => add_edge acc t k) acc (adj g k))
               acc ks) =
  reversed_into (graph acc) (ks ≫= fun k => (fun t => (k, t)) <$> adj g k).
Proof.
  induction ks as [|k ks IH]; intros acc; [done|].
  cbn [foldl]. rewrite IH, graph_add_edges_to, bind_cons.
  by rewrite reversed_into_app.
Qed.

Lemma graph_transpose self :
  graph (_transpose_graph self) = reversed_into [] (edge_list (graph self)).
Proof. unfold _transpose_graph. by rewrite graph_transpose_keys. Qed.

Lemma keys_reversed_into edges : ∀ acc,
  keys (reversed_into acc edges) =
  keys acc ++ filter (fun t => t ∉ keys acc) (dedup (edges.*2)).
Proof.
  unfold reversed_into.
  induction edges as [|[k t] edges IH]; intros acc; simpl.
  - by rewrite app_nil_r.
  - rewrite IH, keys_append_at, filter_cons.
    destruct (decide (t ∈ keys acc)) as [Ht|Ht].
    + rewrite decide_False by tauto. f_equal.
      rewrite list_filter_filter. apply list_filter_iff.
      intros y. split; [|tauto]. intros Hy. split; [done|]. by intros ->.
    + rewrite decide_True by done. rewrite <- app_assoc. f_equal. simpl.
      f_equal. rewrite list_filter_filter. apply list_filter_iff.
      intros y. rewrite elem_of_app, list_elem_of_singleton. tauto.
Qed.

Lemma adj_reversed_into edges t : ∀ acc,
  adj (reversed_into acc edges) t =
  adj acc t ++ (filter (fun e => e.2 = t) edges).*1.
Proof.
  unfold reversed_into.
  induction edges as [|[k t'] edges IH]; intros acc; simpl.
  - by rewrite app_nil_r.
  - rewrite IH, adj_append_at, filter_cons. simpl.
    destruct (decide (t' = t)) as [->|Hne]; [|done].
    by rewrite <- app_assoc.
Qed.

Lemma dedup_const_fmap (k : nat) (l : list nat) :
  dedup ((fun _ => k) <$> l) = if l is [] then [] else [k].
Proof.
  induction l as [|x l IH]; [done|]. rewrite fmap_cons. cbn [dedup].
  rewrite IH. destruct l; [done|].
  by rewrite filter_cons_False by (intros Hk; by apply Hk).
Qed.

Lemma edge_targets g ks :
  (ks ≫= fun k => (fun t => (k, t)) <$> adj g k).*2 = ks ≫= adj g.
Proof.
  induction ks as [|k ks IH]; [done|].
  rewrite !bind_cons, fmap_app, IH. f_equal.
  rewrite <- list_fmap_compose. apply list_fmap_id.
Qed.

Lemma edge_sources g ks t :
  (filter (fun e => e.2 = t)
          (ks ≫= fun k => (fun t => (k, t)) <$> adj g k)).*1 =
  ks ≫= fun k => (fun _ => k) <$> filter (fun t' => t' = t) (adj g k).
Proof.
  induction ks as [|k ks IH]; [done|].
  rewrite !bind_cons, filter_app, fmap_app, IH. f_equal.
  induction (adj g k) as [|x l IHl]; [done|].
  rewrite fmap_cons, !filter_cons. cbn [snd].
  case_decide; rewrite ?fmap_cons; cbn [fst]; by rewrite IHl.
Qed.

Lemma same_edges_targets g h ks :
  (∀ k, dedup (adj g k) = dedup (adj h k)) ->
  dedup (ks ≫= adj g) = dedup (ks ≫= adj h).
Proof.
  intros Hadj. induction ks as [|k ks IH]; [done|].
  rewrite !bind_cons. by apply dedup_app_proper.
Qed.

Lemma same_edges_sources g h ks t :
  (∀ k, dedup (adj g k) = dedup (adj h k)) ->
  dedup (ks ≫= fun k => (fun _ => k) <$> filter (fun t' => t' = t) (adj g k)) =
  dedup (ks ≫= fun k => (fun _ => k) <$> filter (fun t' => t' = t) (adj h k)).
Proof.
  intros Hadj. induction ks as [|k ks IH]; [done|].
  rewrite !bind_cons. apply dedup_app_proper; [|done].
  rewrite !dedup_const_fmap.
  assert (t ∈ adj g k ↔ t ∈ adj h k) as Hiff by (by apply dedup_eq_elem_of).
  destruct (filter _ (adj g k)) as [|x l] eqn:Eg;
    destruct (filter _ (adj h k)) as [|y l'] eqn:Eh; try done.
  - assert (y ∈ filter (fun t' => t' = t) (adj h k)) as Hy
      by (rewrite Eh; by left).
    apply list_elem_of_filter in Hy as [-> Hy]. apply Hiff in Hy.
    assert (t ∈ filter (fun t' => t' = t) (adj g k)) as Ht
      by (by apply list_elem_of_filter).
    rewrite Eg in Ht. by apply elem_of_nil in Ht.
  - assert (x ∈ filter (fun t' => t' = t) (adj g k)) as Hx
      by (rewrite Eg; by left).
    apply list_elem_of_filter in Hx as [-> Hx]. apply Hiff in Hx.
    assert (t ∈ filter (fun t' => t' = t) (adj h k)) as Ht
      by (by apply list_elem_of_filter).
    rewrite Eh in Ht. by apply elem_of_nil in Ht.
Qed.

(** Transposing dictionaries that differ by repeated neighbours gives
    dictionaries that differ by repeated neighbours. *)
Lemma same_edges_transpose self h :
  same_edges (graph self) h ->
  same_edges (graph (_transpose_graph self))
             (graph (_transpose_graph (set_graph self h))).
Proof.
  intros [Hkeys Hadj]. rewrite !graph_transpose. simpl.
  unfold edge_list. rewrite <- Hkeys. split.
  - rewrite !keys_reversed_into, !edge_targets.
    by rewrite (same_edges_targets _ h).
  - intros t. rewrite !adj_reversed_into, !edge_sources.
    unfold adj at 1 3. simpl.
    by rewrite (same_edges_sources _ h).
Qed.

(** ** Duplicate edges do not change the answer *)

Lemma extract_components_same_edges n : ∀ order gT hT (V : list bool) sccs,
  same_edges gT hT ->
  extract_components n order hT V sccs = extract_components n order gT V sccs.
Proof.
  induction order as [|x order IH]; intros gT hT V sccs Hsame; simpl; [done|].
  destruct (V !! x) as [[]|]; [by apply IH| |done].
  rewrite !dfs_gen_preorder.
  destruct (dfs_gen true n x (DfsState gT V [])) as [st1 r1] eqn:Hdfs.
  destruct (dfs_gen_simulates true n _ _ _ _ Hdfs hT Hsame)
    as (h1 & Hdfs1 & Hsame1).
  unfold with_graph in Hdfs1. simpl in Hdfs1. rewrite Hdfs1.
  destruct r1; [|done]. simpl. by apply IH.
Qed.

Lemma find_strongly_connected_components_same_edges self h :
  same_edges (graph self) h ->
  ∃ h', find_strongly_connected_components (set_graph self h) =
          (h', (find_strongly_connected_components self).2) ∧
        same_edges (find_strongly_connected_components self).1 h'.
Proof.
  intros Hsame. unfold find_strongly_connected_components. simpl.
  rewrite !(visit_unvisited_ext (_depth_first_search (vertices self))
              (dfs_gen false (vertices self)))
    by (intros; apply dfs_gen_postorder).
  destruct (visit_unvisited _ _ (DfsState (graph self) _ _))
    as [st1 r1] eqn:Hloop.
  destruct (visit_unvisited_simulates _ _
              (dfs_gen_simulates false (vertices self)) _ _ _ Hloop h Hsame)
    as (h1 & Hloop1 & Hsame1).
  unfold with_graph in Hloop1. simpl in Hloop1. rewrite Hloop1.
  exists h1. destruct r1; simpl; [|done]. split; [|done]. f_equal.
  apply extract_components_same_edges.
  by apply (same_edges_transpose (set_graph self (st_graph st1)) h1).
Qed.

Lemma set_add_at_idem cg x y : y ∈ adj cg x -> set_add_at cg x y = cg.
Proof.
  unfold adj. induction cg as [|[k s] cg IH]; simpl.
  - intros Hy. by apply elem_of_nil in Hy.
  - destruct (decide (k = x)) as [->|Hne]; simpl.
    + intros Hy. by rewrite decide_True.
    + intros Hy. by rewrite IH.
Qed.

(** A target whose condensed edge is already recorded can be dropped. *)
Lemma compress_edges_filter scc_map u t cu ct : ∀ tos cg,
  scc_map !! u = Some cu -> scc_map !! t = Some ct ->
  cu = ct ∨ ct ∈ adj cg cu ->
  compress_edges scc_map u (filter (fun t' => t' ≠ t) tos) cg =
  compress_edges scc_map u tos cg.
Proof.
  intros tos cg Hu Ht. revert cg.
  induction tos as [|t' tos IH]; intros cg Hin; [done|].
  rewrite filter_cons. destruct (decide (t' ≠ t)) as [Hne|Heq].
  - simpl. unfold scc_of. rewrite Hu. simpl.
    destruct (scc_map !! t') as [ct'|]; [|done]. simpl. apply IH.
    destruct Hin as [->|Hin]; [by left|]. right.
    case_decide; [|done]. apply elem_of_adj_set_add_at. by left.
  - apply dec_stable in Heq as ->. simpl. unfold scc_of. rewrite Hu, Ht.
    simpl. rewrite IH by done. destruct Hin as [->|Hin].
    + by rewrite decide_False by (intros Hne; by apply Hne).
    + case_decide; [|done]. by rewrite set_add_at_idem.
Qed.

Lemma compress_edges_dedup scc_map u : ∀ tos cg,
  compress_edges scc_map u (dedup tos) cg = compress_edges scc_map u tos cg.
Proof.
  induction tos as [|t tos IH]; intros cg; [done|].
  cbn [dedup compress_edges]. unfold scc_of.
  destruct (scc_map !! u) as [cu|] eqn:Hu; [|done]. simpl.
  destruct (scc_map !! t) as [ct|] eqn:Ht; [|done]. simpl.
  rewrite (compress_edges_filter scc_map u t cu ct); [apply IH|done|done|].
  destruct (decide (cu = ct)) as [->|Hne]; [by left|]. right.
  rewrite decide_True by done. apply elem_of_adj_set_add_at. by right.
Qed.

Lemma compress_keys_same_edges scc_map g h : ∀ ks cg,
  (∀ k, dedup (adj g k) = dedup (adj h k)) ->
  compress_keys scc_map h ks cg = compress_keys scc_map g ks cg.
Proof.
  intros ks cg Hadj. revert cg.
  induction ks as [|k ks IH]; intros cg; simpl; [done|].
  rewrite <- (compress_edges_dedup scc_map k (adj h k)).
  rewrite <- (compress_edges_dedup scc_map k (adj g k)). rewrite Hadj.
  destruct (compress_edges _ _ _ _); simpl; [apply IH|done].
Qed.

Lemma find_start_scc_airports self1 self2 start : ∀ sccs i0,
  airports self1 = airports self2 ->
  find_start_scc self1 start i0 sccs = find_start_scc self2 start i0 sccs.
Proof.
  induction sccs as [|c sccs IH]; intros i0 Heq; simpl; [done|].
  unfold airport_id. rewrite Heq.
  destruct (airports self2 !! start); simpl; [|done].
  case_decide; [done|]. by apply IH.
Qed.

Lemma find_minimum_additional_routes_same_edges self h start :
  same_edges (graph self) h ->
  (find_minimum_additional_routes (set_graph self h) start).2 =
  (find_minimum_additional_routes self start).2.
Proof.
  intros Hsame. unfold find_minimum_additional_routes.
  destruct (find_strongly_connected_components_same_edges self h Hsame)
    as (h' & Hrun & [Hkeys Hadj]).
  rewrite Hrun.
  destruct (find_strongly_connected_components self) as [g' r]. simpl in *.
  destruct r as [sccs|e]; simpl; [|done].
  unfold build_compressed_graph_from_sccs. simpl. rewrite <- Hkeys.
  rewrite (compress_keys_same_edges _ g' h') by done.
  destruct (compress_keys _ _ _ _); simpl; [|done].
  by rewrite (find_start_scc_airports _ (set_graph self g')).
Qed.

(** C7: on every graph, inserting again an edge [(u, v)] that is already
    present leaves the outcome of [find_minimum_additional_routes]
    unchanged, for every start label: the same integer, or the same
    exception where the first graph already raised one. *)
Theorem duplicate_edge_same_answer self u v start :
  v ∈ adj (graph self) u ->
  (find_minimum_additional_routes (add_edge self u v) start).2 =
  (find_minimum_additional_routes self start).2.
Proof.
  intros Hv. unfold add_edge.
  apply find_minimum_additional_routes_same_edges.
  by apply same_edges_append_at.
Qed.

Lemma duplicate_edge_same_answer_witness :
  1 ∈ adj (graph sample_graph) 0 ∧
  (find_minimum_additional_routes (add_edge sample_graph 0 1) "DSM").2 =
  (find_minimum_additional_routes sample_graph "DSM").2.
Proof.
  assert (1 ∈ adj (graph sample_graph) 0) as Hv
    by (vm_compute; apply list_elem_of_here).
  split; [exact Hv|].
  exact (duplicate_edge_same_answer sample_graph 0 1 "DSM" Hv).
Defined.

(** ** Transposition over the store *)

Section heap.
Import Heap.

Lemma heap_dict_find_Some (entries : list (nat * nat)) k a :
  dict_find entries k = Some a -> (k, a) ∈ entries.
Proof.
  induction entries as [|[k' a'] entries IH]; simpl; [done|].
  case_decide; subst.
  - intros [= ->]. by left.
  - intros Hf. right. by apply IH.
Qed.

Lemma heap_dict_find_None (entries : list (nat * nat)) k :
  dict_find entries k = None -> k ∉ entries.*1.
Proof.
  induction entries as [|[k' a'] entries IH]; simpl.
  - intros _. apply not_elem_of_nil.
  - case_decide; subst; [done|]. intros Hf. rewrite not_elem_of_cons.
    split; [done|]. by apply IH.
Qed.

Lemma heap_dict_find_lookup (entries : list (nat * nat)) i k a :
  entries !! i = Some (k, a) -> is_Some (dict_find entries k).
Proof.
  revert i. induction entries as [|[k' a'] entries IH]; intros [|i] Hi;
    simpl in *; simplify_eq.
  - by rewrite decide_True.
  - case_decide; [done|]. by eapply IH.
Qed.

Lemma heap_items_at_insert_ne (s : store) a a' o :
  a ≠ a' -> items_at (<[a := o]> s) a' = items_at s a'.
Proof. intros Hne. unfold items_at. by rewrite list_lookup_insert_ne. Qed.

Lemma heap_items_at_insert (s : store) a l :
  a < length s -> items_at (<[a := OList l]> s) a = l.
Proof. intros Hlt. unfold items_at. by rewrite list_lookup_insert_eq. Qed.

Lemma heap_items_at_app (s : store) a o :
  a < length s -> items_at (s ++ [o]) a = items_at s a.
Proof. intros Hlt. unfold items_at. by rewrite lookup_app_l. Qed.

Lemma heap_contents_unchanged (s s' : store) (entries : list (nat * nat)) :
  (∀ e, e ∈ entries -> items_at s' e.2 = items_at s e.2) ->
  (fun e => (e.1, items_at s' e.2)) <$> entries =
  (fun e => (e.1, items_at s e.2)) <$> entries.
Proof.
  intros Hsame. apply list_fmap_ext. intros i e Hi.
  rewrite Hsame; [done|]. by eapply list_elem_of_lookup_2.
Qed.

(** Appending to the list of an existing key of a dictionary whose keys
    do not share lists. *)
Lemma heap_contents_append (s : store) (entries : list (nat * nat)) t a l k :
  dict_find entries t = Some a -> NoDup (entries.*2) ->
  s !! a = Some (OList l) ->
  (fun e => (e.1, items_at (<[a := OList (l ++ [k])]> s) e.2)) <$> entries =
  append_at ((fun e => (e.1, items_at s e.2)) <$> entries) t k.
Proof.
  intros Hfind Hnd Ha.
  assert (a < length s) as Hlt by (by eapply lookup_lt_Some).
  induction entries as [|[k0 a0] entries IH]; simpl in *; [done|].
  apply NoDup_cons in Hnd as [Ha0 Hnd].
  destruct (decide (k0 = t)) as [->|Hne].
  - simplify_eq. rewrite heap_items_at_insert by done. f_equal.
    + f_equal. unfold items_at. by rewrite Ha.
    + apply heap_contents_unchanged. intros e He.
      apply heap_items_at_insert_ne. intros ->. apply Ha0.
      apply list_elem_of_fmap. by exists e.
  - assert (a ≠ a0) as Hne'.
    { intros ->. apply Ha0. apply heap_dict_find_Some in Hfind.
      apply list_elem_of_fmap. by exists (t, a0). }
    rewrite heap_items_at_insert_ne by done. f_equal. by apply IH.
Qed.

Lemma heap_append_at_fresh (g : adjacency) k v :
  k ∉ keys g -> append_at g k v = g ++ [(k, [v])].
Proof.
  unfold keys. induction g as [|[k0 l0] g IH]; simpl; [done|].
  rewrite not_elem_of_cons. intros [Hne Hk].
  rewrite decide_False by done. f_equal. by apply IH.
Qed.

Lemma heap_owned_lt base (s : store) d :
  owned base s d -> base ≤ d ∧ d < length s.
Proof.
  intros (Hd & entries & Hs & _). split; [done|]. by eapply lookup_lt_Some.
Qed.

Lemma heap_contents_keys (s : store) d : keys (contents s d) = (entries_at s d).*1.
Proof. unfold keys, contents. by rewrite <- list_fmap_compose. Qed.

(** [add_edge] on an owned dictionary: it succeeds, leaves every object
    below [base] alone, keeps the dictionary owned, and acts on its
    contents as appending does. *)
Lemma heap_add_edge_spec base (s : store) (gT : Graph) t k :
  owned base s (graph gT) ->
  ∃ s1, add_edge s gT t k = Some s1 ∧
        preserved base s s1 ∧ owned base s1 (graph gT) ∧
        contents s1 (graph gT) = append_at (contents s (graph gT)) t k.
Proof.
  intros Hown. pose proof (heap_owned_lt _ _ _ Hown) as [Hbase Hd].
  destruct Hown as (_ & entries & Hs & Hnd & Hall).
  unfold add_edge, getitem. rewrite Hs.
  destruct (dict_find entries t) as [a|] eqn:Hfind; simpl.
  - pose proof (heap_dict_find_Some _ _ _ Hfind) as Hin.
    rewrite Forall_forall in Hall.
    destruct (Hall _ Hin) as (Ha & l & Hl). simpl in *.
    unfold append. rewrite Hl.
    assert (a ≠ graph gT) as Hne by (intros ->; congruence).
    eexists. split; [done|]. split; [|split].
    + intros a' Ha'. apply list_lookup_insert_ne. lia.
    + split; [done|]. exists entries.
      rewrite list_lookup_insert_ne by done. split; [done|]. split; [done|].
      apply Forall_forall. intros e He. destruct (Hall e He) as (? & l' & Hl').
      split; [done|]. destruct (decide (a = e.2)) as [<-|Hne'].
      * rewrite list_lookup_insert_eq by (by eapply lookup_lt_Some). by eexists.
      * rewrite list_lookup_insert_ne by done. by eexists.
    + unfold contents, entries_at.
      rewrite list_lookup_insert_ne by done. rewrite Hs.
      by apply heap_contents_append.
  - unfold append.
    rewrite list_lookup_insert_ne by lia.
    rewrite lookup_app_r by lia. rewrite Nat.sub_diag. simpl.
    eexists. split; [done|].
    assert (∀ e, e ∈ entries -> e.2 < length s ∧ e.2 ≠ graph gT) as Hlt.
    { intros e He. rewrite Forall_forall in Hall.
      destruct (Hall e He) as (_ & l & Hl).
      split; [by eapply lookup_lt_Some|]. intros Heq. congruence. }
    split; [|split].
    + intros a' Ha'. rewrite !list_lookup_insert_ne by lia.
      apply lookup_app_l. lia.
    + split; [done|]. exists (entries ++ [(t, length s)]).
      rewrite list_lookup_insert_ne by lia.
      rewrite list_lookup_insert_eq by (rewrite length_app; simpl; lia).
      split; [done|]. split.
      * rewrite fmap_app. apply NoDup_app. split; [done|].
        split; [|apply NoDup_singleton].
        intros a' Ha' Heq. apply list_elem_of_singleton in Heq. simpl in Heq.
        apply list_elem_of_fmap in Ha' as (e & -> & He).
        apply Hlt in He as [He _]. lia.
      * apply Forall_app. split.
        -- apply Forall_forall. intros e He. rewrite Forall_forall in Hall.
           destruct (Hall e He) as (? & l & Hl). split; [done|]. exists l.
           destruct (Hlt e He) as [? ?].
           rewrite !list_lookup_insert_ne by (done || lia).
           rewrite lookup_app_l by lia. done.
        -- apply Forall_singleton. simpl. split; [lia|]. eexists.
           apply list_lookup_insert_eq.
           rewrite length_insert, length_app. simpl. lia.
    + unfold contents, entries_at.
      rewrite list_lookup_insert_ne by lia.
      rewrite list_lookup_insert_eq by (rewrite length_app; simpl; lia).
      rewrite Hs, fmap_app. simpl.
      rewrite heap_items_at_insert
        by (rewrite length_insert, length_app; simpl; lia).
      rewrite heap_append_at_fresh.
      * f_equal. apply heap_contents_unchanged. intros e He.
        destruct (Hlt e He) as [? ?].
        rewrite !heap_items_at_insert_ne by (done || lia).
        by apply heap_items_at_app.
      * unfold keys. rewrite <- list_fmap_compose.
        by apply heap_dict_find_None.
Qed.
Lemma heap_preserved_trans base (s1 s2 s3 : store) :
  preserved base s1 s2 -> preserved base s2 s3 -> preserved base s1 s3.
Proof. intros H12 H23 a Ha. by rewrite H23, H12. Qed.

Lemma heap_drop_cons (l : list nat) i x rest :
  drop i l = x :: rest -> l !! i = Some x ∧ drop (S i) l = rest.
Proof.
  intros Hdrop.
  assert (l !! i = Some x) as Hi.
  { rewrite <- (Nat.add_0_r i), <- lookup_drop, Hdrop. done. }
  split; [done|]. rewrite (drop_S _ _ _ Hi) in Hdrop. by simplify_eq.
Qed.

Lemma heap_drop_cons_entries (l : list (nat * nat)) i x rest :
  drop i l = x :: rest -> l !! i = Some x ∧ drop (S i) l = rest.
Proof.
  intros Hdrop.
  assert (l !! i = Some x) as Hi.
  { rewrite <- (Nat.add_0_r i), <- lookup_drop, Hdrop. done. }
  split; [done|]. rewrite (drop_S _ _ _ Hi) in Hdrop. by simplify_eq.
Qed.

(** The inner loop over a list that lies below [base]. *)
Lemma heap_for_list_spec base (gT : Graph) k a (l : list nat) :
  ∀ rest fuel i (s : store),
  a < base -> s !! a = Some (OList l) -> drop i l = rest ->
  length rest < fuel -> owned base s (graph gT) ->
  ∃ s1, for_list fuel (fun t s => add_edge s gT t k) a i s = Some s1 ∧
        preserved base s s1 ∧ owned base s1 (graph gT) ∧
        contents s1 (graph gT) =
          reversed_into (contents s (graph gT)) ((fun t => (k, t)) <$> rest).
Proof.
  induction rest as [|x rest IH]; intros fuel i s Ha Hl Hdrop Hfuel Hown;
    (destruct fuel as [|fuel]; [simpl in Hfuel; lia|]); simpl.
  - rewrite Hl. rewrite lookup_ge_None_2.
    + exists s. split; [done|]. split; [by intros ? ?|]. by split.
    + pose proof (length_drop l i) as Hlen. rewrite Hdrop in Hlen.
      simpl in Hlen. lia.
  - rewrite Hl. apply heap_drop_cons in Hdrop as [Hi Hdrop]. rewrite Hi.
    simpl.
    destruct (heap_add_edge_spec base s gT x k Hown)
      as (s1 & Hadd & Hpres & Hown1 & Hcont).
    rewrite Hadd. simpl.
    destruct (IH fuel (S i) s1) as (s2 & Hrun & Hpres2 & Hown2 & Hcont2);
      auto.
    { by rewrite Hpres. }
    { simpl in Hfuel. lia. }
    exists s2. split; [done|]. split; [by eapply heap_preserved_trans|].
    split; [done|]. rewrite Hcont2, Hcont. done.
Qed.

Lemma heap_adj_contents (s : store) d (entries : list (nat * nat)) k a :
  s !! d = Some (ODict entries) -> dict_find entries k = Some a ->
  adj (contents s d) k = items_at s a.
Proof.
  intros Hd. unfold contents, entries_at, adj. rewrite Hd. clear Hd.
  induction entries as [|[k0 a0] entries IH]; simpl; [done|].
  case_decide; subst; [by intros [= ->]|]. apply IH.
Qed.

(** The outer loop over the keys of a dictionary that lies, with its
    lists, below [base]; [s0] is the store when the loop started. *)
Lemma heap_for_keys_spec base fuel (self gT : Graph) (s0 : store)
    (entries : list (nat * nat)) :
  graph self < base -> s0 !! graph self = Some (ODict entries) ->
  (∀ e, e ∈ entries ->
     e.2 < base ∧ ∃ l, s0 !! e.2 = Some (OList l) ∧ length l < fuel) ->
  ∀ rest fuel' i (s : store),
  preserved base s0 s -> drop i entries = rest ->
  length rest < fuel' -> owned base s (graph gT) ->
  ∃ s1, for_keys fuel'
          (fun from_airport s =>
             '(a, s1) ← getitem s (graph self) from_airport;
             for_list fuel
               (fun to_airport s => add_edge s gT to_airport from_airport)
               a 0 s1)
          (graph self) (length entries) i s = Some s1 ∧
        preserved base s0 s1 ∧ owned base s1 (graph gT) ∧
        contents s1 (graph gT) =
          reversed_into (contents s (graph gT))
            (rest.*1 ≫= fun k =>
               (fun t => (k, t)) <$> adj (contents s0 (graph self)) k).
Proof.
  intros Hd Hs0 Hlists.
  induction rest as [|[k ai] rest IH]; intros fuel' i s Hpres Hdrop Hfuel Hown;
    (destruct fuel' as [|fuel']; [simpl in Hfuel; lia|]); simpl.
  - rewrite (Hpres _ Hd), Hs0. rewrite decide_True by done.
    rewrite lookup_ge_None_2.
    + exists s. split; [done|]. split; [done|]. by split.
    + pose proof (length_drop entries i) as Hlen. rewrite Hdrop in Hlen.
      simpl in Hlen. lia.
  - rewrite (Hpres _ Hd), Hs0. rewrite decide_True by done.
    apply heap_drop_cons_entries in Hdrop as [Hi Hdrop]. rewrite Hi.
    destruct (heap_dict_find_lookup _ _ _ _ Hi) as [a Hfind].
    assert (getitem s (graph self) k = Some (a, s)) as ->.
    { unfold getitem. by rewrite (Hpres _ Hd), Hs0, Hfind. }
    simpl.
    destruct (Hlists (k, a)) as (Ha & l & Hl & Hlen);
      [by apply heap_dict_find_Some|]. simpl in *.
    destruct (heap_for_list_spec base gT k a l l fuel 0 s)
      as (s1 & Hrun1 & Hpres1 & Hown1 & Hcont1); auto.
    { by rewrite (Hpres _ Ha). }
    rewrite Hrun1. simpl.
    destruct (IH fuel' (S i) s1) as (s2 & Hrun2 & Hpres2 & Hown2 & Hcont2);
      auto.
    { by eapply heap_preserved_trans. }
    { lia. }
    exists s2. split; [done|]. split; [done|]. split; [done|].
    rewrite reversed_into_app, Hcont2, Hcont1.
    rewrite (heap_adj_contents s0 _ entries k a) by done.
    unfold items_at. by rewrite Hl.
Qed.
End heap.

(** ** Multiplicity of the transposed edges *)

Lemma count_of_app x l1 l2 : count_of x (l1 ++ l2) = count_of x l1 + count_of x l2.
Proof. unfold count_of. by rewrite filter_app, length_app. Qed.

Lemma count_of_const_fmap u k (l : list nat) :
  count_of u ((fun _ => k) <$> l) = if decide (k = u) then length l else 0.
Proof.
  unfold count_of. destruct (decide (k = u)) as [->|Hne].
  - rewrite filter_all; [apply length_fmap|].
    intros y Hy. by apply list_elem_of_fmap in Hy as (? & -> & _).
  - induction l as [|x l IH]; [done|].
    by rewrite fmap_cons, filter_cons_False.
Qed.

Lemma count_of_sources g ks u v :
  NoDup ks ->
  count_of u (ks ≫= fun k => (fun _ => k) <$> filter (fun t => t = v) (adj g k)) =
  if decide (u ∈ ks) then count_of v (adj g u) else 0.
Proof.
  induction ks as [|k ks IH]; intros Hnd.
  - by rewrite decide_False by apply not_elem_of_nil.
  - apply NoDup_cons in Hnd as [Hk Hnd].
    rewrite bind_cons, count_of_app, count_of_const_fmap, IH by done.
    destruct (decide (k = u)) as [->|Hne].
    + rewrite decide_False by done. rewrite decide_True by (by left).
      unfold count_of. lia.
    + destruct (decide (u ∈ ks)) as [Hu|Hu].
      * by rewrite decide_True by (by right).
      * rewrite decide_False; [done|]. rewrite not_elem_of_cons. naive_solver.
Qed.

(** Over a dictionary (unique keys), the transposed graph lists [u] under
    [v] as many times as the graph lists [v] under [u]. *)
Lemma count_adj_transpose self u v :
  NoDup (keys (graph self)) ->
  count_of u (adj (graph (_transpose_graph self)) v) =
  count_of v (adj (graph self) u).
Proof.
  intros Hnd. rewrite graph_transpose, adj_reversed_into. unfold edge_list.
  rewrite edge_sources. unfold adj at 1. simpl.
  rewrite count_of_sources by done. case_decide as Hu; [done|].
  apply lookup_key_None in Hu. unfold adj. by rewrite Hu.
Qed.

(** C8: over the store, [_transpose_graph] returns (given enough loop
    steps) a graph object whose adjacency dictionary and lists are all
    newly allocated and not shared, every object that existed before
    the call is unchanged (so the original adjacency list is not
    mutated), and the new dictionary holds [u] under [v] exactly as many
    times as the original holds [v] under [u]; its contents are those
    computed by the store-free model of the transposition. *)
Theorem transpose_graph_independent fuel (s : list Heap.obj)
    (self : Heap.Graph) :
  Heap.valid s self -> Heap.enough fuel s self ->
  ∃ gT s',
    Heap._transpose_graph fuel s self = Some (gT, s') ∧
    (∀ a, a < length s -> s' !! a = s !! a) ∧
    Heap.contents s' (Heap.graph self) = Heap.contents s (Heap.graph self) ∧
    Heap.owned (length s) s' (Heap.graph gT) ∧
    Heap.contents s' (Heap.graph gT) =
      graph (_transpose_graph
               (mkGraph (Heap.airports self) (Heap.vertices self)
                        (Heap.contents s (Heap.graph self)))) ∧
    ∀ u v, count_of u (adj (Heap.contents s' (Heap.graph gT)) v) =
           count_of v (adj (Heap.contents s (Heap.graph self)) u).
Proof.
  intros (entries & Hd & Hkeys & Hlists) [Hfuel Hlens].
  unfold Heap.entries_at in Hfuel, Hlens. rewrite Hd in Hfuel, Hlens.
  pose proof (lookup_lt_Some _ _ _ Hd) as Hdlt.
  unfold Heap._transpose_graph, Heap.Graph_init, Heap.alloc.
  set (gT := Heap.mkGraph (Heap.airports self) (size (Heap.airports self))
                          (length s)).
  set (s0 := s ++ [Heap.ODict []]).
  assert (Heap.preserved (length s) s s0) as Hpres0.
  { intros a Ha. unfold s0. by rewrite lookup_app_l. }
  assert (s0 !! Heap.graph self = Some (Heap.ODict entries)) as Hd0
    by (by rewrite Hpres0).
  assert (Heap.dict_size s0 (Heap.graph self) = length entries) as ->
    by (unfold Heap.dict_size; by rewrite Hd0).
  destruct (heap_for_keys_spec (length s) fuel self gT s0 entries Hdlt Hd0)
    with (rest := entries) (fuel' := fuel) (i := 0) (s := s0)
    as (s1 & Hrun & Hpres1 & Hown1 & Hcont1); auto.
  { intros e He. rewrite Forall_forall in Hlists, Hlens.
    destruct (Hlists e He) as [l Hl].
    pose proof (lookup_lt_Some _ _ _ Hl) as Hlt.
    split; [done|]. exists l. rewrite Hpres0 by done. split; [done|].
    specialize (Hlens e He). unfold Heap.items_at in Hlens.
    by rewrite Hl in Hlens. }
  { by intros ? ?. }
  { split; [simpl; lia|]. exists []. split.
    - unfold s0. simpl. by rewrite list_lookup_middle.
    - split; [apply NoDup_nil_2|apply Forall_nil_2]. }
  rewrite Hrun. simpl. exists gT, s1. split; [done|].
  assert (Heap.preserved (length s) s s1) as Hpres
    by (by eapply heap_preserved_trans).
  assert (Heap.contents s1 (Heap.graph self) = Heap.contents s (Heap.graph self))
    as Hsame.
  { unfold Heap.contents, Heap.entries_at. rewrite Hpres, Hd by done.
    apply heap_contents_unchanged. intros e He.
    rewrite Forall_forall in Hlists. destruct (Hlists e He) as [l Hl].
    unfold Heap.items_at. rewrite Hpres; [done|]. by eapply lookup_lt_Some. }
  assert (Heap.contents s0 (Heap.graph self) = Heap.contents s (Heap.graph self))
    as Hsame0.
  { unfold Heap.contents, Heap.entries_at. rewrite Hd0, Hd.
    apply heap_contents_unchanged. intros e He.
    rewrite Forall_forall in Hlists. destruct (Hlists e He) as [l Hl].
    unfold Heap.items_at. rewrite Hpres0; [done|]. by eapply lookup_lt_Some. }
  assert (Heap.contents s1 (Heap.graph gT) =
          graph (_transpose_graph
                   (mkGraph (Heap.airports self) (Heap.vertices self)
                            (Heap.contents s (Heap.graph self))))) as Hcont.
  { rewrite Hcont1, graph_transpose. simpl. unfold edge_list.
    rewrite Hsame0, heap_contents_keys. unfold Heap.entries_at. rewrite Hd.
    f_equal. unfold Heap.contents, Heap.entries_at. simpl.
    unfold s0. by rewrite list_lookup_middle. }
  split; [done|]. split; [done|]. split; [done|]. split; [done|].
  intros u v. rewrite Hcont. apply count_adj_transpose. simpl.
  rewrite heap_contents_keys. unfold Heap.entries_at. by rewrite Hd.
Qed.

Lemma transpose_graph_independent_witness :
  let s := [Heap.ODict [(0, 1); (1, 2)]; Heap.OList [1; 1]; Heap.OList [0]] in
  let self := Heap.mkGraph ∅ 2 0 in
  ∃ gT s',
    Heap._transpose_graph 3 s self = Some (gT, s') ∧
    (∀ a, a < length s -> s' !! a = s !! a) ∧
    Heap.contents s' (Heap.graph self) = Heap.contents s (Heap.graph self) ∧
    Heap.owned (length s) s' (Heap.graph gT) ∧
    Heap.contents s' (Heap.graph gT) =
      graph (_transpose_graph
               (mkGraph (Heap.airports self) (Heap.vertices self)
                        (Heap.contents s (Heap.graph self)))) ∧
    ∀ u v, count_of u (adj (Heap.contents s' (Heap.graph gT)) v) =
           count_of v (adj (Heap.contents s (Heap.graph self)) u).
Proof.
  intros s self. apply (transpose_graph_independent 3 s self).
  - exists [(0, 1); (1, 2)]. split; [reflexivity|]. split.
    + apply (bool_decide_unpack _). vm_compute. exact I.
    + repeat constructor; simpl; eexists; reflexivity.
  - split; [simpl; lia|]. repeat constructor; simpl; lia.
Defined.

(** * Further properties of the code *)

(** ** When the query returns *)






(** X20: on a graph whose ids are non-negative and under any recursion
    limit, [find_minimum_additional_routes] raises the unknown-label
    error on the start label only if that label is absent from the label
    map, both endpoints of every stored edge are below [self.vertices]
    and [self.vertices] is positive. *)
Theorem unknown_start_label_only_if depth self start :
  (find_minimum_additional_routes_within depth self start).2 =
    Raise (KeyError (KStr start)) ->
  airports self !! start = None ∧
  edges_in_range (vertices self) (graph self) ∧ 0 < vertices self.
Proof.
  intros Hraise. unfold find_minimum_additional_routes_within in Hraise.
  destruct (find_strongly_connected_components_within depth self)
    as [g' [sccs|e]] eqn:Hrun; simpl in Hraise.
  2:{ apply find_strongly_connected_components_within_error in Hrun
        as [[->| ->] _]; done. }
  destruct (build_compressed_graph_from_sccs (set_graph self g') sccs)
    as [cg|e] eqn:Hcg; simpl in Hraise.
  2:{ apply compress_keys_error in Hcg as [w ->]. done. }
  split; [|split].
  - destruct (airports self !! start) as [v|] eqn:Hstart; [|done].
    destruct (find_start_scc _ start 0 sccs) as [i|e] eqn:Hi; [done|].
    apply (find_start_scc_known _ _ v) in Hi as ->; done.
  - apply find_strongly_connected_components_within_Ok in Hrun.
    by eapply condensation_Ok_edges_in_range.
  - destruct (vertices self) as [|n] eqn:HN; [|lia]. exfalso.
    rewrite find_strongly_connected_components_within_no_vertices in Hrun
      by done.
    by simplify_eq.
Qed.

Lemma unknown_start_label_only_if_witness :
  (find_minimum_additional_routes_within 3 chain_graph "DSM").2 =
    Raise (KeyError (KStr "DSM")) ∧
  airports chain_graph !! "DSM" = None ∧
  edges_in_range (vertices chain_graph) (graph chain_graph) ∧
  0 < vertices chain_graph.
Proof.
  assert ((find_minimum_additional_routes_within 3 chain_graph "DSM").2 =
          Raise (KeyError (KStr "DSM"))) as Hraise by (vm_compute; reflexivity).
  split; [exact Hraise|].
  exact (unknown_start_label_only_if 3 chain_graph "DSM" Hraise).
Defined.




(** ** Exceptions of the decomposition, and graphs without routes *)









Lemma compress_keys_no_edges scc_map g : ∀ ks cg,
  (∀ k, adj g k = []) -> compress_keys scc_map g ks cg = Ok cg.
Proof.
  induction ks as [|k ks IH]; intros cg Hadj; simpl; [done|].
  rewrite Hadj. simpl. by apply IH.
Qed.

(** X4: on a graph without routes, whatever its number of airports,
    [find_minimum_additional_routes] returns 0 for every start label
    registered with an id below [self.vertices]: the condensed dictionary
    is empty, so the counting loop runs over no index. *)
Theorem no_routes_answer_zero self start v :
  (∀ k, adj (graph self) k = []) ->
  airports self !! start = Some v -> v < vertices self ->
  (find_minimum_additional_routes self start).2 = Ok 0.
Proof.
  intros Hempty Hstart Hv.
  assert (edges_in_range (vertices self) (graph self)) as Hrange.
  { intros u w Hw. rewrite Hempty in Hw. by apply elem_of_nil in Hw. }
  destruct (find_strongly_connected_components_spec_edges self Hrange)
    as (g' & sccs & Hrun & Hadj & Hnd & Hall & Hcl).
  destruct (find_start_scc_spec (set_graph self g') start v sccs 0)
    as (i & c & Hi & Hc & Hvc); [done|by apply Hall|].
  unfold find_minimum_additional_routes. rewrite Hrun. simpl.
  unfold build_compressed_graph_from_sccs. simpl.
  rewrite compress_keys_no_edges by (intros k; by rewrite Hadj).
  simpl. rewrite Hi. done.
Qed.

Lemma no_routes_answer_zero_witness :
  (find_minimum_additional_routes (Graph_init sample_airports) "DSM").2 = Ok 0.
Proof.
  apply (no_routes_answer_zero (Graph_init sample_airports) "DSM" 0).
  - intros k. reflexivity.
  - vm_compute. reflexivity.
  - vm_compute. lia.
Defined.

(** ** The two searches *)

Lemma dfs_gen_keys_loop visit l :
  (∀ x st st' r, visit x st = (st', r) -> dfs_frame st st') ->
  (∀ x st st' r, visit x st = (st', r) ->
     ∀ k, k ∈ keys (st_graph st') ->
          k ∈ keys (st_graph st) ∨ marked (st_visited st') k) ->
  ∀ st st' r, visit_unvisited visit l st = (st', r) ->
    ∀ k, k ∈ keys (st_graph st') ->
         k ∈ keys (st_graph st) ∨ marked (st_visited st') k.
Proof.
  intros Hframe Hvisit.
  induction l as [|n l IH]; intros st st' r Hrun k Hk; simpl in *.
  - simplify_eq. by left.
  - destruct (st_visited st !! n) as [[]|] eqn:Hn; simplify_eq.
    + by eapply IH.
    + destruct (visit n st) as [st1 [u|e]] eqn:Hvis; simplify_eq.
      * destruct (IH _ _ _ Hrun k Hk) as [Hk1|Hk1]; [|by right].
        destruct (Hvisit _ _ _ _ Hvis k Hk1) as [?|Hm]; [by left|right].
        apply (visit_unvisited_frame _ _ Hframe) in Hrun as (_ & Hmono & _).
        by apply Hmono.
      * by eapply Hvisit.
    + by left.
Qed.

(** A key of the dictionary after a search was a key before, or is a
    vertex the search has marked. *)
Lemma dfs_gen_keys preorder fuel : ∀ x st st' r,
  dfs_gen preorder fuel x st = (st', r) ->
  ∀ k, k ∈ keys (st_graph st') ->
       k ∈ keys (st_graph st) ∨ marked (st_visited st') k.
Proof.
  induction fuel as [|fuel IH]; intros x [g V O] st' r Hrun k Hk; simpl in *.
  { simplify_eq. by left. }
  case_decide as Hx; [|simplify_eq; by left].
  destruct (visit_unvisited _ _ _) as [st1 r1] eqn:Hloop.
  assert (st_graph st' = st_graph st1 ∧ st_visited st' = st_visited st1)
    as [Hg Hv].
  { destruct r1; [destruct preorder|]; by simplify_eq. }
  rewrite Hg in Hk. rewrite Hv.
  destruct (dfs_gen_keys_loop _ _ (dfs_gen_frame preorder fuel) IH
              _ _ _ Hloop k Hk) as [Hk0|Hm]; [|by right].
  simpl in Hk0. rewrite keys_touch in Hk0. case_decide; [by left|].
  apply elem_of_app in Hk0 as [?|Hk0]; [by left|].
  apply list_elem_of_singleton in Hk0 as ->. right.
  apply (visit_unvisited_frame _ _ (dfs_gen_frame preorder fuel))
    in Hloop as (_ & Hmono & _).
  apply Hmono. simpl. unfold marked. by rewrite list_lookup_insert_eq.
Qed.

Lemma dfs_gen_marked_keys_loop visit l :
  (∀ x st st' r, visit x st = (st', r) -> dfs_frame st st') ->
  (∀ x st st' r, visit x st = (st', r) ->
     ∀ y, marked (st_visited st') y ->
          marked (st_visited st) y ∨ y ∈ keys (st_graph st')) ->
  ∀ st st' r, visit_unvisited visit l st = (st', r) ->
    ∀ y, marked (st_visited st') y ->
         marked (st_visited st) y ∨ y ∈ keys (st_graph st').
Proof.
  intros Hframe Hvisit.
  induction l as [|n l IH]; intros st st' r Hrun y Hy; simpl in *.
  - simplify_eq. by left.
  - destruct (st_visited st !! n) as [[]|] eqn:Hn; simplify_eq.
    + by eapply IH.
    + destruct (visit n st) as [st1 [u|e]] eqn:Hvis; simplify_eq.
      * destruct (IH _ _ _ Hrun y Hy) as [Hy1|Hy1]; [|by right].
        destruct (Hvisit _ _ _ _ Hvis y Hy1) as [?|Hk]; [by left|right].
        apply (visit_unvisited_frame _ _ Hframe) in Hrun as (_ & _ & _ & Hkeys).
        by apply Hkeys.
      * by eapply Hvisit.
    + by left.
Qed.

(** A vertex marked by a search has a key in the dictionary afterwards. *)
Lemma dfs_gen_marked_keys preorder fuel : ∀ x st st' r,
  dfs_gen preorder fuel x st = (st', r) ->
  ∀ y, marked (st_visited st') y ->
       marked (st_visited st) y ∨ y ∈ keys (st_graph st').
Proof.
  induction fuel as [|fuel IH]; intros x [g V O] st' r Hrun y Hy; simpl in *.
  { simplify_eq. by left. }
  case_decide as Hx; [|simplify_eq; by left].
  destruct (visit_unvisited _ _ _) as [st1 r1] eqn:Hloop.
  assert (st_graph st' = st_graph st1 ∧ st_visited st' = st_visited st1)
    as [Hg Hv].
  { destruct r1; [destruct preorder|]; by simplify_eq. }
  rewrite Hv in Hy. rewrite Hg.
  destruct (dfs_gen_marked_keys_loop _ _ (dfs_gen_frame preorder fuel) IH
              _ _ _ Hloop y Hy) as [Hy0|Hk]; [|by right].
  simpl in Hy0. apply marked_insert in Hy0 as [?| ->]; [by left| |done].
  right.
  apply (visit_unvisited_frame _ _ (dfs_gen_frame preorder fuel))
    in Hloop as (_ & _ & _ & Hkeys).
  apply Hkeys. simpl. apply elem_of_keys_touch.
Qed.

(** X5: whatever the graph and whether they return or raise, the two
    searches keep the length of [visited], never clear a mark, never
    change a neighbour list, never remove a key, and every key they
    insert is a vertex they have marked (whose list is therefore
    empty). *)
Theorem searches_frame fuel x st :
  (dfs_frame st (_depth_first_search fuel x st).1 ∧
   ∀ k, k ∈ keys (st_graph (_depth_first_search fuel x st).1) ->
        k ∈ keys (st_graph st) ∨
        (marked (st_visited (_depth_first_search fuel x st).1) k ∧
         adj (st_graph st) k = [])) ∧
  (dfs_frame st (_depth_first_search_transposed fuel x st).1 ∧
   ∀ k, k ∈ keys (st_graph (_depth_first_search_transposed fuel x st).1) ->
        k ∈ keys (st_graph st) ∨
        (marked (st_visited (_depth_first_search_transposed fuel x st).1) k ∧
         adj (st_graph st) k = [])).
Proof.
  rewrite dfs_gen_postorder, dfs_gen_preorder.
  assert (∀ b, dfs_frame st (dfs_gen b fuel x st).1 ∧
     ∀ k, k ∈ keys (st_graph (dfs_gen b fuel x st).1) ->
          k ∈ keys (st_graph st) ∨
          (marked (st_visited (dfs_gen b fuel x st).1) k ∧
           adj (st_graph st) k = [])) as Hgen; [|by split].
  intros b. destruct (dfs_gen b fuel x st) as [st' r] eqn:Hrun. simpl.
  split; [by eapply dfs_gen_frame|].
  intros k Hk. destruct (decide (k ∈ keys (st_graph st))) as [|Hnk]; [by left|].
  right. destruct (dfs_gen_keys _ _ _ _ _ _ Hrun k Hk) as [|Hm]; [done|].
  split; [done|]. apply lookup_key_None in Hnk. unfold adj. by rewrite Hnk.
Qed.

(** Where a search that returns records its own vertex. *)
Lemma dfs_gen_own_position preorder fuel x st st' u :
  dfs_gen preorder fuel x st = (st', Ok u) ->
  ∃ D, st_out st' =
       st_out st ++ (if preorder then x :: D else D ++ [x]).
Proof.
  destruct fuel as [|fuel]; destruct st as [g V O]; simpl; [done|].
  case_decide as Hx; [|done].
  destruct (visit_unvisited _ _ _) as [st1 [u1|e]] eqn:Hloop; [|done].
  intros Hrun.
  destruct (visit_unvisited_out _ _ (dfs_gen_frame preorder fuel)
              (dfs_gen_out preorder fuel) _ _ _ Hloop) as (D & Hout & _).
  simpl in Hout. exists D. destruct preorder; simplify_eq; simpl.
  - by rewrite Hout, <- app_assoc.
  - by rewrite Hout, <- app_assoc.
Qed.

(** X6: started from an unvisited vertex [x] of a graph whose neighbours
    are all indices of [visited], with a budget of at least the number
    of unvisited vertices, [_depth_first_search] returns, appends to the
    stack each vertex reachable from [x] through unvisited vertices
    exactly once, [x] itself last, and marks exactly these vertices. *)
Theorem depth_first_search_white_path fuel x g (V : list bool) O :
  (∀ u v, v ∈ adj g u -> v < length V) ->
  V !! x = Some false -> unvisited V ≤ fuel ->
  ∃ g' V' D,
    _depth_first_search fuel x (DfsState g V O) =
      (DfsState g' V' (O ++ D ++ [x]), Ok tt) ∧
    NoDup (D ++ [x]) ∧
    (∀ y, y ∈ D ++ [x] ↔ wpath (adj g) (marked V) x y) ∧
    (∀ y, marked V' y ↔ marked V y ∨ y ∈ D ++ [x]) ∧
    length V' = length V.
Proof.
  intros Hrange Hx Hfuel. rewrite dfs_gen_postorder.
  destruct (dfs_gen_spec (adj g) (length V) false Hrange fuel x
              (DfsState g V O))
    as ([g' V' O'] & Hrun & Dt & Hout & _ & Hlen & Hnd & Hset & Hmark & _);
    auto.
  destruct (dfs_gen_own_position _ _ _ _ _ _ Hrun) as (D & Hout').
  simpl in *. rewrite Hout in Hout'. apply app_inv_head in Hout'. subst Dt.
  exists g', V', D. rewrite Hrun, Hout. split; [done|]. split; [done|].
  split; [|done]. intros y. rewrite Hset. split.
  - intros (n & Hn & Hp). by apply list_elem_of_singleton in Hn as ->.
  - intros Hp. exists x. split; [by left|done].
Qed.

Lemma depth_first_search_white_path_witness :
  ∃ g' V' D,
    _depth_first_search 2 0 (DfsState [(0, [1]); (1, [0])] [false; false] []) =
      (DfsState g' V' ([] ++ D ++ [0]), Ok tt) ∧
    NoDup (D ++ [0]) ∧
    (∀ y, y ∈ D ++ [0] ↔
          wpath (adj [(0, [1]); (1, [0])]) (marked [false; false]) 0 y) ∧
    (∀ y, marked V' y ↔ marked [false; false] y ∨ y ∈ D ++ [0]) ∧
    length V' = length [false; false].
Proof.
  apply (depth_first_search_white_path 2 0 [(0, [1]); (1, [0])]
           [false; false] []).
  - intros u v Hv.
    apply (adj_in_range 2 [(0, [1]); (1, [0])] u v); [|done].
    apply (bool_decide_unpack _). vm_compute. exact I.
  - reflexivity.
  - vm_compute. lia.
Defined.

(** X7: under the same conditions [_depth_first_search_transposed]
    returns, appends to the component each vertex reachable from [x]
    through unvisited vertices exactly once, [x] itself first, and marks
    exactly these vertices. *)
Theorem depth_first_search_transposed_white_path fuel x g (V : list bool) O :
  (∀ u v, v ∈ adj g u -> v < length V) ->
  V !! x = Some false -> unvisited V ≤ fuel ->
  ∃ g' V' D,
    _depth_first_search_transposed fuel x (DfsState g V O) =
      (DfsState g' V' (O ++ x :: D), Ok tt) ∧
    NoDup (x :: D) ∧
    (∀ y, y ∈ x :: D ↔ wpath (adj g) (marked V) x y) ∧
    (∀ y, marked V' y ↔ marked V y ∨ y ∈ x :: D) ∧
    length V' = length V.
Proof.
  intros Hrange Hx Hfuel. rewrite dfs_gen_preorder.
  destruct (dfs_gen_spec (adj g) (length V) true Hrange fuel x
              (DfsState g V O))
    as ([g' V' O'] & Hrun & Dt & Hout & _ & Hlen & Hnd & Hset & Hmark & _);
    auto.
  destruct (dfs_gen_own_position _ _ _ _ _ _ Hrun) as (D & Hout').
  simpl in *. rewrite Hout in Hout'. apply app_inv_head in Hout'. subst Dt.
  exists g', V', D. rewrite Hrun, Hout. split; [done|]. split; [done|].
  split; [|done]. intros y. rewrite Hset. split.
  - intros (n & Hn & Hp). by apply list_elem_of_singleton in Hn as ->.
  - intros Hp. exists x. split; [by left|done].
Qed.

Lemma depth_first_search_transposed_white_path_witness :
  ∃ g' V' D,
    _depth_first_search_transposed 2 0
      (DfsState [(0, [1]); (1, [0])] [false; false] []) =
      (DfsState g' V' ([] ++ 0 :: D), Ok tt) ∧
    NoDup (0 :: D) ∧
    (∀ y, y ∈ 0 :: D ↔
          wpath (adj [(0, [1]); (1, [0])]) (marked [false; false]) 0 y) ∧
    (∀ y, marked V' y ↔ marked [false; false] y ∨ y ∈ 0 :: D) ∧
    length V' = length [false; false].
Proof.
  apply (depth_first_search_transposed_white_path 2 0 [(0, [1]); (1, [0])]
           [false; false] []).
  - intros u v Hv.
    apply (adj_in_range 2 [(0, [1]); (1, [0])] u v); [|done].
    apply (bool_decide_unpack _). vm_compute. exact I.
  - reflexivity.
  - vm_compute. lia.
Defined.

(** X8: when [find_strongly_connected_components] returns, on any graph,
    [self.graph] has a key for every vertex id below [self.vertices];
    every neighbour list is what it was, no key was removed, and every
    inserted key is a vertex id. *)
Theorem decomposition_inserts_keys self g' sccs :
  find_strongly_connected_components self = (g', Ok sccs) ->
  (∀ v, v < vertices self -> v ∈ keys g') ∧
  (∀ k, adj g' k = adj (graph self) k) ∧
  keys (graph self) ⊆ keys g' ∧
  (∀ k, k ∈ keys g' -> k ∈ keys (graph self) ∨ k < vertices self).
Proof.
  intros Hrun.
  destruct (find_strongly_connected_components_frame _ _ _ Hrun) as [Hadj Hkeys].
  unfold find_strongly_connected_components in Hrun.
  rewrite (visit_unvisited_ext _ (dfs_gen false (vertices self))) in Hrun
    by (intros; apply dfs_gen_postorder).
  destruct (visit_unvisited _ _ _) as [st1 [u|e]] eqn:Hloop; [|done].
  simplify_eq.
  pose proof (visit_unvisited_frame _ _ (dfs_gen_frame false (vertices self))
                _ _ _ Hloop) as (Hlen & _).
  simpl in Hlen. rewrite length_replicate in Hlen.
  split; [|split; [done|split; [done|]]].
  - intros v Hv.
    pose proof (visit_unvisited_marks _ _ (dfs_gen_frame false (vertices self))
                  (dfs_gen_marks false (vertices self)) _ _ _ Hloop v) as Hm.
    destruct (dfs_gen_marked_keys_loop _ _
                (dfs_gen_frame false (vertices self))
                (dfs_gen_marked_keys false (vertices self)) _ _ _ Hloop v)
      as [Hm0|Hk]; [|by apply marked_replicate in Hm0|done].
    apply Hm, elem_of_seq. lia.
  - intros k Hk.
    destruct (dfs_gen_keys_loop _ _ (dfs_gen_frame false (vertices self))
                (dfs_gen_keys false (vertices self)) _ _ _ Hloop k Hk)
      as [?|Hm]; [by left|right].
    apply marked_lt in Hm. lia.
Qed.

Lemma decomposition_inserts_keys_witness :
  (∀ v, v < vertices two_airports ->
        v ∈ keys (find_strongly_connected_components two_airports).1) ∧
  (∀ k, adj (find_strongly_connected_components two_airports).1 k =
        adj (graph two_airports) k) ∧
  keys (graph two_airports) ⊆
    keys (find_strongly_connected_components two_airports).1 ∧
  (∀ k, k ∈ keys (find_strongly_connected_components two_airports).1 ->
        k ∈ keys (graph two_airports) ∨ k < vertices two_airports).
Proof.
  apply (decomposition_inserts_keys two_airports _ [[1]; [0]]).
  vm_compute. reflexivity.
Defined.

(** ** The order of the components *)

Lemma extract_components_prefix_closed a aT n :
  (∀ u v, v ∈ aT u -> v < n) ->
  (∀ u v, u ∈ aT v ↔ v ∈ a u) ->
  ∀ order gT (V : list bool) sccs sccs',
    (∀ k, adj gT k = aT k) -> length V = n ->
    (∀ y, marked V y ↔ y ∈ concat sccs) ->
    (∀ j, pred_closed a (concat (take j sccs))) ->
    extract_components n order gT V sccs = Ok sccs' ->
    ∀ j, pred_closed a (concat (take j sccs')).
Proof.
  intros Hrange HT.
  induction order as [|r order IH];
    intros gT V sccs sccs' Hadj Hlen HV Hpre Hrun; simpl in *.
  { by simplify_eq. }
  destruct (V !! r) as [[]|] eqn:Hr; simplify_eq; [by eapply IH|].
  rewrite dfs_gen_preorder in Hrun.
  destruct (dfs_gen_spec aT (length V) true Hrange (length V) r
              (DfsState gT V []))
    as ([gT' V' C] & Hdfs & C' & Hout & Hadj' & Hlen' & _ & HsetC & HV' & _);
    auto.
  { simpl. apply unvisited_le_length. }
  rewrite Hdfs in Hrun. simpl in *. subst C'.
  assert (∀ y, y ∈ C ↔ wpath aT (marked V) r y) as HC.
  { intros y. rewrite HsetC. split.
    - intros (m & Hm & Hp). by apply list_elem_of_singleton in Hm as ->.
    - intros Hp. exists r. split; [by left|done]. }
  eapply (IH gT' V' (sccs ++ [C])); [done|congruence| | |exact Hrun].
  - intros y. rewrite HV', concat_app, elem_of_app, HV. simpl.
    by rewrite app_nil_r.
  - intros j. destruct (decide (j ≤ length sccs)) as [Hj|Hj].
    + rewrite take_app_le by done. apply Hpre.
    + rewrite take_ge by (rewrite length_app; simpl; lia).
      rewrite concat_app. simpl. rewrite app_nil_r.
      intros u v Huv Hv. apply elem_of_app in Hv as [Hv|Hv].
      * apply elem_of_app. left.
        specialize (Hpre (length sccs)). rewrite take_ge in Hpre by done.
        by apply (Hpre u v).
      * apply elem_of_app.
        destruct (decide (V !! u = Some true)) as [Hu|Hu];
          [left; by apply HV|].
        right. apply HC. apply HC in Hv.
        eapply wpath_trans; [exact Hv|].
        apply wpath_edge; [by eapply wpath_end|done|by apply HT].
Qed.

Lemma find_strongly_connected_components_prefix_closed self g' sccs :
  edges_in_range (vertices self) (graph self) ->
  find_strongly_connected_components self = (g', Ok sccs) ->
  ∀ j, pred_closed (adj (graph self)) (concat (take j sccs)).
Proof.
  intros Hrange Hrun. unfold find_strongly_connected_components in Hrun.
  rewrite (visit_unvisited_ext _ (dfs_gen false (vertices self))) in Hrun
    by (intros; apply dfs_gen_postorder).
  destruct (visit_unvisited _ _ _) as [st1 [u|e]] eqn:Hloop; [|done].
  simplify_eq.
  pose proof (visit_unvisited_frame _ _ (dfs_gen_frame false (vertices self))
                _ _ _ Hloop) as (_ & _ & Hadj & _). simpl in Hadj.
  assert (∀ x y, x ∈ adj (graph (_transpose_graph
                    (set_graph self (st_graph st1)))) y ↔
                 y ∈ adj (graph self) x) as HT.
  { intros x y. rewrite elem_of_adj_transpose. simpl. by rewrite Hadj. }
  apply (extract_components_prefix_closed (adj (graph self))
           (adj (graph (_transpose_graph (set_graph self (st_graph st1)))))
           (vertices self)) with
    (order := reverse (st_out st1))
    (gT := graph (_transpose_graph (set_graph self (st_graph st1))))
    (V := replicate (vertices self) false) (sccs := []).
  - intros x y Hxy. apply HT in Hxy. by apply Hrange in Hxy as [? _].
  - exact HT.
  - done.
  - apply length_replicate.
  - intros y. simpl. rewrite elem_of_nil. split; [|done].
    apply marked_replicate.
  - intros j x y _ Hy. rewrite take_nil in Hy. by apply elem_of_nil in Hy.
  - done.
Qed.

Lemma components_ascend (a : nat -> list nat) (sccs : list (list nat))
    i j ci cj u v :
  NoDup (concat sccs) ->
  (∀ j, pred_closed a (concat (take j sccs))) ->
  sccs !! i = Some ci -> sccs !! j = Some cj ->
  u ∈ ci -> v ∈ cj -> v ∈ a u -> i ≤ j.
Proof.
  intros Hnd Hpre Hi Hj Hu Hv Huv.
  assert (u ∈ concat (take (S j) sccs)) as Hin.
  { apply (Hpre (S j) u v Huv). apply elem_of_concat. exists cj.
    split; [done|]. apply list_elem_of_lookup. exists j.
    rewrite lookup_take_lt by lia. done. }
  apply elem_of_concat in Hin as (c & Huc & Hc).
  apply list_elem_of_lookup in Hc as [i' Hi'].
  pose proof (lookup_lt_Some _ _ _ Hi') as Hlt.
  rewrite length_take in Hlt.
  rewrite lookup_take_lt in Hi' by lia.
  assert (i = i') by (by eapply (NoDup_concat_unique sccs i i' ci c u)).
  lia.
Qed.

(** X9: on a graph whose edges stay within the vertex ids, the components
    are returned in a topological order: every edge of the graph leads
    from a vertex of one component to a vertex of the same or of a later
    component of the list. *)
Theorem components_topologically_ordered self :
  edges_in_range (vertices self) (graph self) ->
  ∃ sccs,
    (find_strongly_connected_components self).2 = Ok sccs ∧
    ∀ i j ci cj u v,
      sccs !! i = Some ci -> sccs !! j = Some cj ->
      u ∈ ci -> v ∈ cj -> v ∈ adj (graph self) u -> i ≤ j.
Proof.
  intros Hrange.
  destruct (find_strongly_connected_components_spec_edges self Hrange)
    as (g' & sccs & Hrun & _ & Hnd & _).
  exists sccs. rewrite Hrun. split; [done|].
  intros i j ci cj u v. apply components_ascend; [done|].
  by eapply find_strongly_connected_components_prefix_closed.
Qed.

Lemma components_topologically_ordered_witness :
  ∃ sccs,
    (find_strongly_connected_components sample_graph).2 = Ok sccs ∧
    ∀ i j ci cj u v,
      sccs !! i = Some ci -> sccs !! j = Some cj ->
      u ∈ ci -> v ∈ cj -> v ∈ adj (graph sample_graph) u -> i ≤ j.
Proof.
  apply (components_topologically_ordered sample_graph).
  apply wf_graph_edges. apply (bool_decide_unpack _). vm_compute. exact I.
Defined.

(** X10: consequently every edge of the condensed graph leads from a
    component index to a strictly larger one. *)
Theorem condensed_edges_ascend self :
  edges_in_range (vertices self) (graph self) ->
  ∃ g' sccs cg,
    find_strongly_connected_components self = (g', Ok sccs) ∧
    build_compressed_graph_from_sccs (set_graph self g') sccs = Ok cg ∧
    ∀ x y, cg_edge cg x y -> x < y.
Proof.
  intros Hrange.
  destruct (find_strongly_connected_components_spec_edges self Hrange)
    as (g' & sccs & Hrun & Hadj & Hnd & Hall & _).
  destruct (build_compressed_graph_from_sccs_spec_edges self g' sccs
              Hrange Hadj Hall) as (cg & Hcg & Hsound).
  exists g', sccs, cg. split; [done|]. split; [done|].
  intros x y Hxy. apply Hsound in Hxy as (Hne & u & v & Huv & Hu & Hv).
  apply build_scc_map_Some in Hu as (cx & Hcx & Hu).
  apply build_scc_map_Some in Hv as (cy & Hcy & Hv).
  rewrite Hadj in Huv.
  pose proof (find_strongly_connected_components_prefix_closed
                self g' sccs Hrange Hrun) as Hpre.
  pose proof (components_ascend _ sccs x y cx cy u v Hnd Hpre Hcx Hcy Hu Hv Huv).
  lia.
Qed.

Lemma condensed_edges_ascend_witness :
  ∃ g' sccs cg,
    find_strongly_connected_components sample_graph = (g', Ok sccs) ∧
    build_compressed_graph_from_sccs (set_graph sample_graph g') sccs = Ok cg ∧
    ∀ x y, cg_edge cg x y -> x < y.
Proof.
  apply (condensed_edges_ascend sample_graph).
  apply wf_graph_edges. apply (bool_decide_unpack _). vm_compute. exact I.
Defined.

(** ** Shape of the component list *)

Lemma extract_components_nonempty n : ∀ order gT (V : list bool) sccs sccs',
  Forall (fun c => c ≠ []) sccs ->
  extract_components n order gT V sccs = Ok sccs' ->
  Forall (fun c => c ≠ []) sccs'.
Proof.
  induction order as [|x order IH]; intros gT V sccs sccs' Hne Hrun;
    simpl in *; [by simplify_eq|].
  destruct (V !! x) as [[]|] eqn:Hx; simplify_eq; [by eapply IH|].
  rewrite dfs_gen_preorder in Hrun.
  destruct (dfs_gen true n x (DfsState gT V [])) as [st1 [u|e]] eqn:Hdfs;
    [|done].
  destruct (dfs_gen_own_position _ _ _ _ _ _ Hdfs) as (D & Hout).
  simpl in Hout. eapply IH; [|exact Hrun].
  apply Forall_app. split; [done|]. apply Forall_singleton. by rewrite Hout.
Qed.

Lemma length_concat_nonempty (ls : list (list nat)) :
  Forall (fun c => c ≠ []) ls -> length ls ≤ length (concat ls).
Proof.
  induction 1 as [|c ls Hc _ IH]; simpl; [done|].
  rewrite length_app. destruct c; [done|]. simpl. lia.
Qed.

(** X11: on a graph whose edges stay within the vertex ids, no returned
    component is empty, there are at most [self.vertices] components,
    and at least one when the graph has a vertex. *)
Theorem components_nonempty self :
  edges_in_range (vertices self) (graph self) ->
  ∃ sccs,
    (find_strongly_connected_components self).2 = Ok sccs ∧
    Forall (fun c => c ≠ []) sccs ∧
    length sccs ≤ vertices self ∧
    (0 < vertices self -> sccs ≠ []).
Proof.
  intros Hrange.
  destruct (find_strongly_connected_components_spec_edges self Hrange)
    as (g' & sccs & Hrun & _ & Hnd & Hall & _).
  exists sccs. rewrite Hrun. split; [done|].
  assert (Forall (fun c => c ≠ []) sccs) as Hne.
  { unfold find_strongly_connected_components in Hrun.
    destruct (visit_unvisited _ _ _) as [st1 [u|e]]; [|done]. simplify_eq.
    by eapply extract_components_nonempty. }
  split; [done|]. split.
  - etrans; [by apply length_concat_nonempty|].
    assert (concat sccs ≡ₚ seq 0 (vertices self)) as Hperm.
    { apply NoDup_Permutation; [done|apply NoDup_seq|].
      intros y. rewrite Hall, elem_of_seq. lia. }
    by rewrite Hperm, length_seq.
  - intros Hpos ->. apply Hall in Hpos. by apply elem_of_nil in Hpos.
Qed.

Lemma components_nonempty_witness :
  ∃ sccs,
    (find_strongly_connected_components sample_graph).2 = Ok sccs ∧
    Forall (fun c => c ≠ []) sccs ∧
    length sccs ≤ vertices sample_graph ∧
    (0 < vertices sample_graph -> sccs ≠ []).
Proof.
  apply (components_nonempty sample_graph).
  apply wf_graph_edges. apply (bool_decide_unpack _). vm_compute. exact I.
Defined.

(** ** The vertex-to-component map and the condensed dictionary *)

(** X12: on any list of components, [scc_map] has an entry exactly for
    the vertices that occur in some component, and an entry names the
    index of a component that contains the vertex; when no vertex occurs
    twice, the entry of a vertex is the index of the component that
    contains it. *)
Theorem scc_map_lookup sccs v i :
  (build_scc_map sccs !! v = None ↔ v ∉ concat sccs) ∧
  (build_scc_map sccs !! v = Some i -> ∃ c, sccs !! i = Some c ∧ v ∈ c) ∧
  (NoDup (concat sccs) ->
   (build_scc_map sccs !! v = Some i ↔ ∃ c, sccs !! i = Some c ∧ v ∈ c)).
Proof.
  split; [|split].
  - split.
    + intros Hnone Hv. apply build_scc_map_is_Some in Hv as [j Hj]. congruence.
    + intros Hv. destruct (build_scc_map sccs !! v) as [j|] eqn:Hj; [|done].
      apply build_scc_map_Some in Hj as (c & Hc & Hvc). exfalso. apply Hv.
      apply elem_of_concat. exists c. split; [done|].
      by eapply list_elem_of_lookup_2.
  - apply build_scc_map_Some.
  - intros Hnd. split; [apply build_scc_map_Some|].
    intros (c & Hc & Hvc).
    destruct (build_scc_map_is_Some sccs v) as [j Hj].
    { apply elem_of_concat. exists c. split; [done|].
      by eapply list_elem_of_lookup_2. }
    rewrite Hj. f_equal.
    apply build_scc_map_Some in Hj as (c' & Hc' & Hvc').
    by eapply (NoDup_concat_unique sccs j i c' c v).
Qed.

Lemma scc_map_lookup_witness :
  NoDup (concat [[2; 0]; [1]]) ∧
  (build_scc_map [[2; 0]; [1]] !! 0 = Some 0 ↔
   ∃ c, [[2; 0]; [1]] !! 0 = Some c ∧ 0 ∈ c).
Proof.
  assert (NoDup (concat [[2; 0]; [1]])) as Hnd
    by (apply (bool_decide_unpack _); vm_compute; exact I).
  split; [exact Hnd|].
  exact (proj2 (proj2 (scc_map_lookup [[2; 0]; [1]] 0 0)) Hnd).
Defined.

Lemma keys_set_add_at cg x y :
  keys (set_add_at cg x y) =
  if decide (x ∈ keys cg) then keys cg else keys cg ++ [x].
Proof.
  unfold keys. induction cg as [|[k0 s0] cg IH].
  - rewrite decide_False by apply not_elem_of_nil. done.
  - cbn [set_add_at]. destruct (decide (k0 = x)) as [->|Hne].
    + destruct (decide (x ∈ ((x, s0) :: cg).*1)) as [_|Hn]; [done|].
      exfalso. apply Hn. rewrite fmap_cons. by left.
    + rewrite !fmap_cons, IH. cbn [fst].
      destruct (decide (x ∈ cg.*1)) as [Hk|Hk].
      * rewrite decide_True by (by right). done.
      * rewrite decide_False; [done|]. rewrite not_elem_of_cons. naive_solver.
Qed.

Lemma sets_ok_set_add_at cg x y : sets_ok cg -> sets_ok (set_add_at cg x y).
Proof.
  intros [Hkeys Hsets]. split.
  - rewrite keys_set_add_at. case_decide; [done|].
    apply NoDup_app. split; [done|]. split; [|apply NoDup_singleton].
    intros k Hk Hkx. apply list_elem_of_singleton in Hkx. by subst.
  - clear Hkeys. induction Hsets as [|[k s] cg [Hnd Hne] Hrest IH]; simpl.
    + apply Forall_singleton. simpl. split; [apply NoDup_singleton|done].
    + case_decide; subst.
      * constructor; [|done]. simpl. case_decide; [done|]. split.
        -- apply NoDup_app. split; [done|]. split; [|apply NoDup_singleton].
           intros z Hz Hzy. apply list_elem_of_singleton in Hzy. by subst.
        -- by destruct s.
      * by constructor.
Qed.

Lemma sets_ok_adj cg x : sets_ok cg -> NoDup (adj cg x).
Proof.
  intros [_ Hsets]. unfold adj.
  induction Hsets as [|[k s] cg [Hnd _] _ IH]; simpl; [apply NoDup_nil_2|].
  case_decide; [done|]. apply IH.
Qed.

Lemma sets_ok_keys cg x : sets_ok cg -> x ∈ keys cg ↔ ∃ y, cg_edge cg x y.
Proof.
  intros [_ Hsets]. unfold cg_edge. split.
  - unfold keys, adj.
    induction Hsets as [|[k s] cg [_ Hne] _ IH]; simpl.
    + intros Hx. by apply elem_of_nil in Hx.
    + intros Hx. case_decide; subst; simpl.
      * destruct s as [|y s]; [done|]. exists y. by left.
      * apply elem_of_cons in Hx as [?|Hx]; [done|]. by apply IH.
  - intros [y Hy]. by eapply elem_of_adj_key.
Qed.

Lemma compress_edges_sets_ok scc_map u : ∀ tos cg cg',
  compress_edges scc_map u tos cg = Ok cg' -> sets_ok cg -> sets_ok cg'.
Proof.
  induction tos as [|t tos IH]; intros cg cg' Hrun Hok; simpl in *.
  - by simplify_eq.
  - unfold scc_of in Hrun.
    destruct (scc_map !! u) as [cu|]; [|done].
    destruct (scc_map !! t) as [ct|]; [|done]. simpl in Hrun.
    eapply IH; [exact Hrun|]. case_decide; [|done].
    by apply sets_ok_set_add_at.
Qed.

Lemma compress_keys_sets_ok scc_map g : ∀ ks cg cg',
  compress_keys scc_map g ks cg = Ok cg' -> sets_ok cg -> sets_ok cg'.
Proof.
  induction ks as [|k ks IH]; intros cg cg' Hrun Hok; simpl in *.
  - by simplify_eq.
  - destruct (compress_edges scc_map k (adj g k) cg) as [cg1|] eqn:H1; [|done].
    simpl in Hrun. eapply IH; [exact Hrun|].
    by eapply compress_edges_sets_ok.
Qed.

Lemma compress_edges_complete scc_map u : ∀ tos cg cg',
  compress_edges scc_map u tos cg = Ok cg' ->
  (∀ x y, cg_edge cg x y -> cg_edge cg' x y) ∧
  ∀ t a b, t ∈ tos -> scc_map !! u = Some a -> scc_map !! t = Some b ->
           a ≠ b -> cg_edge cg' a b.
Proof.
  induction tos as [|t0 tos IH]; intros cg cg' Hrun; simpl in *.
  - simplify_eq. split; [done|]. intros t a b Ht. by apply elem_of_nil in Ht.
  - unfold scc_of in Hrun.
    destruct (scc_map !! u) as [cu|] eqn:Hu; [|done].
    destruct (scc_map !! t0) as [ct|] eqn:Ht0; [|done]. simpl in Hrun.
    destruct (IH _ _ Hrun) as [Hmono Hnew]. split.
    + intros x y Hxy. apply Hmono. case_decide; [|done].
      apply elem_of_adj_set_add_at. by left.
    + intros t a b Ht Ha Hb Hab. apply elem_of_cons in Ht as [->|Ht].
      * simplify_eq. apply Hmono. rewrite decide_True by done.
        apply elem_of_adj_set_add_at. by right.
      * by eapply Hnew.
Qed.

Lemma compress_keys_complete scc_map g : ∀ ks cg cg',
  compress_keys scc_map g ks cg = Ok cg' ->
  (∀ x y, cg_edge cg x y -> cg_edge cg' x y) ∧
  ∀ k t a b, k ∈ ks -> t ∈ adj g k ->
             scc_map !! k = Some a -> scc_map !! t = Some b ->
             a ≠ b -> cg_edge cg' a b.
Proof.
  induction ks as [|k0 ks IH]; intros cg cg' Hrun; simpl in *.
  - simplify_eq. split; [done|]. intros k t a b Hk. by apply elem_of_nil in Hk.
  - destruct (compress_edges scc_map k0 (adj g k0) cg) as [cg1|] eqn:H1;
      [|done].
    simpl in Hrun. destruct (IH _ _ Hrun) as [Hmono Hnew].
    destruct (compress_edges_complete _ _ _ _ _ H1) as [Hmono1 Hnew1]. split.
    + intros x y Hxy. by apply Hmono, Hmono1.
    + intros k t a b Hk Ht Ha Hb Hab. apply elem_of_cons in Hk as [->|Hk].
      * apply Hmono. by eapply Hnew1.
      * by eapply Hnew.
Qed.

(** X13: when [build_compressed_graph_from_sccs] returns, the condensed
    dictionary has an edge from [x] to [y] exactly when [x] and [y] are
    different and some edge of the graph leads from a vertex mapped to
    [x] to a vertex mapped to [y]; its keys are distinct, its sets
    hold no element twice, and its keys are exactly the indices with an
    outgoing condensed edge. *)
Theorem condensed_graph_exact self sccs cg :
  build_compressed_graph_from_sccs self sccs = Ok cg ->
  (∀ x y, cg_edge cg x y ↔
          from_cross_edge (build_scc_map sccs) (graph self) x y) ∧
  NoDup (keys cg) ∧
  (∀ x, NoDup (adj cg x)) ∧
  (∀ x, x ∈ keys cg ↔ ∃ y, cg_edge cg x y).
Proof.
  unfold build_compressed_graph_from_sccs. intros Hrun.
  assert (sets_ok cg) as Hok.
  { eapply compress_keys_sets_ok; [exact Hrun|]. split; [apply NoDup_nil_2|].
    apply Forall_nil_2. }
  split; [|split; [apply Hok|split]].
  - intros x y. split.
    + eapply compress_keys_sound; [exact Hrun|].
      intros x' y' Hxy. by apply elem_of_nil in Hxy.
    + intros (Hne & u & v & Huv & Hu & Hv).
      destruct (compress_keys_complete _ _ _ _ _ Hrun) as [_ Hnew].
      eapply (Hnew u v); eauto. by eapply elem_of_adj_key.
  - intros x. by apply sets_ok_adj.
  - intros x. by apply sets_ok_keys.
Qed.

Lemma condensed_graph_exact_witness :
  (∀ x y, cg_edge [(1, [2]); (2, [3])] x y ↔
          from_cross_edge (build_scc_map [[3]; [0]; [1]; [2]])
            (graph chain_isolated_graph) x y) ∧
  NoDup (keys [(1, [2]); (2, [3])]) ∧
  (∀ x, NoDup (adj [(1, [2]); (2, [3])] x)) ∧
  (∀ x, x ∈ keys [(1, [2]); (2, [3])] ↔ ∃ y, cg_edge [(1, [2]); (2, [3])] x y).
Proof.
  apply (condensed_graph_exact chain_isolated_graph [[3]; [0]; [1]; [2]]).
  vm_compute. reflexivity.
Defined.

(** ** The in-degree table *)

Lemma count_of_cons x y l :
  count_of x (y :: l) = (if decide (y = x) then 1 else 0) + count_of x l.
Proof. unfold count_of. rewrite filter_cons. by case_decide. Qed.

Lemma count_of_zero x l : count_of x l = 0 ↔ x ∉ l.
Proof.
  induction l as [|y l IH]; [by split; [intros _; apply not_elem_of_nil|]|].
  rewrite count_of_cons, not_elem_of_cons. case_decide; subst.
  - split; [lia|]. by intros [? _].
  - rewrite <- IH. split; [intros; split; [done|lia]|]. intros [_ ?]. lia.
Qed.

Lemma in_degree_fold_adj (l : list nat) : ∀ (m : gmap nat nat) c,
  default 0 (foldl (fun in_degree v =>
                      <[v := S (default 0 (in_degree !! v))]> in_degree)
                   m l !! c) =
  default 0 (m !! c) + count_of c l.
Proof.
  induction l as [|v l IH]; intros m c; simpl; [unfold count_of; simpl; lia|].
  rewrite IH, count_of_cons, (lookup_insert m v c).
  repeat case_decide; subst; simpl; try done; lia.
Qed.

Lemma in_degree_fold_keys cg (ks : list nat) : ∀ (m : gmap nat nat) c,
  default 0 (foldl (fun in_degree u =>
               foldl (fun in_degree v =>
                        <[v := S (default 0 (in_degree !! v))]> in_degree)
                     in_degree (adj cg u))
             m ks !! c) =
  default 0 (m !! c) + count_of c (ks ≫= adj cg).
Proof.
  induction ks as [|k ks IH]; intros m c.
  - unfold count_of. simpl. lia.
  - cbn [foldl]. rewrite IH, in_degree_fold_adj, bind_cons, count_of_app. lia.
Qed.

(** The table holds, for each index, the number of condensed edges that
    lead to it. *)
Lemma in_degree_of_count cg c :
  default 0 (in_degree_of cg !! c) = count_of c (keys cg ≫= adj cg).
Proof. unfold in_degree_of. by rewrite in_degree_fold_keys, lookup_empty. Qed.

(** X14: [calculate_routes_needed] returns the number of indices below
    the number of keys of the condensed dictionary that differ from
    [start_scc] and that no condensed edge leads to; in particular the
    result never exceeds the number of keys. *)
Theorem routes_needed_counts compressed_graph start_scc :
  calculate_routes_needed compressed_graph start_scc =
    length (filter (fun c => c ≠ start_scc ∧
                             c ∉ keys compressed_graph ≫= adj compressed_graph)
                   (seq 0 (length (keys compressed_graph)))) ∧
  (∀ c, c ∈ keys compressed_graph ≫= adj compressed_graph ↔
        ∃ u, cg_edge compressed_graph u c) ∧
  calculate_routes_needed compressed_graph start_scc ≤
    length (keys compressed_graph).
Proof.
  assert (calculate_routes_needed compressed_graph start_scc =
    length (filter (fun c => c ≠ start_scc ∧
                             c ∉ keys compressed_graph ≫= adj compressed_graph)
                   (seq 0 (length (keys compressed_graph))))) as Heq.
  { unfold calculate_routes_needed. rewrite count_fold. simpl. f_equal.
    apply list_filter_iff. intros c.
    by rewrite in_degree_of_count, count_of_zero. }
  split; [done|]. split.
  - intros c. rewrite list_elem_of_bind. unfold cg_edge. split.
    + intros (u & Hc & _). by exists u.
    + intros (u & Hc). exists u. split; [done|]. by eapply elem_of_adj_key.
  - rewrite Heq. etrans; [apply length_filter|]. by rewrite length_seq.
Qed.

(** ** Transposing twice *)

Lemma NoDup_dedup l : NoDup (dedup l).
Proof.
  induction l as [|x l IH]; simpl; [apply NoDup_nil_2|].
  apply NoDup_cons. split.
  - rewrite list_elem_of_filter. by intros [Hx _].
  - by apply NoDup_filter.
Qed.

(** The keys of a transposed graph are distinct. *)
Lemma NoDup_keys_transpose self : NoDup (keys (graph (_transpose_graph self))).
Proof.
  rewrite graph_transpose, keys_reversed_into. simpl.
  apply NoDup_filter, NoDup_dedup.
Qed.

(** X15: transposing a graph twice gives back, for every vertex, its
    neighbours with their multiplicities (the order within a list may
    differ), provided the keys of the dictionary are distinct. *)
Theorem transpose_twice self u v :
  NoDup (keys (graph self)) ->
  count_of v (adj (graph (_transpose_graph (_transpose_graph self))) u) =
  count_of v (adj (graph self) u).
Proof.
  intros Hnd. rewrite count_adj_transpose by apply NoDup_keys_transpose.
  by apply count_adj_transpose.
Qed.

Lemma transpose_twice_witness :
  count_of 7 (adj (graph (_transpose_graph (_transpose_graph sample_graph))) 5) =
  count_of 7 (adj (graph sample_graph) 5).
Proof.
  apply (transpose_twice sample_graph 5 7).
  apply (bool_decide_unpack _). vm_compute. exact I.
Defined.

(** ** Building the graph *)

(** X16: [add_edge(u, v)] leaves the label map and the vertex count
    alone, appends [v] at the end of the list of [u] and changes no other
    list; [u] becomes the last key when it was not a key, and the key
    order is otherwise unchanged. *)
Theorem add_edge_effect self u v :
  airports (add_edge self u v) = airports self ∧
  vertices (add_edge self u v) = vertices self ∧
  (∀ k, adj (graph (add_edge self u v)) k =
        if decide (u = k) then adj (graph self) u ++ [v]
        else adj (graph self) k) ∧
  keys (graph (add_edge self u v)) =
    if decide (u ∈ keys (graph self)) then keys (graph self)
    else keys (graph self) ++ [u].
Proof.
  split; [done|]. split; [done|]. split.
  - intros k. apply adj_append_at.
  - apply keys_append_at.
Qed.

Lemma add_routes_app r1 : ∀ self r2,
  add_routes self (r1 ++ r2) =
  match add_routes self r1 with
  | (self', Ok _) => add_routes self' r2
  | (self', Raise e) => (self', Raise e)
  end.
Proof.
  induction r1 as [|[f t] r1 IH]; intros self r2; simpl; [done|].
  unfold airport_id. destruct (airports self !! f); [|done].
  destruct (airports self !! t); [|done]. apply IH.
Qed.

(** X17: when the labels of the routes resolve to the id pairs [ids],
    [add_routes] returns normally and the graph is the one obtained by
    calling [add_edge] on these pairs in order. *)
Theorem add_routes_resolved routes : ∀ self ids,
  Forall2 (fun r e => airports self !! r.1 = Some e.1 ∧
                      airports self !! r.2 = Some e.2) routes ids ->
  add_routes self routes =
  (foldl (fun g e => add_edge g e.1 e.2) self ids, Ok tt).
Proof.
  induction routes as [|[f t] routes IH]; intros self ids Hres.
  - apply Forall2_nil_inv_l in Hres as ->. done.
  - apply Forall2_cons_inv_l in Hres as ([u v] & ids' & [Hf Ht] & Hres & ->).
    simpl in *. unfold airport_id. rewrite Hf, Ht. by apply IH.
Qed.

Lemma add_routes_resolved_witness :
  add_routes (Graph_init sample_airports) [("DSM", "ORD"); ("ORD", "BGI")] =
  (foldl (fun g e => add_edge g e.1 e.2) (Graph_init sample_airports)
         [(0, 1); (1, 2)], Ok tt).
Proof.
  apply (add_routes_resolved [("DSM", "ORD"); ("ORD", "BGI")]
           (Graph_init sample_airports) [(0, 1); (1, 2)]).
  repeat constructor; vm_compute; reflexivity.
Defined.

(** X18: when a route names an unregistered label, [add_routes] raises
    [KeyError] for the first unregistered label of the first such route
    (the origin before the destination); the routes before it have been
    added, and that route and the later ones have not. *)
Theorem add_routes_stops self known f t rest :
  routes_known (airports self) known ->
  airports self !! f = None ∨ airports self !! t = None ->
  add_routes self (known ++ (f, t) :: rest) =
  ((add_routes self known).1,
   Raise (KeyError (KStr (if decide (airports self !! f = None) then f else t)))).
Proof.
  intros Hknown Hnone. rewrite add_routes_app.
  pose proof (add_routes_known known self) as Hok.
  pose proof (airports_add_routes known self) as Hair.
  destruct (add_routes self known) as [self' r]. simpl in *.
  rewrite Hok.
  2:{ intros f' t' Hin. unfold routes_known in Hknown.
      rewrite Forall_forall in Hknown. apply (Hknown (f', t') Hin). }
  simpl. unfold airport_id. rewrite Hair.
  destruct (airports self !! f) as [u|] eqn:Hf.
  - rewrite decide_False by done.
    destruct Hnone as [?|Ht]; [done|]. by rewrite Ht.
  - by rewrite decide_True.
Qed.

Lemma add_routes_stops_witness :
  add_routes (Graph_init sample_airports)
    ([("DSM", "ORD")] ++ ("ORD", "XXX") :: [("BGI", "LGA")]) =
  ((add_routes (Graph_init sample_airports) [("DSM", "ORD")]).1,
   Raise (KeyError (KStr "XXX"))).
Proof.
  apply (add_routes_stops (Graph_init sample_airports) [("DSM", "ORD")]
           "ORD" "XXX" [("BGI", "LGA")]).
  - apply (bool_decide_unpack _). vm_compute. exact I.
  - right. vm_compute. reflexivity.
Defined.

(** ** [add_edge] in place *)

(** X19: over the store, [add_edge] on a dictionary whose values are
    list objects not shared between keys returns, changes no object
    below the addresses the dictionary owns, keeps the dictionary in
    that form, and changes the adjacency it denotes exactly as the
    store-free [add_edge] does. *)
Theorem store_add_edge_refines base (s : list Heap.obj) (self : Heap.Graph)
    from_airport to_airport :
  Heap.owned base s (Heap.graph self) ->
  ∃ s1,
    Heap.add_edge s self from_airport to_airport = Some s1 ∧
    Heap.preserved base s s1 ∧
    Heap.owned base s1 (Heap.graph self) ∧
    Heap.contents s1 (Heap.graph self) =
      graph (add_edge
               (mkGraph (Heap.airports self) (Heap.vertices self)
                        (Heap.contents s (Heap.graph self)))
               from_airport to_airport).
Proof. intros Hown. by apply heap_add_edge_spec. Qed.

Lemma store_add_edge_refines_witness :
  let s := [Heap.OList [7]; Heap.ODict [(0, 2)]; Heap.OList [1]] in
  let self := Heap.mkGraph ∅ 2 1 in
  ∃ s1,
    Heap.add_edge s self 1 0 = Some s1 ∧
    Heap.preserved 1 s s1 ∧
    Heap.owned 1 s1 (Heap.graph self) ∧
    Heap.contents s1 (Heap.graph self) =
      graph (add_edge
               (mkGraph (Heap.airports self) (Heap.vertices self)
                        (Heap.contents s (Heap.graph self))) 1 0).
Proof.
  intros s self. apply (store_add_edge_refines 1 s self 1 0).
  split; [simpl; lia|]. exists [(0, 2)]. split; [reflexivity|]. split.
  - apply (bool_decide_unpack _). vm_compute. exact I.
  - apply Forall_singleton. simpl. split; [lia|]. by eexists.
Defined.
